(** * Band disentanglement of pybinding's [results.py]

    A shallow embedding of the classes [Disentangle] and [Wavefunction]
    (src/pybinding/results.py) together with the properties that the
    specification states about them.

    Conventions of the embedding

    - A numpy array is a [shape] tuple together with its entries, held as
      nested lists along the leading axes ([ndarray]).
    - The entries of an overlap tensor are finite floats.  The code only
      compares them ([>], [argmax]); those comparisons are exact on finite
      floats, so an entry is modelled by the rational number it denotes
      ([Q]).  NaN entries are outside the model.
    - Python exceptions are the constructors of [exn]; a function that can
      raise returns a [result].
    - A [for] loop over [range(n)] is [for_each (range n)], threading the
      variables the loop body assigns.
    - A store [a[i] = x] is [<[i := x]> a].  Every store of the code runs
      over the length of the array it writes to, so none is out of range
      (where Python would raise and the list update does nothing); the one
      store by computed indices, in [scatter], checks the bound.
    - The apply operation writes into a float64 array: a value of the data
      is converted on the store ([Dtype]), a float64 value unchanged and a
      complex value to its real part.
    - [scipy.optimize.linear_sum_assignment] is not part of the repository;
      it is an operation of the class [Scipy], and the statements assume its
      documented contract [lsa_optimal]. *)

From Stdlib Require Import QArith ZArith Lia Reals Lra.
From stdpp Require Import base list strings.

Set Default Proof Using "Type".

(** ** Exceptions and results *)

Inductive exn : Set :=
| AssertionError
| IndexError
| ValueError.

Inductive result (A : Type) : Type :=
| Ok (a : A)
| Raise (e : exn).
Arguments Ok {A} a.
Arguments Raise {A} e.

Definition bind {A B} (c : result A) (k : A → result B) : result B :=
  match c with
  | Ok a => k a
  | Raise e => Raise e
  end.

Notation "'let*' x := c 'in' k" := (bind c (λ x, k))
  (at level 10, x pattern, c at level 100, k at level 200).

(** [for x in xs: s = body x s] *)
Fixpoint for_each {St} (xs : list nat) (body : nat → St → result St) (s : St) : result St :=
  match xs with
  | [] => Ok s
  | x :: xs' => let* s' := body x s in for_each xs' body s'
  end.

(** [[f(x) for x in xs]] *)
Fixpoint traverse {A B} (f : A → result B) (xs : list A) : result (list B) :=
  match xs with
  | [] => Ok []
  | x :: xs' => let* y := f x in let* ys := traverse f xs' in Ok (y :: ys)
  end.

Definition range (n : nat) : list nat := seq 0 n.

(** ** numpy arrays and primitives *)

Record ndarray (D : Type) : Type := mk_ndarray { shape : list nat; data : D }.
Arguments mk_ndarray {D} shape data.
Arguments shape {D} n.
Arguments data {D} n.

(** Two and three leading axes. *)
Abbreviation array2 A := (ndarray (list (list A))).
Abbreviation array3 A := (ndarray (list (list (list A)))).

(** [l[i]] for a non-negative index; out of range raises. *)
Definition getitem {A} (l : list A) (i : nat) : result A :=
  match l !! i with
  | Some x => Ok x
  | None => Raise IndexError
  end.

(** [m[i, j]] on the rows of a two-axis array. *)
Definition getitem2 {A} (rows : list (list A)) (i j : nat) : result A :=
  let* row := getitem rows i in getitem row j.

(** [list.pop(i)]: the removed element and the remaining list. *)
Definition pop {A} (l : list A) (i : nat) : result (A * list A) :=
  match l !! i with
  | Some x => Ok (x, take i l ++ drop (S i) l)
  | None => Raise IndexError
  end.

(** [x > y] on floats. *)
Definition Qgtb (x y : Q) : bool := negb (Qle_bool x y).

(** [np.argmax] scans left to right and keeps the first maximum. *)
Fixpoint argmax_from (best_i : nat) (best : Q) (i : nat) (l : list Q) : nat :=
  match l with
  | [] => best_i
  | x :: l' =>
      if Qgtb x best then argmax_from i x (S i) l'
      else argmax_from best_i best (S i) l'
  end.

Definition np_argmax (l : list Q) : result nat :=
  match l with
  | [] => Raise ValueError
  | x :: l' => Ok (argmax_from 0 x 1 l')
  end.

(** [np.max] of an integer array (flattened); the empty array has no maximum. *)
Definition np_max (l : list nat) : result nat :=
  match l with
  | [] => Raise ValueError
  | _ :: _ => Ok (max_list l)
  end.

(** [-matrix] *)
Definition np_negative (m : array2 Q) : array2 Q :=
  mk_ndarray (shape m) (map (map Qopp) (data m)).

(** [a[i, idx, :]] on a three-axis array: slice [i], rows picked by [idx]. *)
Definition take_rows {A} (a : array3 A) (i : nat) (idx : list nat) : result (array2 A) :=
  match shape a with
  | [_; _; n2] =>
      let* slice := getitem (data a) i in
      let* rows := traverse (getitem slice) idx in
      Ok (mk_ndarray [length idx; n2] rows)
  | _ => Raise IndexError
  end.

(** Well-shaped arrays: the entries agree with the shape tuple. *)
Definition wf2 {A} (m : array2 A) (r c : nat) : Prop :=
  shape m = [r; c] ∧ length (data m) = r ∧ Forall (λ row, length row = c) (data m).

Definition wf3 {A} (a : array3 A) (n r c : nat) : Prop :=
  shape a = [n; r; c] ∧ length (data a) = n ∧
  Forall (λ sl, length sl = r ∧ Forall (λ row, length row = c) sl) (data a).

(** ** scipy.optimize.linear_sum_assignment

    The solver is a library function outside the repository.  The embedding
    takes it as an operation of the class [Scipy]; [lsa_optimal] is its
    documented contract on a square cost matrix: the row indices come back
    in order, the column indices are a permutation, and no permutation has a
    smaller total cost. *)

Class Scipy := linear_sum_assignment : array2 Q → list nat * list nat.

(** The entry [m[i, j]], 0 outside the matrix. *)
Definition entry (m : list (list Q)) (i j : nat) : Q :=
  default 0%Q (row ← m !! i; row !! j).

(** [sum(m[i, p[i]] for i in range(len(p)))] *)
Definition matched_weight (m : list (list Q)) (p : list nat) : Q :=
  foldr Qplus 0%Q (imap (λ i j, entry m i j) p).

Definition lsa_optimal (solver : Scipy) : Prop :=
  ∀ (c : array2 Q) (n : nat), wf2 c n n →
    ∃ col_ind, solver c = (range n, col_ind) ∧ col_ind ≡ₚ range n ∧
      ∀ p, p ≡ₚ range n → (matched_weight (data c) col_ind <= matched_weight (data c) p)%Q.

(** An exhaustive solver: the first permutation of least cost.  It shows that
    the contract can be met and serves to run the engine on examples. *)
Definition least_cost (m : list (list Q)) (best p : list nat) : list nat :=
  if Qgtb (matched_weight m best) (matched_weight m p) then p else best.

Definition exhaustive_lsa : Scipy := λ c,
  match shape c with
  | [n; _] => (range n, foldl (least_cost (data c)) (range n) (permutations (range n)))
  | _ => ([], [])
  end.

(** ** class Disentangle *)

Record Disentangle : Type := mk_Disentangle {
  overlap_matrix : array3 Q;
  (** the float [(2 * n_b) ** -0.25] after construction, or whatever the
      caller stored in this public attribute since *)
  threshold : Q;
  _disentangle_matrix : option (array2 nat * array2 nat);
  _routine : Z
}.

(** Body of the loop of [_linear_sum_approx]; the loop variables are
    [index_all], [ind] and [keep]. *)
Definition linear_sum_approx_body (self : Disentangle) (matrix : array2 Q) (i_b : nat)
    (st : list nat * list nat * list bool) : result (list nat * list nat * list bool) :=
  let '(index_all, ind, keep) := st in
  let* row := getitem (data matrix) i_b in
  let* candidates := traverse (getitem row) index_all in
  let* i_max := np_argmax candidates in
  let* popped := pop index_all i_max in
  let '(i_new, index_all') := popped in
  let* v := getitem2 (data matrix) i_b i_new in
  Ok (index_all', <[i_b := i_new]> ind, <[i_b := Qgtb v (threshold self)]> keep).

Definition _linear_sum_approx (self : Disentangle) (matrix : array2 Q)
    : result (list nat * list bool) :=
  match shape matrix with
  | [n_b; n_b_2] =>
      if negb (n_b =? n_b_2) then Raise AssertionError else
      let ind := replicate n_b 0 in
      let keep := replicate n_b false in
      let index_all := range n_b in
      let* st := for_each (range n_b) (linear_sum_approx_body self matrix)
                   (index_all, ind, keep) in
      let '(_, ind, keep) := st in
      Ok (ind, keep)
  | _ => Raise AssertionError
  end.

(** [matrix[orig, perm]]: the entries at the paired indices. *)
Definition getitem_pairs (matrix : array2 Q) (orig perm : list nat) : result (list Q) :=
  if negb (length orig =? length perm) then Raise IndexError else
  traverse (λ op, getitem2 (data matrix) op.1 op.2) (zip orig perm).

Definition _linear_sum_scipy {solver : Scipy} (self : Disentangle) (matrix : array2 Q)
    : result (list nat * list bool) :=
  let '(orig, perm) := linear_sum_assignment (np_negative matrix) in
  match shape matrix with
  | n :: _ =>
      if negb (bool_decide (orig = range n)) then Raise AssertionError else
      let* vals := getitem_pairs matrix orig perm in
      Ok (perm, map (λ v, Qgtb v (threshold self)) vals)
  | [] => Raise IndexError
  end.

(** The [if]/[elif]/[else] on [self.routine]. *)
Definition select_routine {solver : Scipy} (self : Disentangle)
    : result (array2 Q → result (list nat * list bool)) :=
  if (_routine self =? 0)%Z then Ok (_linear_sum_approx self)
  else if (_routine self =? 1)%Z then Ok (_linear_sum_scipy self)
  else Raise AssertionError.

(** First loop of [_calc_disentangle_matrix]; the loop variables are the
    arrays [ind] and [keep]. *)
Definition index_body (self : Disentangle)
    (func : array2 Q → result (list nat * list bool)) (n_b : nat) (i_k : nat)
    (st : list (list nat) * list (list bool)) : result (list (list nat) * list (list bool)) :=
  let '(ind, keep) := st in
  if i_k =? 0 then
    Ok (<[i_k := range n_b]> ind, <[i_k := replicate n_b true]> keep)
  else
    let* prev := getitem ind (i_k - 1) in
    let* matrix := take_rows (overlap_matrix self) (i_k - 1) prev in
    let* r := func matrix in
    Ok (<[i_k := r.1]> ind, <[i_k := r.2]> keep).

Definition index_loop (self : Disentangle)
    (func : array2 Q → result (list nat * list bool)) (n_k n_b : nat)
    : result (list (list nat) * list (list bool)) :=
  let ind := replicate n_k (replicate n_b 0) in
  let keep := replicate n_k (replicate n_b false) in
  for_each (range n_k) (index_body self func n_b) (ind, keep).

(** Second loop; the loop variables are [working_indices] and [tmp_w_i]. *)
Definition working_inner_body (self : Disentangle) (keep : list (list bool)) (i_k i_b : nat)
    (tmp_w_i : list nat) : result (list nat) :=
  let* k := getitem2 keep i_k i_b in
  if negb k && negb (Qeq_bool (threshold self) 0) then
    let* m := np_max tmp_w_i in Ok (<[i_b := m + 1]> tmp_w_i)
  else Ok tmp_w_i.

Definition working_body (self : Disentangle) (keep : list (list bool)) (n_b : nat) (i_k : nat)
    (st : list (list nat) * list nat) : result (list (list nat) * list nat) :=
  let '(working_indices, tmp_w_i) := st in
  let* tmp_w_i := for_each (range n_b) (working_inner_body self keep i_k) tmp_w_i in
  Ok (<[i_k := tmp_w_i]> working_indices, tmp_w_i).

Definition working_loop (self : Disentangle) (keep : list (list bool)) (n_k n_b : nat)
    : result (list (list nat)) :=
  let working_indices := replicate n_k (replicate n_b 0) in
  let tmp_w_i := range n_b in
  let* st := for_each (range n_k) (working_body self keep n_b) (working_indices, tmp_w_i) in
  Ok st.1.

(** The closing assertion, only made when the threshold is exactly 0. *)
Definition check_no_growth (self : Disentangle) (working_indices : list (list nat)) (n_b : nat)
    : result unit :=
  if Qeq_bool (threshold self) 0 then
    let* m := np_max (concat working_indices) in
    if m + 1 =? n_b then Ok () else Raise AssertionError
  else Ok ().

(** [ind] and [keep] as they stand after the first loop of
    [_calc_disentangle_matrix] (the function does not return [keep]). *)
Definition index_and_keep {solver : Scipy} (self : Disentangle)
    : result (list (list nat) * list (list bool)) :=
  match shape (overlap_matrix self) with
  | [n_k; n_b; n_b_2] =>
      if negb (n_b =? n_b_2) then Raise AssertionError else
      let n_k := n_k + 1 in
      let* func := select_routine self in
      index_loop self func n_k n_b
  | _ => Raise AssertionError
  end.

Definition _calc_disentangle_matrix {solver : Scipy} (self : Disentangle)
    : result (array2 nat * array2 nat) :=
  match shape (overlap_matrix self) with
  | [n_k; n_b; n_b_2] =>
      if negb (n_b =? n_b_2) then Raise AssertionError else
      let n_k := n_k + 1 in
      let* func := select_routine self in
      let* ik := index_loop self func n_k n_b in
      let '(ind, keep) := ik in
      let* working_indices := working_loop self keep n_k n_b in
      let* _ := check_no_growth self working_indices n_b in
      Ok (mk_ndarray [n_k; n_b] ind, mk_ndarray [n_k; n_b] working_indices)
  | _ => Raise AssertionError
  end.

(** The property [disentangle_matrix]: compute on first use, then reuse the
    cached pair.  The second component is [self] after the call. *)
Definition disentangle_matrix {solver : Scipy} (self : Disentangle)
    : result (array2 nat * array2 nat * Disentangle) :=
  match _disentangle_matrix self with
  | Some m => Ok (m, self)
  | None =>
      let* m := _calc_disentangle_matrix self in
      Ok (m, mk_Disentangle (overlap_matrix self) (threshold self) (Some m) (_routine self))
  end.

(** The setter of [routine] clears the cache. *)
Definition set_routine (self : Disentangle) (use : Z) : Disentangle :=
  mk_Disentangle (overlap_matrix self) (threshold self) None use.

(** [row[slots] = vals]: the writes happen in order, a later one wins. *)
Fixpoint scatter {T} (row : list T) (slots : list nat) (vals : list T) : result (list T) :=
  match slots, vals with
  | [], [] => Ok row
  | s :: slots', v :: vals' =>
      if s <? length row then scatter (<[s := v]> row) slots' vals'
      else Raise IndexError
  | _, _ => Raise ValueError
  end.

(** A float64 value: NaN or a finite number. *)
Inductive np_float : Type :=
| NaN
| Finite (q : Q).

(** What a data array holds at one [(k, band)] position: a number when the
    array has two axes, a block of cells along the next axis when it has
    more. *)
#[local] Unset Elimination Schemes.
Inductive cell (D : Type) : Type :=
| Scalar (v : D)
| Block (cs : list (cell D)).
#[local] Set Elimination Schemes.
Arguments Scalar {D} v.
Arguments Block {D} cs.

Fixpoint cell_map {D E} (f : D → E) (c : cell D) : cell E :=
  match c with
  | Scalar v => Scalar (f v)
  | Block cs => Block (map (cell_map f) cs)
  end.

(** [np.full(sh, np.nan)] for the trailing axes [sh]: a float64 block. *)
Fixpoint np_full_nan (sh : list nat) : cell np_float :=
  match sh with
  | [] => Scalar NaN
  | n :: sh' => Block (replicate n (np_full_nan sh'))
  end.

(** A numeric dtype, with the conversion numpy applies to one of its values
    when the value is stored into a float64 array. *)
Class Dtype (D : Type) : Type := astype_float64 : D → np_float.

(** float64 data is stored as it is. *)
#[global] Instance float64 : Dtype np_float := λ v, v.

(** complex128 data, a real and an imaginary part: the store keeps the real
    part and discards the imaginary part. *)
#[global] Instance complex128 : Dtype (np_float * np_float) := λ z, z.1.

(** Body of the loop of [_apply_disentanglement]; the loop variable is
    [out_values], a float64 array.  The values picked from the data are
    converted by the store. *)
Definition apply_body {D} {dtype : Dtype D} (matrix : list (list (cell D)))
    (ind working_indices : list (list nat)) (i_k : nat)
    (out_values : list (list (cell np_float))) : result (list (list (cell np_float))) :=
  let* ind_k := getitem ind i_k in
  let* row := getitem matrix i_k in
  let* vals := traverse (getitem row) ind_k in
  let* w_k := getitem working_indices i_k in
  let* out_row := getitem out_values i_k in
  let* out_row := scatter out_row w_k (map (cell_map astype_float64) vals) in
  Ok (<[i_k := out_row]> out_values).

Definition _apply_disentanglement {solver : Scipy} {D} {dtype : Dtype D} (self : Disentangle)
    (matrix : array2 (cell D)) : result (array2 (cell np_float) * Disentangle) :=
  if negb (2 <=? length (shape matrix)) then Raise AssertionError else
  let* dm := disentangle_matrix self in
  let '(ind, working_indices, self) := dm in
  if negb (bool_decide (length (shape ind) = 2)) then Raise AssertionError else
  if negb (bool_decide (length (shape working_indices) = 2)) then Raise AssertionError else
  if negb (bool_decide (take 2 (shape matrix) = shape ind)) then Raise AssertionError else
  (* the source repeats the comparison with [ind.shape] under the message
     for [working_indices] *)
  if negb (bool_decide (take 2 (shape matrix) = shape ind)) then Raise AssertionError else
  match shape working_indices with
  | [n_k; n_b] =>
      let* m := np_max (concat (data working_indices)) in
      let size := <[1 := m + 1]> (shape matrix) in
      let out_values :=
        replicate (size !!! 0) (replicate (size !!! 1) (np_full_nan (drop 2 size))) in
      let* out_values :=
        for_each (range n_k) (apply_body (data matrix) (data ind) (data working_indices))
          out_values in
      Ok (mk_ndarray size out_values, self)
  | _ => Raise ValueError
  end.

(** [__call__] *)
Definition call {solver : Scipy} {D} {dtype : Dtype D} (self : Disentangle)
    (matrix : array2 (cell D)) : result (array2 (cell np_float) * Disentangle) :=
  _apply_disentanglement self matrix.

(** ** class Wavefunction

    The components are complex floats.  The overlap only combines them with
    sum, product, conjugate and modulus, which the embedding takes as the
    operations of [ComplexOps]; no law about them is used, and sums run in
    index order. *)

Class ComplexOps (Cx Re : Type) : Type := {
  c0 : Cx;
  cadd : Cx → Cx → Cx;
  cmul : Cx → Cx → Cx;
  cconj : Cx → Cx;
  cabs : Cx → Re
}.

(** [a[i]] on a three-axis array. *)
Definition slice {A} (a : array3 A) (i : nat) : result (array2 A) :=
  match shape a with
  | [_; n1; n2] => let* sl := getitem (data a) i in Ok (mk_ndarray [n1; n2] sl)
  | _ => Raise IndexError
  end.

(** [m.T] on a two-axis array. *)
Definition np_transpose {A} (m : array2 A) : result (array2 A) :=
  match shape m with
  | [r; c] =>
      let* cols := traverse (λ j, traverse (λ row, getitem row j) (data m)) (range c) in
      Ok (mk_ndarray [c; r] cols)
  | _ => Raise ValueError
  end.

Definition np_conj {Cx Re : Type} {ops : ComplexOps Cx Re} (m : array2 Cx) : array2 Cx :=
  mk_ndarray (shape m) (map (map cconj) (data m)).

Definition np_abs {Cx Re : Type} {ops : ComplexOps Cx Re} (m : array2 Cx) : array2 Re :=
  mk_ndarray (shape m) (map (map cabs) (data m)).

(** [sum(x[c] * y[c] for c in range(len(x)))] *)
Definition dot {Cx Re : Type} {ops : ComplexOps Cx Re} (x y : list Cx) : Cx :=
  foldl (λ acc xy, cadd acc (cmul xy.1 xy.2)) c0 (zip x y).

(** [a @ b] on two-axis arrays. *)
Definition matmul {Cx Re : Type} {ops : ComplexOps Cx Re} (a b : array2 Cx) : result (array2 Cx) :=
  match shape a, shape b with
  | [n; k], [k'; m] =>
      if negb (k =? k') then Raise ValueError else
      let* bt := np_transpose b in
      Ok (mk_ndarray [n; m] (map (λ ra, map (λ cb, dot ra cb) (data bt)) (data a)))
  | _, _ => Raise ValueError
  end.

Record Wavefunction (Cx : Type) : Type := mk_Wavefunction {
  wavefunction : array3 Cx
}.
Arguments mk_Wavefunction {Cx} wavefunction.
Arguments wavefunction {Cx} w.

(** [np.array([...])] of a non-empty list of equally shaped two-axis arrays. *)
Definition np_stack {A} (l : list (array2 A)) : result (array3 A) :=
  match l with
  | [] => Ok (mk_ndarray [0] [])
  | m :: _ => Ok (mk_ndarray (length l :: shape m) (map data l))
  end.

(** The element of the list comprehension:
    [np.abs(self.wavefunction[i_k] @ self.wavefunction[i_k + 1].T.conj())]. *)
Definition overlap_at {Cx Re : Type} {ops : ComplexOps Cx Re} (self : Wavefunction Cx) (i_k : nat)
    : result (array2 Re) :=
  let* a := slice (wavefunction self) i_k in
  let* b := slice (wavefunction self) (i_k + 1) in
  let* bt := np_transpose b in
  let* p := matmul a (np_conj bt) in
  Ok (np_abs p).

Definition _calc_overlap_matrix {Cx Re : Type} {ops : ComplexOps Cx Re} (self : Wavefunction Cx)
    : result (array3 Re) :=
  if negb (bool_decide (length (shape (wavefunction self)) = 3)) then Raise AssertionError else
  let n_k := shape (wavefunction self) !!! 0 in
  if negb (1 <? n_k) then Raise AssertionError else
  let* steps := traverse (overlap_at self) (range (n_k - 1)) in
  np_stack steps.

(** ** Vocabulary of the statements *)

(** [keep[i] = m[i, perm[i]] > t] for every row [i]. *)
Definition keep_of (t : Q) (m : list (list Q)) (perm : list nat) : list bool :=
  imap (λ i j, Qgtb (entry m i j) t) perm.

(** What a matching routine returns on a square matrix: a permutation of
    the columns and the comparison of the matched entries with [t]. *)
Definition matcher_ok (t : Q) (func : array2 Q → result (list nat * list bool)) : Prop :=
  ∀ m n, wf2 m n n →
    ∃ perm, func m = Ok (perm, keep_of t (data m) perm) ∧ perm ≡ₚ range n.

(** Row [k] of [ind] and [keep] is settled: row 0 is the identity, a later
    row is what [func] returns on the overlap slice reordered by the row
    before it. *)
Definition row_resolved (self : Disentangle)
    (func : array2 Q → result (list nat * list bool)) (n_b : nat)
    (ind : list (list nat)) (keep : list (list bool)) (k : nat) : Prop :=
  ∃ row krow,
    ind !! k = Some row ∧ keep !! k = Some krow ∧
    row ≡ₚ range n_b ∧ length krow = n_b ∧
    match k with
    | 0 => row = range n_b ∧ krow = replicate n_b true
    | S k' =>
        ∃ prev matrix,
          ind !! k' = Some prev ∧
          take_rows (overlap_matrix self) k' prev = Ok matrix ∧
          wf2 matrix n_b n_b ∧
          func matrix = Ok (row, krow) ∧
          krow = keep_of (threshold self) (data matrix) row
    end.

(** ** Example inputs *)

(** Two bands that keep their order at the first step and swap at the second. *)
Definition scenario_overlap : array3 Q :=
  mk_ndarray [2; 2; 2]
    [[[9 # 10; 1 # 10]; [1 # 10; 9 # 10]];
     [[5 # 100; 95 # 100]; [95 # 100; 5 # 100]]]%Q.

Definition scenario (t : Q) (routine : Z) : Disentangle :=
  mk_Disentangle scenario_overlap t None routine.

(** A matrix on which the greedy choice of row 0 costs row 1 its best column. *)
Definition greedy_trap : array2 Q :=
  mk_ndarray [2; 2] [[5; 4]; [9; 1]]%Q.

(** Two k-points of a system without bands. *)
Definition no_bands (t : Q) (routine : Z) : Disentangle :=
  mk_Disentangle (mk_ndarray [1; 0; 0] [[]]) t None routine.

(** [self.threshold = t]: a plain attribute store, the cache is left alone. *)
Definition set_threshold (self : Disentangle) (t : Q) : Disentangle :=
  mk_Disentangle (overlap_matrix self) t (_disentangle_matrix self) (_routine self).

(** [rows[k][b]], [None] outside the array. *)
Definition lookup2 {A} (rows : list (list A)) (k b : nat) : option A :=
  row ← rows !! k; row !! b.

(** Every entry of a three-axis array satisfies [P]. *)
Definition all_entries {A} (P : A → Prop) (a : array3 A) : Prop :=
  Forall (Forall (Forall P)) (data a).

(** One band persists, the other one has no overlap with anything. *)
Definition vanishing_band (routine : Z) : Disentangle :=
  mk_Disentangle (mk_ndarray [1; 2; 2] [[[1; 0]; [0; 0]]]%Q) 0 None routine.

(** The leading two axes of a data array are [(n_k, n_b)]. *)
Definition wf_leading {T} (m : array2 T) (n_k n_b : nat) : Prop :=
  take 2 (shape m) = [n_k; n_b] ∧ length (data m) = n_k ∧
  Forall (λ row, length row = n_b) (data m).

(** [out_row[w_k[b]] = row[ind_k[b]]] for every [b], NaN in the other slots
    of a row with [m + 1] slots. *)
Definition scattered {T} (nan : T) (m : nat) (row : list T) (ind_k w_k : list nat)
    (out_row : list T) : Prop :=
  length out_row = m + 1 ∧
  (∀ b j s, ind_k !! b = Some j → w_k !! b = Some s →
            is_Some (row !! j) ∧ out_row !! s = row !! j) ∧
  (∀ s, s ≤ m → s ∉ w_k → out_row !! s = Some nan).

(** Energies of three k-points and two bands. *)
Definition scenario_energy : array2 (cell np_float) :=
  mk_ndarray [3; 2]
    [[Scalar (Finite (-1)); Scalar (Finite 1)];
     [Scalar (Finite (-2 # 10)); Scalar (Finite (2 # 10))];
     [Scalar (Finite 1); Scalar (Finite (-1))]]%Q.

(** An energy array: two axes [(n_k, n_b)] of finite float64 numbers. *)
Definition energy_array (e : array2 (cell np_float)) (n_k n_b : nat) : Prop :=
  wf2 e n_k n_b ∧ Forall (Forall (λ c, ∃ q, c = Scalar (Finite q))) (data e).

(** Complex amplitudes of three k-points and two bands. *)
Definition scenario_amplitude : array2 (cell (np_float * np_float)) :=
  mk_ndarray [3; 2]
    [[Scalar (Finite 1, Finite 2); Scalar (Finite 0, Finite 1)];
     [Scalar (Finite 1, Finite 0); Scalar (Finite 0, Finite (-1))];
     [Scalar (Finite 0, Finite 3); Scalar (Finite 1, Finite 1)]]%Q.

(** [a[i, j, k]], [None] outside the array. *)
Definition lookup3 {A} (a : list (list (list A))) (i j k : nat) : option A :=
  sl ← a !! i; lookup2 sl j k.

(** The sum of [f c] over the components [c < n], in index order from
    zero: the inner product of C9 is this sum of the products of the
    components of one band with the conjugated components of the other. *)
Fixpoint sum_over_components {Cx Re : Type} {ops : ComplexOps Cx Re} (f : nat → Cx) (n : nat)
    : Cx :=
  match n with
  | 0 => c0
  | S n' => cadd (sum_over_components f n') (f n')
  end.

(** [wavefunction[i, a, c]], zero outside the array. *)
Definition component {Cx Re : Type} {ops : ComplexOps Cx Re} (self : Wavefunction Cx)
    (i a c : nat) : Cx :=
  default c0 (lookup3 (data (wavefunction self)) i a c).

(** Complex numbers as pairs of reals, with the modulus as [np.abs]. *)
Definition real_complex : ComplexOps (R * R) R := {|
  c0 := (0, 0)%R;
  cadd x y := (x.1 + y.1, x.2 + y.2)%R;
  cmul x y := (x.1 * y.1 - x.2 * y.2, x.1 * y.2 + x.2 * y.1)%R;
  cconj x := (x.1, - x.2)%R;
  cabs x := sqrt (x.1 * x.1 + x.2 * x.2)
|}.

(** Two k-points, two bands, two components.  At the second k-point both
    bands lie along the second component, the first one with the phase i. *)
Definition two_band_wavefunction : Wavefunction (R * R) :=
  mk_Wavefunction
    (mk_ndarray [2; 2; 2]
       [[[(1, 0); (0, 0)]; [(0, 0); (1, 0)]];
        [[(0, 0); (0, 1)]; [(0, 0); (1, 0)]]]%R).

(** The order of two bands changes at the first step, and the second step
    goes on from the changed order. *)
Definition crossing_overlap : array3 Q :=
  mk_ndarray [2; 2; 2]
    [[[1 # 10; 9 # 10]; [8 # 10; 2 # 10]];
     [[8 # 10; 2 # 10]; [3 # 10; 7 # 10]]]%Q.

Definition crossing (routine : Z) : Disentangle :=
  mk_Disentangle crossing_overlap (1 # 2) None routine.

(** Both overlaps of the last step are far below the threshold. *)
Definition retiring_overlap : array3 Q :=
  mk_ndarray [2; 2; 2]
    [[[9 # 10; 1 # 10]; [1 # 10; 9 # 10]];
     [[1 # 100; 0]; [0; 1 # 100]]]%Q.

(** The threshold is the float nearest to [4 ** -0.25]. *)
Definition retiring (routine : Z) : Disentangle :=
  mk_Disentangle retiring_overlap (7071 # 10000) None routine.

(** ** Vocabulary for the working-index map *)

(** The test of the second loop: the track is retired. *)
Definition retires (self : Disentangle) (kept : bool) : bool :=
  negb kept && negb (Qeq_bool (threshold self) 0).

(** The number of tracks one row of [keep] retires. *)
Definition retirements (self : Disentangle) (krow : list bool) : nat :=
  sum_list_with (λ kept, if retires self kept then 1 else 0) krow.

(** The slots in use when the second loop reaches k-point [k]: [arange(n_b)]
    at the first one, the row stored for the k-point before otherwise. *)
Definition previous_slots (n_b : nat) (working_indices : list (list nat)) (k : nat)
    : list nat :=
  match k with
  | 0 => range n_b
  | S k' => default [] (working_indices !! k')
  end.

(** One k-point of the second loop takes the slots [tmp0] to [tmp']: a kept
    track stays where it is, a retired one moves above every slot of
    [tmp0], and the maximum grows by the number of retired tracks. *)
Definition slot_step (self : Disentangle) (tmp0 : list nat) (krow : list bool)
    (tmp' : list nat) : Prop :=
  length tmp' = length tmp0 ∧
  (∀ b kept, krow !! b = Some kept →
     if retires self kept then ∃ s, tmp' !! b = Some s ∧ max_list tmp0 < s
     else tmp' !! b = tmp0 !! b) ∧
  max_list tmp' = max_list tmp0 + retirements self krow.

(** Projected densities of three k-points and two bands on two orbitals. *)
Definition scenario_density : array2 (cell np_float) :=
  mk_ndarray [3; 2; 2]
    [[Block [Scalar (Finite 1); Scalar (Finite 0)]; Block [Scalar (Finite 0); Scalar (Finite 1)]];
     [Block [Scalar (Finite 1); Scalar (Finite 0)]; Block [Scalar (Finite 0); Scalar (Finite 1)]];
     [Block [Scalar (Finite 0); Scalar (Finite 1)]; Block [Scalar (Finite 1); Scalar (Finite 0)]]]%Q.

(** Strictly increasing from left to right. *)
Definition ascending (l : list nat) : Prop :=
  ∀ p q a b, p < q → l !! p = Some a → l !! q = Some b → a < b.

(** Column [c] is the first maximum of row [i] of [m] among the columns
    below [n] that are not in [taken]. *)
Definition first_maximum (m : list (list Q)) (n i : nat) (taken : list nat) (c : nat) : Prop :=
  c < n ∧ (c ∉ taken) ∧
  ∀ j, j < n → j ∉ taken →
    (entry m i j <= entry m i c)%Q ∧ (j < c → (entry m i j < entry m i c)%Q).

(** ** Boolean masks and index arrays *)

(** An index into one axis: a boolean mask or an array of positions. *)
Inductive index : Type :=
| Mask (m : list bool)
| Indices (l : list nat).

(** The positions of the True entries of a mask, counted from [i]. *)
Fixpoint nonzero_from (i : nat) (m : list bool) : list nat :=
  match m with
  | [] => []
  | b :: m' => if b then i :: nonzero_from (S i) m' else nonzero_from (S i) m'
  end.

(** [np.nonzero(m)[0]] *)
Definition np_nonzero (m : list bool) : list nat := nonzero_from 0 m.

(** [a[m]] with a boolean mask of the length of [a]. *)
Fixpoint mask_select {A} (m : list bool) (a : list A) : list A :=
  match m, a with
  | b :: m', v :: a' => if b then v :: mask_select m' a' else mask_select m' a'
  | _, _ => []
  end.

(** [a[idx]] on a one-axis array. *)
Definition getitem_index {A} (a : list A) (idx : index) : result (list A) :=
  match idx with
  | Mask m => if length m =? length a then Ok (mask_select m a) else Raise IndexError
  | Indices l => traverse (getitem a) l
  end.

(** The positions that [np.ix_] makes of an index. *)
Definition ix_positions (idx : index) : list nat :=
  match idx with
  | Mask m => np_nonzero m
  | Indices l => l
  end.

(** [d[np.ix_(idx_x, idx_y)]] on a two-axis array: the rows at the positions
    of [idx_x], each cut down to the columns at the positions of [idx_y]. *)
Definition getitem_ix (d : array2 Q) (idx_x idx_y : index) : result (array2 Q) :=
  match shape d with
  | [r; c] =>
      let ix := ix_positions idx_x in
      let iy := ix_positions idx_y in
      if forallb (λ i, i <? r) ix && forallb (λ j, j <? c) iy
      then Ok (mk_ndarray [length ix; length iy]
                 (map (λ i, map (λ j, entry (data d) i j) iy) ix))
      else Raise IndexError
  | _ => Raise IndexError
  end.

(** ** class Sweep

    [x] and [y] are one-axis arrays and [data] a two-axis array, on which
    [np.atleast_1d] and [np.atleast_2d] of the constructor change nothing.
    Their values are rationals, as the overlaps are: only comparison and
    negation are used, and NaN is not among them.
    [labels] and [tags] are carried along; [with_defaults] is the function of
    that name in [utils], which is not part of this file. *)

(** The entries of an [ndarray], under a name that the field [Sweep.data]
    does not hide inside the module. *)
Abbreviation array_data := data (only parsing).

Module Sweep.

Record t (L G : Type) : Type := mk {
  x : list Q;
  y : list Q;
  data : array2 Q;
  labels : L;
  tags : G
}.
Arguments mk {L G} x y data labels tags.
Arguments x {L G} _.
Arguments y {L G} _.
Arguments data {L G} _.
Arguments labels {L G} _.
Arguments tags {L G} _.

(** [__init__] *)
Definition init {L G} (with_defaults : L → L) (x0 y0 : list Q) (data0 : array2 Q)
    (labels0 : L) (tags0 : G) : t L G :=
  mk x0 y0 data0 (with_defaults labels0) tags0.

Definition _with_data {L G} (with_defaults : L → L) (self : t L G)
    (x0 y0 : list Q) (data0 : array2 Q) : t L G :=
  init with_defaults x0 y0 data0 (labels self) (tags self).

(** [np.logical_and(lim[0] <= v, v <= lim[1])] *)
Definition within (lim : Q * Q) (v : list Q) : list bool :=
  map (λ a, Qle_bool lim.1 a && Qle_bool a lim.2) v.

(** [... if lim else np.arange(v.size)] *)
Definition crop_index (lim : option (Q * Q)) (v : list Q) : index :=
  match lim with
  | Some l => Mask (within l v)
  | None => Indices (range (length v))
  end.

Definition cropped {L G} (with_defaults : L → L) (self : t L G)
    (x_lim y_lim : option (Q * Q)) : result (t L G) :=
  let idx_x := crop_index x_lim (x self) in
  let idx_y := crop_index y_lim (y self) in
  let* x' := getitem_index (x self) idx_x in
  let* y' := getitem_index (y self) idx_y in
  let* data' := getitem_ix (data self) idx_x idx_y in
  Ok (_with_data with_defaults self x' y' data').

(** [np.concatenate((-v[::-1], v[1:]))] *)
Definition mirror_axis (v : list Q) : list Q :=
  map Qopp (reverse v) ++ drop 1 v.

(** [a[::-1]] followed by [a[1:]]. *)
Definition mirror_rows {A} (a : list A) : list A := reverse a ++ drop 1 a.

(** The size of a mirrored axis. *)
Definition mirror_size (r : nat) : nat := r + (r - 1).

(** [None] is what the Python function returns for any other axis: the
    [RuntimeError] of its last branch is built but not raised. *)
Definition mirrored {L G} (with_defaults : L → L) (self : t L G) (axis : string)
    : option (t L G) :=
  if String.eqb axis "x"%string then
    let x' := mirror_axis (x self) in
    let data' :=
      mk_ndarray (match shape (data self) with
                  | r :: rest => mirror_size r :: rest
                  | [] => []
                  end)
                 (mirror_rows (array_data (data self))) in
    Some (_with_data with_defaults self x' (y self) data')
  else if String.eqb axis "y"%string then
    let y' := mirror_axis (y self) in
    let data' :=
      mk_ndarray (match shape (data self) with
                  | r :: c :: rest => r :: mirror_size c :: rest
                  | s => s
                  end)
                 (map mirror_rows (array_data (data self))) in
    Some (_with_data with_defaults self (x self) y' data')
  else None.

(** The invariant of the class: [data.shape == (x.size, y.size)]. *)
Definition wf {L G} (self : t L G) : Prop :=
  wf2 (data self) (length (x self)) (length (y self)).

(** A value is inside a limit: within the closed interval, or anywhere when
    there is no limit. *)
Definition inside (lim : option (Q * Q)) (a : Q) : Prop :=
  match lim with
  | Some (lo, hi) => (lo <= a)%Q ∧ (a <= hi)%Q
  | None => True
  end.

(** [ix] lists, in ascending order, the positions of [v] whose value is
    inside [lim]. *)
Definition kept_positions (lim : option (Q * Q)) (v : list Q) (ix : list nat) : Prop :=
  ascending ix ∧ ∀ i, i ∈ ix ↔ ∃ a, v !! i = Some a ∧ inside lim a.

(** [v'] is [v] mirrored around its first entry: with [n] the length of [v],
    position [n - 1 - k] holds [neg v[k]] and, from [k = 1] on, position
    [n - 1 + k] holds [v[k]]. *)
Definition mirror_image {A} (neg : A → A) (v v' : list A) : Prop :=
  length v' = mirror_size (length v) ∧
  ∀ k a, v !! k = Some a →
    v' !! (length v - 1 - k) = Some (neg a) ∧
    (1 ≤ k → v' !! (length v - 1 + k) = Some a).

End Sweep.

(** ** _make_crop_indices *)

(** [for item in items: s = body(item, s)] *)
Fixpoint for_each_item {A St} (items : list A) (body : A → St → result St) (s : St)
    : result St :=
  match items with
  | [] => Ok s
  | item :: items' => let* s' := body item s in for_each_item items' body s'
  end.

(** [np.logical_and(a, b)] on one-axis arrays: entry by entry, an array of
    one entry being broadcast along the other one. *)
Definition np_logical_and (a b : list bool) : result (list bool) :=
  if length a =? length b then Ok (zip_with andb a b)
  else match a, b with
       | [u], _ => Ok (map (andb u) b)
       | _, [v] => Ok (map (λ u, u && v) a)
       | _, _ => Raise ValueError
       end.

(** What the function uses of [obj]: the number of sites and the attributes,
    read by name; reading an attribute may raise. *)
Record site_data : Type := mk_site_data {
  num_sites : nat;
  getattr : string → result (list Q)
}.

Definition crop_indices_body (obj : site_data) (item : string * list Q)
    (idx : list bool) : result (list bool) :=
  let '(name, limit) := item in
  let* v := getattr obj name in
  let* lo := getitem limit 0 in
  let* idx := np_logical_and idx (map (λ a, Qle_bool lo a) v) in
  let* hi := getitem limit 1 in
  np_logical_and idx (map (λ a, Qgtb hi a) v).

(** [limits.items()] is the list of the dict's items in their order. *)
Definition _make_crop_indices (obj : site_data) (limits : list (string * list Q))
    : result (list bool) :=
  for_each_item limits (crop_indices_body obj) (replicate (num_sites obj) true).

(** Site [i] is within every limit: for each item, the attribute's value at
    [i] lies in the half-open interval from [limit[0]] to [limit[1]]. *)
Definition site_within (obj : site_data) (limits : list (string * list Q)) (i : nat) : Prop :=
  ∀ name limit, (name, limit) ∈ limits →
    ∃ v a lo hi, getattr obj name = Ok v ∧ v !! i = Some a ∧
      limit !! 0 = Some lo ∧ limit !! 1 = Some hi ∧ (lo <= a)%Q ∧ (a < hi)%Q.

(** ** Example inputs *)

(** Three x-values, two y-values. *)
Definition small_sweep : Sweep.t unit unit :=
  Sweep.mk [0; 1; 2]%Q [0; 1]%Q (mk_ndarray [3; 2] [[1; 2]; [3; 4]; [5; 6]]%Q) tt tt.

(** Three sites on a line; every attribute other than [x] reads as the
    y-positions. *)
Definition chain_sites : site_data :=
  mk_site_data 3 (λ name, Ok (if String.eqb name "x" then [0; 1; 2]%Q else [0; 0; 0]%Q)).

(** * Properties *)

(** ** Results, loops and comprehensions *)

Lemma bind_Ok {A B} (c : result A) (k : A → result B) b :
  bind c k = Ok b ↔ ∃ a, c = Ok a ∧ k a = Ok b.
Proof.
  destruct c as [a|e]; simpl; split.
  - eauto.
  - by intros (? & [= <-] & ?).
  - done.
  - by intros (? & ? & ?).
Qed.

Ltac inv_bind H :=
  repeat match type of H with
  | bind _ _ = Ok _ =>
      let a := fresh "a" in let Ha := fresh "Hb" in
      apply bind_Ok in H as (a & Ha & H); simpl in H
  end.

Lemma for_each_app {St} xs ys (body : nat → St → result St) s :
  for_each (xs ++ ys) body s = let* s' := for_each xs body s in for_each ys body s'.
Proof.
  revert s. induction xs as [|x xs IH]; intros s; simpl; [done|].
  destruct (body x s); simpl; auto.
Qed.

(** The loop rule: an invariant that every iteration re-establishes, and
    every iteration returns. *)
Lemma for_each_range {St} (P : nat → St → Prop) n (body : nat → St → result St) s0 :
  P 0 s0 →
  (∀ i s, i < n → P i s → ∃ s', body i s = Ok s' ∧ P (S i) s') →
  ∃ s', for_each (range n) body s0 = Ok s' ∧ P n s'.
Proof.
  intros H0 Hstep. unfold range.
  induction n as [|n IH].
  - exists s0. by split.
  - destruct IH as (s1 & Hrun & HP); [intros; apply Hstep; [lia|done]|].
    destruct (Hstep n s1) as (s2 & Hb & HP2); [lia|done|].
    exists s2. split; [|done].
    rewrite seq_S, for_each_app, Hrun. simpl. by rewrite Hb.
Qed.

(** Two runs of a loop over the same indices stay related. *)
Lemma for_each_rel {St St'} (R : St → St' → Prop) xs
    (body : nat → St → result St) (body' : nat → St' → result St') s0 s0' sf sf' :
  R s0 s0' →
  (∀ i s s' s1 s1', R s s' → body i s = Ok s1 → body' i s' = Ok s1' → R s1 s1') →
  for_each xs body s0 = Ok sf → for_each xs body' s0' = Ok sf' → R sf sf'.
Proof.
  intros HR Hstep. revert s0 s0' HR.
  induction xs as [|x xs IH]; intros s0 s0' HR H1 H2; simpl in *.
  - by injection H1 as <-; injection H2 as <-.
  - inv_bind H1. inv_bind H2. eauto.
Qed.

Lemma traverse_Ok {A B} (f : A → result B) xs ys :
  traverse f xs = Ok ys ↔ Forall2 (λ x y, f x = Ok y) xs ys.
Proof.
  revert ys. induction xs as [|x xs IH]; intros ys; simpl.
  - split; [intros [= <-]; constructor | by inversion 1].
  - split.
    + intros H. inv_bind H. injection H as <-. constructor; [done|by apply IH].
    + inversion 1 as [|? y ? ys' Hf Hrest]; subst.
      rewrite Hf. simpl. apply IH in Hrest. by rewrite Hrest.
Qed.

Lemma getitem_Ok {A} (l : list A) i x : getitem l i = Ok x ↔ l !! i = Some x.
Proof. unfold getitem. destruct (l !! i); split; congruence. Qed.

Lemma traverse_getitem {A} (l : list A) idx :
  Forall (λ i, i < length l) idx →
  ∃ ys, traverse (getitem l) idx = Ok ys ∧ Forall2 (λ i y, l !! i = Some y) idx ys.
Proof.
  induction 1 as [|i idx Hi _ (ys & Htr & IH)].
  - exists []. by split; [|constructor].
  - apply lookup_lt_is_Some_2 in Hi as [x Hx].
    exists (x :: ys). split; [|by constructor].
    simpl. apply getitem_Ok in Hx. rewrite Hx. simpl. by rewrite Htr.
Qed.

(** ** Comparisons *)

Lemma Qgtb_true x y : Qgtb x y = true ↔ (y < x)%Q.
Proof.
  unfold Qgtb. rewrite negb_true_iff, <- not_true_iff_false, Qle_bool_iff.
  split; [apply Qnot_le_lt | apply Qlt_not_le].
Qed.

Lemma Qgtb_false x y : Qgtb x y = false ↔ (x <= y)%Q.
Proof. unfold Qgtb. by rewrite negb_false_iff, Qle_bool_iff. Qed.

Lemma argmax_from_lt best_i best i l :
  best_i < i → argmax_from best_i best i l < i + length l.
Proof.
  revert best_i best i. induction l as [|x l IH]; intros best_i best i Hlt; simpl; [lia|].
  destruct (Qgtb x best).
  - specialize (IH i x (S i)). lia.
  - specialize (IH best_i best (S i)). lia.
Qed.

Lemma np_argmax_lt l : l ≠ [] → ∃ i, np_argmax l = Ok i ∧ i < length l.
Proof.
  destruct l as [|x l]; [done|]. intros _. eexists. split; [done|].
  simpl. pose proof (argmax_from_lt 0 x 1 l). lia.
Qed.

(** ** Well-shaped arrays *)

Lemma wf2_row {A} (m : array2 A) r c i :
  wf2 m r c → i < r → ∃ row, data m !! i = Some row ∧ length row = c.
Proof.
  intros (_ & Hlen & Hrows) Hi.
  destruct (lookup_lt_is_Some_2 (data m) i) as [row Hrow]; [lia|].
  exists row. split; [done|]. by eapply (Forall_lookup_1 _ _ _ _ Hrows).
Qed.

Lemma wf2_entry (m : array2 Q) r c i j :
  wf2 m r c → i < r → j < c →
  ∃ row, data m !! i = Some row ∧ row !! j = Some (entry (data m) i j).
Proof.
  intros Hwf Hi Hj. destruct (wf2_row m r c i Hwf Hi) as (row & Hrow & Hlen).
  exists row. split; [done|].
  destruct (lookup_lt_is_Some_2 row j) as [v Hv]; [lia|].
  unfold entry. rewrite Hrow. simpl. by rewrite Hv.
Qed.

(** ** The greedy routine [_linear_sum_approx] *)

Lemma linear_sum_approx_step self matrix n i index_all ind keep :
  wf2 matrix n n → i < n →
  length ind = n → length keep = n →
  take i ind ++ index_all ≡ₚ range n →
  take i keep = keep_of (threshold self) (data matrix) (take i ind) →
  ∃ index_all' ind' keep',
    linear_sum_approx_body self matrix i (index_all, ind, keep) = Ok (index_all', ind', keep') ∧
    length ind' = n ∧ length keep' = n ∧
    take (S i) ind' ++ index_all' ≡ₚ range n ∧
    take (S i) keep' = keep_of (threshold self) (data matrix) (take (S i) ind').
Proof.
  intros Hwf Hi Hind Hkeep Hperm Hk.
  destruct (wf2_row matrix n n i Hwf Hi) as (row & Hrow & Hrowlen).
  assert (Hin : ∀ x, x ∈ index_all → x < n).
  { intros x Hx. assert (Hx' : x ∈ range n) by (rewrite <- Hperm; apply elem_of_app; by right).
    apply elem_of_seq in Hx'. lia. }
  assert (Hlen : length index_all = n - i).
  { apply Permutation_length in Hperm.
    rewrite length_app, length_take_le in Hperm by lia.
    unfold range in Hperm. rewrite length_seq in Hperm. lia. }
  destruct (traverse_getitem row index_all) as (cands & Hcands & Hall).
  { apply Forall_forall. intros x Hx. rewrite Hrowlen. auto. }
  pose proof (Forall2_length _ _ _ Hall) as Hclen.
  destruct (np_argmax_lt cands) as (i_max & Hmax & Hlt).
  { intros ->. simpl in Hclen. lia. }
  destruct (lookup_lt_is_Some_2 index_all i_max) as [i_new Hnew]; [lia|].
  assert (Hnew_lt : i_new < n) by (apply Hin; by eapply list_elem_of_lookup_2).
  destruct (wf2_entry matrix n n i i_new Hwf Hi Hnew_lt) as (row' & Hrow' & Hv).
  assert (row' = row) as -> by congruence.
  exists (take i_max index_all ++ drop (S i_max) index_all), (<[i := i_new]> ind),
    (<[i := Qgtb (entry (data matrix) i i_new) (threshold self)]> keep).
  split; [|split; [|split; [|split]]].
  - unfold linear_sum_approx_body, getitem2, pop.
    apply getitem_Ok in Hrow. rewrite Hrow. simpl. rewrite Hcands. simpl.
    rewrite Hmax. simpl. rewrite Hnew. simpl.
    apply getitem_Ok in Hv. by rewrite Hv.
  - by rewrite length_insert.
  - by rewrite length_insert.
  - rewrite (take_S_r _ _ i_new) by (apply list_lookup_insert_eq; lia).
    rewrite take_insert_ge by lia.
    rewrite <- Hperm, <- delete_take_drop, <- app_assoc. simpl.
    apply Permutation_app_head. symmetry. by apply delete_Permutation.
  - rewrite (take_S_r _ _ i_new) by (apply list_lookup_insert_eq; lia).
    rewrite (take_S_r (<[i:=_]> keep) _ (Qgtb (entry (data matrix) i i_new) (threshold self)))
      by (apply list_lookup_insert_eq; lia).
    rewrite !take_insert_ge by lia.
    unfold keep_of in *. rewrite imap_app, Hk. simpl.
    rewrite length_take_le by lia. by rewrite Nat.add_0_r.
Qed.

Lemma linear_sum_approx_spec self matrix n :
  wf2 matrix n n →
  ∃ perm, _linear_sum_approx self matrix =
            Ok (perm, keep_of (threshold self) (data matrix) perm) ∧
          perm ≡ₚ range n.
Proof.
  intros Hwf.
  destruct (for_each_range
    (λ i (st : list nat * list nat * list bool),
       let '(index_all, ind, keep) := st in
       length ind = n ∧ length keep = n ∧
       take i ind ++ index_all ≡ₚ range n ∧
       take i keep = keep_of (threshold self) (data matrix) (take i ind))
    n (linear_sum_approx_body self matrix)
    (range n, replicate n 0, replicate n false))
    as ([[ia ind] keep] & Hrun & Hind & Hkeep & Hperm & Hk).
  - rewrite !length_replicate. by rewrite !take_0.
  - intros i [[ia ind] keep] Hi (Hind & Hkeep & Hperm & Hk).
    destruct (linear_sum_approx_step self matrix n i ia ind keep)
      as (ia' & ind' & keep' & Hb & ?); auto.
    exists (ia', ind', keep'). by split.
  - exists ind. rewrite !take_ge in * by lia.
    assert (ia = []) as ->.
    { apply Permutation_length in Hperm.
      rewrite length_app in Hperm. unfold range in Hperm. rewrite length_seq in Hperm.
      apply length_zero_iff_nil. lia. }
    rewrite app_nil_r in Hperm. split; [|done].
    unfold _linear_sum_approx. destruct Hwf as (-> & _).
    rewrite Nat.eqb_refl. simpl. rewrite Hrun. simpl. by rewrite Hk.
Qed.

(** The permutation that the greedy routine picks does not depend on the
    threshold. *)
Lemma linear_sum_approx_perm self self' matrix r r' :
  _linear_sum_approx self matrix = Ok r →
  _linear_sum_approx self' matrix = Ok r' → r.1 = r'.1.
Proof.
  unfold _linear_sum_approx.
  destruct (shape matrix) as [|n_b [|n_b_2 [|]]]; try done.
  destruct (negb (n_b =? n_b_2)); [done|].
  intros H H'. inv_bind H. inv_bind H'.
  destruct a as [[ia ind] keep], a0 as [[ia' ind'] keep'].
  injection H as <-. injection H' as <-. simpl.
  enough (ia = ia' ∧ ind = ind') by tauto.
  eapply (for_each_rel (λ s s', s.1.1 = s'.1.1 ∧ s.1.2 = s'.1.2) _ _ _ _ _ (ia, ind, keep)
            (ia', ind', keep') _ _ Hb Hb0).
  Unshelve.
  - done.
  - clear. intros i [[ia ind] keep] [[ia' ind'] keep'] s1 s1'. simpl.
    intros [-> ->] H H'. unfold linear_sum_approx_body in *.
    inv_bind H. inv_bind H'.
    assert (a3 = a) as -> by congruence.
    assert (a4 = a0) as -> by congruence.
    assert (a5 = a1) as -> by congruence.
    assert (a6 = a2) as -> by congruence.
    destruct a2 as [i_new ia1].
    inv_bind H. inv_bind H'. injection H as <-. injection H' as <-. by simpl.
Qed.

(** ** The optimal routine [_linear_sum_scipy] *)

Lemma wf2_np_negative m r c : wf2 m r c → wf2 (np_negative m) r c.
Proof.
  intros (Hs & Hlen & Hrows). split; [done|]. simpl. split.
  - by rewrite length_map.
  - apply Forall_fmap. eapply Forall_impl; [done|].
    intros row Hrow. simpl. by rewrite length_map.
Qed.

Lemma entry_negative m i j : entry (map (map Qopp) m) i j = (- entry m i j)%Q.
Proof.
  unfold entry. change (map (map Qopp) m) with (map Qopp <$> m).
  rewrite list_lookup_fmap. destruct (m !! i) as [row|]; simpl; [|done].
  change (map Qopp row) with (Qopp <$> row).
  rewrite list_lookup_fmap. by destruct (row !! j).
Qed.

Lemma sum_imap_opp (f : nat → nat → Q) p :
  (foldr Qplus 0 (imap (λ i j, - f i j) p) == - foldr Qplus 0 (imap f p))%Q.
Proof.
  revert f. induction p as [|x p IH]; intros f; simpl; [done|].
  rewrite (IH (f ∘ S)). ring.
Qed.

Lemma matched_weight_negative m p :
  (matched_weight (map (map Qopp) m) p == - matched_weight m p)%Q.
Proof.
  unfold matched_weight. rewrite <- sum_imap_opp.
  erewrite imap_ext; [reflexivity|]. intros i x _. simpl. apply entry_negative.
Qed.

Lemma traverse_pairs m n s perm :
  wf2 m n n → s + length perm ≤ n → Forall (λ j, j < n) perm →
  traverse (λ op : nat * nat, getitem2 (data m) op.1 op.2) (zip (seq s (length perm)) perm) =
    Ok (imap (λ i j, entry (data m) (s + i) j) perm).
Proof.
  intros Hwf. revert s. induction perm as [|x perm IH]; intros s Hs Hall; simpl in *; [done|].
  inversion Hall as [|? ? Hx Hall']; subst.
  destruct (wf2_entry m n n s x Hwf) as (row & Hrow & Hv); [lia|done|].
  unfold getitem2 at 1. apply getitem_Ok in Hrow, Hv. rewrite Hrow. simpl. rewrite Hv. simpl.
  rewrite IH by (done || lia). simpl. rewrite Nat.add_0_r. do 2 f_equal.
  apply imap_ext. intros i y _. simpl. f_equal. lia.
Qed.

Lemma getitem_pairs_range m n perm :
  wf2 m n n → perm ≡ₚ range n →
  getitem_pairs m (range n) perm = Ok (imap (λ i j, entry (data m) i j) perm).
Proof.
  intros Hwf Hperm. unfold getitem_pairs.
  pose proof (Permutation_length Hperm) as Hlen.
  unfold range in *. rewrite length_seq in *. rewrite Hlen, Nat.eqb_refl. simpl.
  rewrite <- Hlen at 1. rewrite (traverse_pairs m n 0); [done|done|lia|].
  apply Forall_forall. intros j Hj. rewrite Hperm in Hj. apply elem_of_seq in Hj. lia.
Qed.

Section scipy.
Context `{solver : Scipy}.
Hypothesis Hopt : lsa_optimal solver.

Lemma linear_sum_scipy_spec self matrix n :
  wf2 matrix n n →
  ∃ perm, _linear_sum_scipy self matrix =
            Ok (perm, keep_of (threshold self) (data matrix) perm) ∧
          perm ≡ₚ range n ∧
          ∀ p, p ≡ₚ range n →
            (matched_weight (data matrix) p <= matched_weight (data matrix) perm)%Q.
Proof using Hopt.
  intros Hwf.
  destruct (Hopt (np_negative matrix) n) as (perm & Hlsa & Hperm & Hbest);
    [by apply wf2_np_negative|].
  exists perm. split; [|split; [done|]].
  - unfold _linear_sum_scipy, linear_sum_assignment. rewrite Hlsa.
    destruct Hwf as (Hs & ?). rewrite Hs.
    rewrite bool_decide_eq_true_2 by done. simpl.
    rewrite (getitem_pairs_range matrix n) by (done || by split). simpl.
    unfold keep_of. do 2 f_equal.
    change (map ?f ?l) with (f <$> l). by rewrite fmap_imap.
  - intros p Hp. specialize (Hbest p Hp). simpl in Hbest.
    rewrite !matched_weight_negative in Hbest.
    apply Qopp_le_compat in Hbest. by rewrite !Qopp_involutive in Hbest.
Qed.
End scipy.

Lemma linear_sum_scipy_perm {solver : Scipy} self self' matrix r r' :
  _linear_sum_scipy self matrix = Ok r →
  _linear_sum_scipy self' matrix = Ok r' → r.1 = r'.1.
Proof.
  unfold _linear_sum_scipy.
  destruct (linear_sum_assignment (np_negative matrix)) as [orig perm].
  destruct (shape matrix) as [|n ?]; [done|].
  destruct (negb (bool_decide (orig = range n))); [done|].
  intros H1 H2. inv_bind H1. inv_bind H2.
  by injection H1 as <-; injection H2 as <-.
Qed.

(** ** The exhaustive solver meets the contract *)

Lemma least_cost_le m best p :
  (matched_weight m (least_cost m best p) <= matched_weight m best)%Q ∧
  (matched_weight m (least_cost m best p) <= matched_weight m p)%Q ∧
  (least_cost m best p = best ∨ least_cost m best p = p).
Proof.
  unfold least_cost.
  destruct (Qgtb (matched_weight m best) (matched_weight m p)) eqn:E.
  - apply Qgtb_true in E. split; [by apply Qlt_le_weak|]. split; [apply Qle_refl|by right].
  - apply Qgtb_false in E. split; [apply Qle_refl|]. split; [done|by left].
Qed.

Lemma foldl_least_cost m l best :
  let r := foldl (least_cost m) best l in
  (r = best ∨ r ∈ l) ∧
  (matched_weight m r <= matched_weight m best)%Q ∧
  ∀ p, p ∈ l → (matched_weight m r <= matched_weight m p)%Q.
Proof.
  revert best. induction l as [|x l IH]; intros best; simpl.
  - split; [by left|]. split; [apply Qle_refl|]. intros p Hp. by apply elem_of_nil in Hp.
  - destruct (IH (least_cost m best x)) as (Hin & Hle & Hall).
    destruct (least_cost_le m best x) as (Hb & Hx & Hor).
    split; [|split].
    + destruct Hin as [-> | Hin]; [|right; by right].
      destruct Hor as [-> | ->]; [by left | right; by left].
    + by eapply Qle_trans.
    + intros p [-> | Hp]%elem_of_cons; [by eapply Qle_trans | by apply Hall].
Qed.

Lemma exhaustive_lsa_optimal : lsa_optimal exhaustive_lsa.
Proof.
  intros c n (Hs & _). unfold exhaustive_lsa. rewrite Hs.
  destruct (foldl_least_cost (data c) (permutations (range n)) (range n))
    as (Hin & _ & Hall).
  eexists. split; [done|]. split.
  - destruct Hin as [-> | Hin]; [done|].
    apply permutations_Permutation in Hin. by symmetry.
  - intros p Hp. apply Hall. apply permutations_Permutation. by symmetry.
Qed.

(** ** The first loop of [_calc_disentangle_matrix] *)

Lemma take_rows_spec {A} (a : array3 A) n r c i idx :
  wf3 a n r c → i < n → Forall (λ j, j < r) idx →
  ∃ m sl, take_rows a i idx = Ok m ∧ wf2 m (length idx) c ∧
          data a !! i = Some sl ∧ Forall2 (λ j row, sl !! j = Some row) idx (data m).
Proof.
  intros (Hs & Hlen & Hsl) Hi Hidx.
  destruct (lookup_lt_is_Some_2 (data a) i) as [sl Hsli]; [lia|].
  destruct (Forall_lookup_1 _ _ _ _ Hsl Hsli) as (Hslen & Hrows).
  destruct (traverse_getitem sl idx) as (rows & Htr & Hall); [by rewrite Hslen|].
  exists (mk_ndarray [length idx; c] rows), sl.
  split; [|split; [|done]].
  - unfold take_rows. rewrite Hs. apply getitem_Ok in Hsli. rewrite Hsli. simpl.
    by rewrite Htr.
  - split; [done|]. simpl. split; [symmetry; by eapply Forall2_length|].
    apply Forall_forall. intros row Hrow.
    apply list_elem_of_lookup_1 in Hrow as [b Hb].
    destruct (Forall2_lookup_r _ _ _ _ _ Hall Hb) as (j & _ & Hj).
    by apply (Forall_lookup_1 _ _ _ _ Hrows Hj).
Qed.

Lemma Permutation_range_lt row n : row ≡ₚ range n → Forall (λ j, j < n) row.
Proof.
  intros Hp. apply Forall_forall. intros j Hj. rewrite Hp in Hj.
  apply elem_of_seq in Hj. lia.
Qed.

Lemma Permutation_range_length row n : row ≡ₚ range n → length row = n.
Proof. intros Hp. apply Permutation_length in Hp. unfold range in Hp. by rewrite length_seq in Hp. Qed.

Lemma length_keep_of t m perm : length (keep_of t m perm) = length perm.
Proof. unfold keep_of. apply length_imap. Qed.

Lemma row_resolved_insert self func n_b ind keep k i row krow :
  k < i → row_resolved self func n_b ind keep k →
  row_resolved self func n_b (<[i := row]> ind) (<[i := krow]> keep) k.
Proof.
  intros Hk (r & kr & Hr & Hkr & Hperm & Hlen & Hstep).
  exists r, kr. rewrite !list_lookup_insert_ne by lia.
  split; [done|]. split; [done|]. split; [done|]. split; [done|].
  destruct k as [|k']; [done|].
  destruct Hstep as (prev & matrix & Hprev & ?).
  exists prev, matrix. by rewrite list_lookup_insert_ne by lia.
Qed.

Lemma index_loop_spec self func n n_b :
  wf3 (overlap_matrix self) n n_b n_b →
  matcher_ok (threshold self) func →
  ∃ ind keep,
    index_loop self func (n + 1) n_b = Ok (ind, keep) ∧
    length ind = n + 1 ∧ length keep = n + 1 ∧
    ∀ k, k ≤ n → row_resolved self func n_b ind keep k.
Proof.
  intros Hwf Hfunc.
  destruct (for_each_range
    (λ i (st : list (list nat) * list (list bool)),
       length st.1 = n + 1 ∧ length st.2 = n + 1 ∧
       ∀ k, k < i → row_resolved self func n_b st.1 st.2 k)
    (n + 1) (index_body self func n_b)
    (replicate (n + 1) (replicate n_b 0), replicate (n + 1) (replicate n_b false)))
    as ([ind keep] & Hrun & Hind & Hkeep & Hrows).
  - simpl. rewrite !length_replicate. split; [done|]. split; [done|]. intros k Hk. lia.
  - intros i [ind keep]. simpl. intros Hi (Hind & Hkeep & Hrows).
    unfold index_body. destruct i as [|i']; simpl.
    + eexists. split; [done|]. simpl. rewrite !length_insert.
      split; [done|]. split; [done|]. intros k Hk. assert (k = 0) as -> by lia.
      exists (range n_b), (replicate n_b true).
      rewrite !list_lookup_insert_eq by lia.
      split; [done|]. split; [done|]. split; [done|]. by rewrite length_replicate.
    + rewrite Nat.sub_0_r.
      destruct (Hrows i') as (prev & kprev & Hprev & _ & Hperm & _); [lia|].
      destruct (take_rows_spec (overlap_matrix self) n n_b n_b i' prev)
        as (matrix & sl & Htake & Hwfm & _); [done|lia|by apply Permutation_range_lt|].
      rewrite (Permutation_range_length _ _ Hperm) in Hwfm.
      destruct (Hfunc matrix n_b Hwfm) as (row & Hrow & Hrperm).
      apply getitem_Ok in Hprev as Hprev'. rewrite Hprev'. simpl.
      rewrite Htake. simpl. rewrite Hrow. simpl.
      eexists. split; [done|]. simpl. rewrite !length_insert.
      split; [done|]. split; [done|]. intros k Hk.
      destruct (decide (k = S i')) as [->|Hne].
      * exists row, (keep_of (threshold self) (data matrix) row).
        rewrite !list_lookup_insert_eq by lia.
        split; [done|]. split; [done|]. split; [done|].
        split; [by rewrite length_keep_of, (Permutation_range_length _ _ Hrperm)|].
        exists prev, matrix. by rewrite list_lookup_insert_ne by lia.
      * apply row_resolved_insert; [lia|]. apply Hrows. lia.
  - exists ind, keep. simpl in *. split; [done|]. split; [done|]. split; [done|].
    intros k Hk. apply Hrows. lia.
Qed.

Lemma select_routine_Ok `{solver : Scipy} self :
  lsa_optimal solver → (_routine self = 0 ∨ _routine self = 1)%Z →
  ∃ func, select_routine self = Ok func ∧ matcher_ok (threshold self) func.
Proof.
  intros Hopt Hr. unfold select_routine. destruct Hr as [-> | ->]; simpl.
  - eexists. split; [done|]. intros m n Hwf. apply linear_sum_approx_spec, Hwf.
  - eexists. split; [done|]. intros m n Hwf.
    destruct (linear_sum_scipy_spec Hopt self m n Hwf) as (perm & ? & ? & _). eauto.
Qed.

Lemma index_and_keep_spec `{solver : Scipy} self n n_b :
  lsa_optimal solver → (_routine self = 0 ∨ _routine self = 1)%Z →
  wf3 (overlap_matrix self) n n_b n_b →
  ∃ func ind keep,
    select_routine self = Ok func ∧
    index_loop self func (n + 1) n_b = Ok (ind, keep) ∧
    index_and_keep self = Ok (ind, keep) ∧
    length ind = n + 1 ∧ length keep = n + 1 ∧
    ∀ k, k ≤ n → row_resolved self func n_b ind keep k.
Proof.
  intros Hopt Hr Hwf.
  destruct (select_routine_Ok self Hopt Hr) as (func & Hsel & Hfunc).
  destruct (index_loop_spec self func n n_b Hwf Hfunc) as (ind & keep & Hloop & ?).
  exists func, ind, keep. split; [done|]. split; [done|]. split; [|done].
  unfold index_and_keep. destruct Hwf as (-> & _).
  rewrite Nat.eqb_refl. simpl. rewrite Hsel. by simpl.
Qed.

(** ** The second loop: working indices *)

Lemma NoDup_insert_fresh (l : list nat) i v : NoDup l → v ∉ l → NoDup (<[i := v]> l).
Proof.
  intros Hnd Hv. destruct (decide (i < length l)) as [Hi|Hi].
  - rewrite insert_take_drop by done.
    rewrite <- (take_drop i l) in Hnd, Hv.
    destruct (lookup_lt_is_Some_2 l i Hi) as [x Hx].
    rewrite (drop_S _ _ _ Hx) in Hnd, Hv.
    apply NoDup_app in Hnd as (Hnd1 & Hdisj & Hnd2).
    apply NoDup_cons in Hnd2 as [_ Hnd2].
    apply NoDup_app. split; [done|]. split.
    + intros y Hy [-> | Hy']%elem_of_cons.
      * apply Hv, elem_of_app. by left.
      * apply (Hdisj y Hy). by right.
    + apply NoDup_cons. split; [|done].
      intros Hin. apply Hv, elem_of_app. right. by right.
  - rewrite list_insert_ge by lia. done.
Qed.

Lemma np_max_Ok l : l ≠ [] → np_max l = Ok (max_list l).
Proof. by destruct l. Qed.

Lemma working_inner_spec self keep i_k krow n_b tmp :
  keep !! i_k = Some krow → length krow = n_b →
  length tmp = n_b → NoDup tmp →
  ∃ tmp', for_each (range n_b) (working_inner_body self keep i_k) tmp = Ok tmp' ∧
          length tmp' = n_b ∧ NoDup tmp' ∧
          (Qeq_bool (threshold self) 0 = true → tmp' = tmp).
Proof.
  intros Hk Hklen Hlen Hnd.
  apply (for_each_range
    (λ (_ : nat) tmp', length tmp' = n_b ∧ NoDup tmp' ∧
       (Qeq_bool (threshold self) 0 = true → tmp' = tmp))); [done|].
  intros i_b t Hi (Htl & Htnd & Hz).
  unfold working_inner_body, getitem2.
  apply getitem_Ok in Hk. rewrite Hk. simpl.
  destruct (lookup_lt_is_Some_2 krow i_b) as [b Hb]; [lia|].
  apply getitem_Ok in Hb. rewrite Hb. simpl.
  destruct (negb b && negb (Qeq_bool (threshold self) 0)) eqn:Hc.
  - rewrite np_max_Ok by (intros ->; simpl in Htl; lia). simpl.
    eexists. split; [done|]. rewrite length_insert. split; [done|]. split.
    + apply NoDup_insert_fresh; [done|]. apply max_list_not_elem_of_gt. lia.
    + intros Hzero. rewrite Hzero in Hc. by rewrite andb_false_r in Hc.
  - eexists. by split.
Qed.

Lemma working_loop_spec self keep n_k n_b :
  length keep = n_k → Forall (λ krow, length krow = n_b) keep →
  ∃ working_indices,
    working_loop self keep n_k n_b = Ok working_indices ∧
    length working_indices = n_k ∧
    Forall (λ row, length row = n_b ∧ NoDup row ∧
                   (Qeq_bool (threshold self) 0 = true → row = range n_b)) working_indices.
Proof.
  intros Hklen Hkrows.
  destruct (for_each_range
    (λ i (st : list (list nat) * list nat),
       length st.1 = n_k ∧ length st.2 = n_b ∧ NoDup st.2 ∧
       (Qeq_bool (threshold self) 0 = true → st.2 = range n_b) ∧
       ∀ k, k < i → ∃ row, st.1 !! k = Some row ∧ length row = n_b ∧ NoDup row ∧
                           (Qeq_bool (threshold self) 0 = true → row = range n_b))
    n_k (working_body self keep n_b)
    (replicate n_k (replicate n_b 0), range n_b))
    as ([W tmp] & Hrun & HW & _ & _ & _ & Hrows).
  - simpl. rewrite length_replicate. unfold range. rewrite length_seq.
    split; [done|]. split; [done|]. split; [apply NoDup_seq|]. split; [done|].
    intros k Hk. lia.
  - intros i [W tmp]. simpl. intros Hi (HW & Htl & Htnd & Hz & Hrows).
    destruct (lookup_lt_is_Some_2 keep i) as [krow Hkrow]; [lia|].
    destruct (working_inner_spec self keep i krow n_b tmp)
      as (tmp' & Hinner & Htl' & Htnd' & Hz'); [done| |done|done|].
    { by apply (Forall_lookup_1 _ _ _ _ Hkrows Hkrow). }
    unfold working_body. rewrite Hinner. simpl.
    eexists. split; [done|]. simpl. rewrite length_insert.
    assert (Hz'' : Qeq_bool (threshold self) 0 = true → tmp' = range n_b).
    { intros Hzero. rewrite Hz' by done. auto. }
    split; [done|]. split; [done|]. split; [done|]. split; [done|].
    intros k Hk. destruct (decide (k = i)) as [->|Hne].
    + exists tmp'. by rewrite list_lookup_insert_eq by lia.
    + rewrite list_lookup_insert_ne by lia. apply Hrows. lia.
  - exists W. simpl in *. unfold working_loop. rewrite Hrun. simpl.
    split; [done|]. split; [done|].
    apply Forall_lookup_2. intros k row Hrow.
    destruct (Hrows k) as (row' & Hrow' & ?); [apply lookup_lt_Some in Hrow; lia|].
    by assert (row' = row) as -> by congruence.
Qed.

Lemma max_list_concat_range (W : list (list nat)) n_b :
  W ≠ [] → 0 < n_b → Forall (λ row, row = range n_b) W →
  concat W ≠ [] ∧ max_list (concat W) + 1 = n_b.
Proof.
  intros HW Hb Hrows.
  destruct W as [|row W]; [done|]. clear HW.
  assert (Hne : concat (row :: W) ≠ []).
  { inversion Hrows; subst. simpl. unfold range.
    destruct n_b; [lia|]. done. }
  split; [done|].
  pose proof (max_list_elem_of _ Hne) as Hin.
  apply list_elem_of_In, in_concat in Hin as (r & Hr & Hin).
  apply list_elem_of_In in Hr, Hin.
  rewrite (proj1 (Forall_forall _ _) Hrows r Hr) in Hin.
  apply elem_of_seq in Hin.
  assert (n_b - 1 ≤ max_list (concat (row :: W))); [|lia].
  apply max_list_elem_of_le. apply list_elem_of_In, in_concat.
  exists row. split; [by left|].
  inversion Hrows; subst. apply list_elem_of_In, elem_of_seq. lia.
Qed.

Lemma check_no_growth_spec self working_indices n_b :
  working_indices ≠ [] →
  Forall (λ row, length row = n_b ∧
                 (Qeq_bool (threshold self) 0 = true → row = range n_b)) working_indices →
  (0 < n_b ∨ Qeq_bool (threshold self) 0 = false) →
  check_no_growth self working_indices n_b = Ok ().
Proof.
  intros HW Hrows Hor. unfold check_no_growth.
  destruct (Qeq_bool (threshold self) 0) eqn:Hz; [|done].
  destruct Hor as [Hb|]; [|done].
  assert (Hid : Forall (λ row, row = range n_b) working_indices).
  { eapply Forall_impl; [done|]. intros row [_ H]. by apply H. }
  destruct (max_list_concat_range _ _ HW Hb Hid) as [Hne Hmax].
  rewrite np_max_Ok by done. simpl. by rewrite Hmax, Nat.eqb_refl.
Qed.

(** [_calc_disentangle_matrix] is the two loops and the closing assertion. *)
Lemma calc_disentangle_matrix_spec `{solver : Scipy} self n n_b :
  lsa_optimal solver → (_routine self = 0 ∨ _routine self = 1)%Z →
  wf3 (overlap_matrix self) n n_b n_b →
  ∃ func ind keep working_indices,
    select_routine self = Ok func ∧
    index_and_keep self = Ok (ind, keep) ∧
    working_loop self keep (n + 1) n_b = Ok working_indices ∧
    length ind = n + 1 ∧ length keep = n + 1 ∧ length working_indices = n + 1 ∧
    (∀ k, k ≤ n → row_resolved self func n_b ind keep k) ∧
    Forall (λ row, length row = n_b ∧ NoDup row ∧
                   (Qeq_bool (threshold self) 0 = true → row = range n_b)) working_indices ∧
    _calc_disentangle_matrix self =
      (let* _ := check_no_growth self working_indices n_b in
       Ok (mk_ndarray [n + 1; n_b] ind, mk_ndarray [n + 1; n_b] working_indices)) ∧
    ((0 < n_b ∨ Qeq_bool (threshold self) 0 = false) →
     check_no_growth self working_indices n_b = Ok ()).
Proof.
  intros Hopt Hr Hwf.
  destruct (index_and_keep_spec self n n_b Hopt Hr Hwf)
    as (func & ind & keep & Hsel & Hloop & Hik & Hind & Hkeep & Hrows).
  destruct (working_loop_spec self keep (n + 1) n_b) as (W & HW & HWlen & HWrows); [done| |].
  { apply Forall_lookup_2. intros k krow Hk.
    destruct (Hrows k) as (? & krow' & _ & Hk' & _ & Hlen & _).
    - apply lookup_lt_Some in Hk. lia.
    - congruence. }
  exists func, ind, keep, W.
  do 8 (split; [done|]). split.
  - unfold _calc_disentangle_matrix. destruct Hwf as (-> & _).
    rewrite Nat.eqb_refl. simpl. rewrite Hsel. simpl. rewrite Hloop. simpl.
    by rewrite HW.
  - intros Hor. apply check_no_growth_spec; [|by eapply Forall_impl; [done|]; tauto|done].
    intros ->. simpl in HWlen. lia.
Qed.

Ltac solve_wf := repeat first [split | constructor | reflexivity].

(** * The statements of the specification *)

(** Row [b] of [a[i, idx, :]] is row [idx[b]] of slice [i]. *)
Lemma take_rows_lookup {A} (a : array3 A) n r c i idx m :
  wf3 a n r c → i < n → Forall (λ j, j < r) idx → take_rows a i idx = Ok m →
  ∀ b col, lookup2 (data m) b col = (idx !! b) ≫= (λ j, lookup3 (data a) i j col).
Proof.
  intros Hwf Hi Hidx Htake b col.
  destruct (take_rows_spec a n r c i idx Hwf Hi Hidx) as (m' & sl & Htake' & _ & Hsl & Hall).
  assert (m' = m) as -> by congruence.
  unfold lookup3, lookup2. rewrite Hsl. simpl.
  destruct (idx !! b) as [j|] eqn:Hj; simpl.
  - destruct (Forall2_lookup_l _ _ _ _ _ Hall Hj) as (row & Hrow & Hslj).
    by rewrite Hrow, Hslj.
  - rewrite lookup_ge_None_2; [done|].
    apply Forall2_length in Hall. apply lookup_ge_None_1 in Hj. lia.
Qed.

(** C1. For a 3-axis overlap tensor with square slices (K = n + 1 k-points)
    and every k in 1..K-1, the first loop sets (IndexMap[k], KeepMask[k]) to
    what the selected routine (the greedy one for routine 0, the optimal one
    for routine 1) returns on the B x B matrix whose row b is row
    IndexMap[k-1][b] of overlap[k-1]: the slice is reordered by the row
    resolved at the previous step.  The index map is the one
    [_calc_disentangle_matrix] returns. *)
Theorem index_map_follows_previous_row `{solver : Scipy} (self : Disentangle) (n n_b : nat) :
  lsa_optimal solver → (_routine self = 0 ∨ _routine self = 1)%Z →
  wf3 (overlap_matrix self) n n_b n_b →
  ∃ func ind keep,
    select_routine self = Ok func ∧
    (_routine self = 0%Z → func = _linear_sum_approx self) ∧
    (_routine self = 1%Z → func = _linear_sum_scipy self) ∧
    index_and_keep self = Ok (ind, keep) ∧
    length ind = n + 1 ∧ length keep = n + 1 ∧
    (∀ r, _calc_disentangle_matrix self = Ok r → data r.1 = ind) ∧
    ∀ k, 1 ≤ k → k ≤ n →
      ∃ prev matrix row krow,
        ind !! (k - 1) = Some prev ∧
        wf2 matrix n_b n_b ∧
        (∀ b c, lookup2 (data matrix) b c =
                (prev !! b) ≫= (λ j, lookup3 (data (overlap_matrix self)) (k - 1) j c)) ∧
        func matrix = Ok (row, krow) ∧
        ind !! k = Some row ∧ keep !! k = Some krow.
Proof.
  intros Hopt Hr Hwf.
  destruct (calc_disentangle_matrix_spec self n n_b Hopt Hr Hwf)
    as (func & ind & keep & W & Hsel & Hik & _ & Hind & Hkeep & _ & Hrows & _ & Hcalc & _).
  exists func, ind, keep. split; [done|]. split; [|split].
  { intros H0. unfold select_routine in Hsel. rewrite H0 in Hsel. by injection Hsel as <-. }
  { intros H1. unfold select_routine in Hsel. rewrite H1 in Hsel. by injection Hsel as <-. }
  do 3 (split; [done|]). split.
  - intros r Hret. rewrite Hcalc in Hret. inv_bind Hret. by injection Hret as <-.
  - intros k Hk1 Hkn. destruct k as [|k']; [lia|].
    destruct (Hrows (S k') Hkn)
      as (row & krow & Hrow & Hkrow & _ & _ & prev & matrix & Hprev & Htake & Hwfm & Hf & _).
    destruct (Hrows k') as (prev' & _ & Hprev' & _ & Hperm & _); [lia|].
    assert (prev' = prev) as -> by congruence.
    exists prev, matrix, row, krow. rewrite Nat.sub_succ, Nat.sub_0_r.
    split; [done|]. split; [done|]. split; [|done].
    apply (take_rows_lookup _ n n_b n_b); [done|lia| |done].
    by apply Permutation_range_lt.
Qed.

Lemma index_map_follows_previous_row_witness :
  ∃ func ind keep,
    select_routine (solver := exhaustive_lsa) (crossing 1) = Ok func ∧
    (_routine (crossing 1) = 0%Z → func = _linear_sum_approx (crossing 1)) ∧
    (_routine (crossing 1) = 1%Z →
     func = _linear_sum_scipy (solver := exhaustive_lsa) (crossing 1)) ∧
    index_and_keep (solver := exhaustive_lsa) (crossing 1) = Ok (ind, keep) ∧
    length ind = 2 + 1 ∧ length keep = 2 + 1 ∧
    (∀ r, _calc_disentangle_matrix (solver := exhaustive_lsa) (crossing 1) = Ok r →
          data r.1 = ind) ∧
    ∀ k, 1 ≤ k → k ≤ 2 →
      ∃ prev matrix row krow,
        ind !! (k - 1) = Some prev ∧
        wf2 matrix 2 2 ∧
        (∀ b c, lookup2 (data matrix) b c =
                (prev !! b) ≫= (λ j, lookup3 (data (overlap_matrix (crossing 1))) (k - 1) j c)) ∧
        func matrix = Ok (row, krow) ∧
        ind !! k = Some row ∧ keep !! k = Some krow.
Proof.
  apply (index_map_follows_previous_row (solver := exhaustive_lsa) (crossing 1) 2 2).
  - apply exhaustive_lsa_optimal.
  - right. reflexivity.
  - solve_wf.
Defined.

(** C3. For an overlap tensor of shape (K-1, B, B) and either routine, every
    row IndexMap[k], 0 <= k <= K-1, is a permutation of 0..B-1: it has B
    entries, none repeated, and every band index occurs. *)
Theorem index_map_rows_are_permutations `{solver : Scipy} (self : Disentangle) (n n_b : nat) :
  lsa_optimal solver → (_routine self = 0 ∨ _routine self = 1)%Z →
  wf3 (overlap_matrix self) n n_b n_b →
  ∃ ind keep,
    index_and_keep self = Ok (ind, keep) ∧
    length ind = n + 1 ∧
    (∀ r, _calc_disentangle_matrix self = Ok r → data r.1 = ind) ∧
    ∀ k, k ≤ n →
      ∃ row, ind !! k = Some row ∧ row ≡ₚ range n_b ∧
             length row = n_b ∧ NoDup row ∧ ∀ b, b ∈ row ↔ b < n_b.
Proof.
  intros Hopt Hr Hwf.
  destruct (calc_disentangle_matrix_spec self n n_b Hopt Hr Hwf)
    as (func & ind & keep & W & _ & Hik & _ & Hind & _ & _ & Hrows & _ & Hcalc & _).
  exists ind, keep. do 2 (split; [done|]). split.
  - intros r Hret. rewrite Hcalc in Hret. inv_bind Hret. by injection Hret as <-.
  - intros k Hk. destruct (Hrows k Hk) as (row & _ & Hrow & _ & Hperm & _).
    exists row. split; [done|]. split; [done|].
    split; [by apply Permutation_range_length|]. split.
    + rewrite Hperm. apply NoDup_seq.
    + intros b. rewrite Hperm. unfold range. rewrite elem_of_seq. lia.
Qed.

Lemma index_map_rows_are_permutations_witness :
  ∃ ind keep,
    index_and_keep (solver := exhaustive_lsa) (scenario (1 # 2) 0) = Ok (ind, keep) ∧
    length ind = 2 + 1 ∧
    (∀ r, _calc_disentangle_matrix (solver := exhaustive_lsa) (scenario (1 # 2) 0) = Ok r → data r.1 = ind) ∧
    ∀ k, k ≤ 2 →
      ∃ row, ind !! k = Some row ∧ row ≡ₚ range 2 ∧
             length row = 2 ∧ NoDup row ∧ ∀ b, b ∈ row ↔ b < 2.
Proof.
  apply (index_map_rows_are_permutations (solver := exhaustive_lsa) (scenario (1 # 2) 0) 2 2).
  - apply exhaustive_lsa_optimal.
  - left. reflexivity.
  - solve_wf.
Defined.

(** C5, as the code has it.  With at least one band and the threshold exactly
    0, [_calc_disentangle_matrix] returns, every row of the working-index map
    is the identity 0..B-1, its maximum plus one is B, and the closing
    assertion passes. *)
Theorem zero_threshold_no_growth `{solver : Scipy} (self : Disentangle) (n n_b : nat) :
  lsa_optimal solver → (_routine self = 0 ∨ _routine self = 1)%Z →
  wf3 (overlap_matrix self) n n_b n_b →
  0 < n_b → (threshold self == 0)%Q →
  ∃ ind working_indices m,
    _calc_disentangle_matrix self = Ok (ind, working_indices) ∧
    shape working_indices = [n + 1; n_b] ∧
    length (data working_indices) = n + 1 ∧
    (∀ k, k ≤ n → data working_indices !! k = Some (range n_b)) ∧
    np_max (concat (data working_indices)) = Ok m ∧ m + 1 = n_b ∧
    check_no_growth self (data working_indices) n_b = Ok ().
Proof.
  intros Hopt Hr Hwf Hb Hz. apply Qeq_bool_iff in Hz.
  destruct (calc_disentangle_matrix_spec self n n_b Hopt Hr Hwf)
    as (func & ind & keep & W & _ & _ & _ & _ & _ & HW & _ & HWrows & Hcalc & Hcheck).
  assert (Hid : Forall (λ row, row = range n_b) W).
  { eapply Forall_impl; [done|]. intros row (_ & _ & H). by apply H. }
  destruct (max_list_concat_range W n_b) as [Hne Hmax]; [|done|done|].
  { intros ->. simpl in HW. lia. }
  exists (mk_ndarray [n + 1; n_b] ind), (mk_ndarray [n + 1; n_b] W), (max_list (concat W)).
  rewrite Hcalc, Hcheck by auto. simpl.
  do 3 (split; [done|]). split.
  - intros k Hk. destruct (lookup_lt_is_Some_2 W k) as [row Hrow]; [lia|].
    by rewrite Hrow, (Forall_lookup_1 _ _ _ _ Hid Hrow).
  - split; [by apply np_max_Ok|]. split; [done|]. auto.
Qed.

Lemma zero_threshold_no_growth_witness :
  ∃ ind working_indices m,
    _calc_disentangle_matrix (solver := exhaustive_lsa) (scenario 0 1) =
      Ok (ind, working_indices) ∧
    shape working_indices = [2 + 1; 2] ∧
    length (data working_indices) = 2 + 1 ∧
    (∀ k, k ≤ 2 → data working_indices !! k = Some (range 2)) ∧
    np_max (concat (data working_indices)) = Ok m ∧ m + 1 = 2 ∧
    check_no_growth (scenario 0 1) (data working_indices) 2 = Ok ().
Proof.
  apply (zero_threshold_no_growth (solver := exhaustive_lsa) (scenario 0 1) 2 2).
  - apply exhaustive_lsa_optimal.
  - right. reflexivity.
  - solve_wf.
  - lia.
  - reflexivity.
Defined.

(** C5 as stated fails on a tensor without bands: the working-index map is
    empty, [np.max] has nothing to reduce, and the call raises instead of
    returning a map. *)
Lemma zero_threshold_no_bands_raises :
  wf3 (overlap_matrix (no_bands 0 1)) 1 0 0 ∧
  _calc_disentangle_matrix (solver := exhaustive_lsa) (no_bands 0 1) = Raise ValueError ∧
  _calc_disentangle_matrix (solver := exhaustive_lsa) (no_bands 0 0) = Raise ValueError.
Proof. split; [solve_wf|]. split; reflexivity. Qed.

(** The slot a retired track receives is above every slot in use. *)
Lemma retired_slot_is_fresh self keep i_k i_b tmp tmp' :
  working_inner_body self keep i_k i_b tmp = Ok tmp' →
  tmp' = tmp ∨ ∃ m, tmp' = <[i_b := m]> tmp ∧ ∀ s, s ∈ tmp → s < m.
Proof.
  unfold working_inner_body. intros H. inv_bind H.
  destruct (negb a && negb (Qeq_bool (threshold self) 0)).
  - inv_bind H. injection H as <-. right. exists (a0 + 1). split; [done|].
    intros s Hs. destruct tmp as [|x tmp]; [by apply elem_of_nil in Hs|].
    pose proof (max_list_elem_of_le _ _ Hs) as Hle.
    injection Hb0 as <-. simpl in Hle. lia.
  - injection H as <-. by left.
Qed.

Lemma scatter_spec {T} (row : list T) slots vals :
  length slots = length vals → Forall (λ s, s < length row) slots → NoDup slots →
  ∃ out, scatter row slots vals = Ok out ∧ length out = length row ∧
         (∀ b s v, slots !! b = Some s → vals !! b = Some v → out !! s = Some v) ∧
         (∀ s, s ∉ slots → out !! s = row !! s).
Proof.
  revert row vals. induction slots as [|s slots IH]; intros row vals Hlen Hlt Hnd.
  - destruct vals; [|done]. exists row. simpl. split; [done|]. split; [done|].
    split; [|done]. intros b s v Hs. by rewrite lookup_nil in Hs.
  - destruct vals as [|v vals]; [done|]. simpl in Hlen.
    inversion Hlt as [|? ? Hs Hlt']; subst.
    apply NoDup_cons in Hnd as [Hnotin Hnd].
    destruct (IH (<[s := v]> row) vals) as (out & Hrun & Hol & Hw & Hother);
      [lia|by rewrite length_insert|done|].
    exists out. simpl. apply Nat.ltb_lt in Hs as Hs'. rewrite Hs', Hrun.
    rewrite length_insert in Hol. split; [done|]. split; [done|]. split.
    + intros [|b] s' v' Hs1 Hv1; simpl in *.
      * injection Hs1 as <-. injection Hv1 as <-.
        rewrite Hother by done. by apply list_lookup_insert_eq.
      * eauto.
    + intros s' Hs1. apply not_elem_of_cons in Hs1 as [Hne Hs1].
      rewrite Hother by done. by apply list_lookup_insert_ne.
Qed.

(** C10. For every overlap tensor, either routine and every threshold, each
    row WorkingIndexMap[k] has pairwise distinct entries (a retired track is
    given a slot above every slot in use), so the scatter-write of the apply
    operation writes no output slot twice within a k-row: every value written
    can be read back.  The map is the one [_calc_disentangle_matrix] returns,
    and it does return when there is a band or the threshold is not 0. *)
Theorem working_rows_are_distinct `{solver : Scipy} (self : Disentangle) (n n_b : nat) :
  lsa_optimal solver → (_routine self = 0 ∨ _routine self = 1)%Z →
  wf3 (overlap_matrix self) n n_b n_b →
  ∃ ind keep working_indices,
    index_and_keep self = Ok (ind, keep) ∧
    working_loop self keep (n + 1) n_b = Ok working_indices ∧
    length working_indices = n + 1 ∧
    (∀ r, _calc_disentangle_matrix self = Ok r → data r.2 = working_indices) ∧
    ((0 < n_b ∨ Qeq_bool (threshold self) 0 = false) →
     ∃ r, _calc_disentangle_matrix self = Ok r) ∧
    (∀ i_k i_b tmp tmp', working_inner_body self keep i_k i_b tmp = Ok tmp' →
       tmp' = tmp ∨ ∃ m, tmp' = <[i_b := m]> tmp ∧ ∀ s, s ∈ tmp → s < m) ∧
    ∀ k row, working_indices !! k = Some row →
      length row = n_b ∧ NoDup row ∧
      ∀ (T : Type) (out_row vals : list T),
        length vals = n_b → Forall (λ s, s < length out_row) row →
        ∃ out, scatter out_row row vals = Ok out ∧
               ∀ b s v, row !! b = Some s → vals !! b = Some v → out !! s = Some v.
Proof.
  intros Hopt Hr Hwf.
  destruct (calc_disentangle_matrix_spec self n n_b Hopt Hr Hwf)
    as (func & ind & keep & W & _ & Hik & HWl & _ & _ & HW & _ & HWrows & Hcalc & Hcheck).
  exists ind, keep, W. do 3 (split; [done|]). split; [|split; [|split]].
  - intros r Hret. rewrite Hcalc in Hret. inv_bind Hret. by injection Hret as <-.
  - intros Hor. rewrite Hcalc, Hcheck by done. simpl. eauto.
  - apply retired_slot_is_fresh.
  - intros k row Hrow.
    destruct (Forall_lookup_1 _ _ _ _ HWrows Hrow) as (Hlen & Hnd & _).
    split; [done|]. split; [done|]. intros T out_row vals Hvals Hlt.
    destruct (scatter_spec out_row row vals) as (out & Hrun & _ & Hread & _);
      [lia|done|done|].
    eauto.
Qed.

Lemma working_rows_are_distinct_witness :
  ∃ ind keep working_indices,
    index_and_keep (solver := exhaustive_lsa) (scenario (1 # 2) 1) = Ok (ind, keep) ∧
    working_loop (scenario (1 # 2) 1) keep (2 + 1) 2 = Ok working_indices ∧
    length working_indices = 2 + 1 ∧
    (∀ r, _calc_disentangle_matrix (solver := exhaustive_lsa) (scenario (1 # 2) 1) = Ok r →
          data r.2 = working_indices) ∧
    ((0 < 2 ∨ Qeq_bool (threshold (scenario (1 # 2) 1)) 0 = false) →
     ∃ r, _calc_disentangle_matrix (solver := exhaustive_lsa) (scenario (1 # 2) 1) = Ok r) ∧
    (∀ i_k i_b tmp tmp',
       working_inner_body (scenario (1 # 2) 1) keep i_k i_b tmp = Ok tmp' →
       tmp' = tmp ∨ ∃ m, tmp' = <[i_b := m]> tmp ∧ ∀ s, s ∈ tmp → s < m) ∧
    ∀ k row, working_indices !! k = Some row →
      length row = 2 ∧ NoDup row ∧
      ∀ (T : Type) (out_row vals : list T),
        length vals = 2 → Forall (λ s, s < length out_row) row →
        ∃ out, scatter out_row row vals = Ok out ∧
               ∀ b s v, row !! b = Some s → vals !! b = Some v → out !! s = Some v.
Proof.
  apply (working_rows_are_distinct (solver := exhaustive_lsa) (scenario (1 # 2) 1) 2 2).
  - apply exhaustive_lsa_optimal.
  - right. reflexivity.
  - solve_wf.
Defined.

(** ** The index map does not depend on the threshold *)

Lemma select_routine_perm `{solver : Scipy} self self' func func' m r r' :
  _routine self = _routine self' →
  select_routine self = Ok func → select_routine self' = Ok func' →
  func m = Ok r → func' m = Ok r' → r.1 = r'.1.
Proof.
  unfold select_routine. intros <-.
  destruct (_routine self =? 0)%Z.
  { intros [= <-] [= <-]. apply linear_sum_approx_perm. }
  destruct (_routine self =? 1)%Z; [|done].
  intros [= <-] [= <-]. apply linear_sum_scipy_perm.
Qed.

Lemma index_loop_same_ind self self' func func' n_k n_b r r' :
  overlap_matrix self = overlap_matrix self' →
  (∀ m x x', func m = Ok x → func' m = Ok x' → x.1 = x'.1) →
  index_loop self func n_k n_b = Ok r →
  index_loop self' func' n_k n_b = Ok r' → r.1 = r'.1.
Proof.
  intros Hov Hf. unfold index_loop.
  apply (for_each_rel (λ s s', s.1 = s'.1)); [done|].
  intros i [ind keep] [ind' keep'] s1 s1'. simpl. intros <-.
  unfold index_body. destruct (i =? 0).
  - by intros [= <-] [= <-].
  - rewrite <- Hov. intros H H'. inv_bind H. inv_bind H'.
    injection H as <-. injection H' as <-. simpl.
    assert (a2 = a) as -> by congruence.
    assert (a3 = a0) as -> by congruence.
    by rewrite (Hf a0 a1 a4).
Qed.

Lemma index_and_keep_same_ind `{solver : Scipy} self self' r r' :
  overlap_matrix self = overlap_matrix self' → _routine self = _routine self' →
  index_and_keep self = Ok r → index_and_keep self' = Ok r' → r.1 = r'.1.
Proof.
  intros Hov Hr. unfold index_and_keep. rewrite <- Hov.
  destruct (shape (overlap_matrix self)) as [|n_k [|n_b [|n_b_2 [|]]]]; try done.
  destruct (negb (n_b =? n_b_2)); [done|].
  intros H H'. inv_bind H. inv_bind H'.
  eapply index_loop_same_ind; [done| |done|done].
  intros m x x'. by eapply select_routine_perm.
Qed.

(** The entries of [KeepMask] are the comparisons of the matched overlaps
    with the threshold. *)
Lemma keep_of_lookup t m perm b :
  keep_of t m perm !! b = (λ j, Qgtb (entry m b j) t) <$> perm !! b.
Proof. unfold keep_of. apply list_lookup_imap. Qed.

Lemma row_resolved_same_matrix self self' func func' n_b ind keep keep' k :
  overlap_matrix self = overlap_matrix self' →
  row_resolved self func n_b ind keep (S k) →
  row_resolved self' func' n_b ind keep' (S k) →
  ∃ row matrix,
    ind !! S k = Some row ∧
    keep !! S k = Some (keep_of (threshold self) (data matrix) row) ∧
    keep' !! S k = Some (keep_of (threshold self') (data matrix) row).
Proof.
  intros Hov (row & krow & Hrow & Hkrow & _ & _ & prev & m & Hprev & Htake & _ & _ & ->).
  intros (row' & krow' & Hrow' & Hkrow' & _ & _ & prev' & m' & Hprev' & Htake' & _ & _ & ->).
  rewrite <- Hov in Htake'.
  assert (row' = row) as -> by congruence.
  assert (prev' = prev) as -> by congruence.
  assert (m' = m) as -> by congruence.
  by exists row, m.
Qed.

(** C6. For a fixed overlap tensor and a fixed routine, raising the threshold
    from t1 to t2 >= t1 leaves the index map as it is, and every (k, band)
    entry that is keep=False under t1 is keep=False under t2. *)
Theorem keep_mask_antitone `{solver : Scipy} (self : Disentangle) (n n_b : nat) (t1 t2 : Q) :
  lsa_optimal solver → (_routine self = 0 ∨ _routine self = 1)%Z →
  wf3 (overlap_matrix self) n n_b n_b →
  (t1 <= t2)%Q →
  ∃ ind keep1 keep2,
    index_and_keep (set_threshold self t1) = Ok (ind, keep1) ∧
    index_and_keep (set_threshold self t2) = Ok (ind, keep2) ∧
    length keep1 = n + 1 ∧ length keep2 = n + 1 ∧
    ∀ k b, lookup2 keep1 k b = Some false → lookup2 keep2 k b = Some false.
Proof.
  intros Hopt Hr Hwf Hle.
  destruct (index_and_keep_spec (set_threshold self t1) n n_b Hopt Hr Hwf)
    as (f1 & ind & keep1 & _ & _ & Hik1 & Hind & Hk1 & Hrows1).
  destruct (index_and_keep_spec (set_threshold self t2) n n_b Hopt Hr Hwf)
    as (f2 & ind2 & keep2 & _ & _ & Hik2 & _ & Hk2 & Hrows2).
  assert (ind2 = ind) as ->.
  { symmetry.
    by apply (index_and_keep_same_ind (set_threshold self t1) (set_threshold self t2)
                _ _ eq_refl eq_refl Hik1 Hik2). }
  exists ind, keep1, keep2. do 4 (split; [done|]).
  intros k b Hf. unfold lookup2 in *.
  destruct (keep1 !! k) as [krow|] eqn:Hkrow; [|done]. simpl in Hf.
  assert (Hk : k ≤ n) by (apply lookup_lt_Some in Hkrow; lia).
  destruct k as [|k].
  - destruct (Hrows1 0 Hk) as (? & krow' & _ & Hkrow' & _ & _ & _ & ->).
    assert (krow = replicate n_b true) as -> by congruence.
    by apply lookup_replicate in Hf as [? _].
  - destruct (row_resolved_same_matrix (set_threshold self t1) (set_threshold self t2)
                _ _ _ _ _ _ _ eq_refl (Hrows1 _ Hk) (Hrows2 _ Hk))
      as (row & m & Hrow & Hkeep1 & Hkeep2).
    rewrite Hkeep2. simpl in *.
    assert (krow = keep_of t1 (data m) row) as -> by congruence.
    rewrite keep_of_lookup in *.
    destruct (row !! b) as [j|]; [|done]. simpl in *.
    injection Hf as Hf. f_equal.
    apply Qgtb_false in Hf. apply Qgtb_false. by eapply Qle_trans.
Qed.

Lemma keep_mask_antitone_witness :
  ∃ ind keep1 keep2,
    index_and_keep (solver := exhaustive_lsa)
      (set_threshold (scenario 0 1) (1 # 10)) = Ok (ind, keep1) ∧
    index_and_keep (solver := exhaustive_lsa)
      (set_threshold (scenario 0 1) (19 # 20)) = Ok (ind, keep2) ∧
    length keep1 = 2 + 1 ∧ length keep2 = 2 + 1 ∧
    ∀ k b, lookup2 keep1 k b = Some false → lookup2 keep2 k b = Some false.
Proof.
  apply (keep_mask_antitone (solver := exhaustive_lsa) (scenario 0 1) 2 2).
  - apply exhaustive_lsa_optimal.
  - right. reflexivity.
  - solve_wf.
  - unfold Qle. simpl. lia.
Defined.

(** ** Zero threshold *)

Lemma take_rows_entries {A} (P : A → Prop) (a : array3 A) n r c i idx m :
  wf3 a n r c → i < n → Forall (λ j, j < r) idx → all_entries P a →
  take_rows a i idx = Ok m → Forall (Forall P) (data m).
Proof.
  intros Hwf Hi Hidx HP Htake.
  destruct (take_rows_spec a n r c i idx Hwf Hi Hidx) as (m' & sl & Htake' & _ & Hsl & Hall).
  assert (m' = m) as -> by congruence.
  pose proof (Forall_lookup_1 _ _ _ _ HP Hsl) as Hslp.
  apply Forall_lookup_2. intros b row Hrow.
  destruct (Forall2_lookup_r _ _ _ _ _ Hall Hrow) as (j & _ & Hj).
  by apply (Forall_lookup_1 _ _ _ _ Hslp Hj).
Qed.

Lemma keep_of_all_true t m n perm :
  wf2 m n n → perm ≡ₚ range n → (t == 0)%Q →
  Forall (Forall (λ x, 0 < x)%Q) (data m) →
  keep_of t (data m) perm = replicate n true.
Proof.
  intros Hwf Hperm Ht Hpos. apply list_eq. intros b.
  rewrite keep_of_lookup.
  pose proof (Permutation_range_length _ _ Hperm) as Hlen.
  destruct (decide (b < n)) as [Hb|Hb].
  - destruct (lookup_lt_is_Some_2 perm b) as [j Hj]; [lia|].
    rewrite Hj, lookup_replicate_2 by done. simpl. f_equal.
    assert (Hjn : j < n).
    { apply list_elem_of_lookup_2 in Hj. rewrite Hperm in Hj.
      apply elem_of_seq in Hj. lia. }
    destruct (wf2_entry m n n b j Hwf Hb Hjn) as (row & Hrow & Hv).
    apply Qgtb_true. rewrite Ht.
    pose proof (Forall_lookup_1 _ _ _ _ Hpos Hrow) as Hrowp.
    by apply (Forall_lookup_1 _ _ _ _ Hrowp Hv).
  - rewrite lookup_ge_None_2 by lia.
    by rewrite (proj1 (lookup_replicate_None _ _ _)) by lia.
Qed.

(** An entry of [KeepMask] after the first row compares one overlap, the one
    between the bands that the index map pairs, with the threshold. *)
Lemma keep_mask_entry self func n n_b ind keep k b :
  wf3 (overlap_matrix self) n n_b n_b →
  k < n → b < n_b →
  row_resolved self func n_b ind keep k →
  row_resolved self func n_b ind keep (S k) →
  ∃ p j x,
    lookup2 ind k b = Some p ∧ lookup2 ind (S k) b = Some j ∧
    lookup3 (data (overlap_matrix self)) k p j = Some x ∧
    lookup2 keep (S k) b = Some (Qgtb x (threshold self)).
Proof.
  intros Hwf Hk Hb (prev & _ & Hprev & _ & Hpperm & _).
  intros (row & krow & Hrow & Hkrow & Hperm & _ & prev' & m & Hprev' & Htake & Hwfm & _ & ->).
  assert (prev' = prev) as -> by congruence.
  destruct (take_rows_spec (overlap_matrix self) n n_b n_b k prev Hwf Hk)
    as (m' & sl & Htake' & _ & Hsl & Hall); [by apply Permutation_range_lt|].
  assert (m' = m) as -> by congruence.
  destruct (lookup_lt_is_Some_2 prev b) as [p Hp];
    [by rewrite (Permutation_range_length _ _ Hpperm)|].
  destruct (lookup_lt_is_Some_2 row b) as [j Hj];
    [by rewrite (Permutation_range_length _ _ Hperm)|].
  assert (Hjn : j < n_b).
  { apply list_elem_of_lookup_2 in Hj. rewrite Hperm in Hj. apply elem_of_seq in Hj. lia. }
  destruct (Forall2_lookup_l _ _ _ _ _ Hall Hp) as (r & Hr & Hslp).
  destruct (wf2_entry m n_b n_b b j Hwfm Hb Hjn) as (r' & Hr' & Hx).
  assert (r' = r) as -> by congruence.
  exists p, j, (entry (data m) b j).
  unfold lookup3, lookup2. rewrite Hprev, Hrow, Hkrow, Hsl. simpl.
  rewrite Hslp. simpl. do 3 (split; [done|]).
  by rewrite keep_of_lookup, Hj.
Qed.

(** C4, as the code has it.  [keep] is a strict comparison.  With the
    threshold exactly 0, under either routine, the first row of KeepMask is
    all True and a later entry KeepMask[k+1, b] is True exactly when the
    matched overlap, overlap[k, IndexMap[k, b], IndexMap[k+1, b]], is
    strictly positive; so for an overlap tensor whose entries are all
    strictly positive every entry of KeepMask is True. *)
Theorem zero_threshold_keeps_positive_overlaps `{solver : Scipy}
    (self : Disentangle) (n n_b : nat) :
  lsa_optimal solver → (_routine self = 0 ∨ _routine self = 1)%Z →
  wf3 (overlap_matrix self) n n_b n_b →
  (threshold self == 0)%Q →
  ∃ ind keep,
    index_and_keep self = Ok (ind, keep) ∧
    length keep = n + 1 ∧
    keep !! 0 = Some (replicate n_b true) ∧
    (∀ k b, k < n → b < n_b →
       ∃ p j x,
         lookup2 ind k b = Some p ∧ lookup2 ind (S k) b = Some j ∧
         lookup3 (data (overlap_matrix self)) k p j = Some x ∧
         ∃ v, lookup2 keep (S k) b = Some v ∧ (v = true ↔ (0 < x)%Q)) ∧
    (all_entries (λ x, 0 < x)%Q (overlap_matrix self) →
     ∀ k, k ≤ n → keep !! k = Some (replicate n_b true)).
Proof.
  intros Hopt Hr Hwf Hz.
  destruct (index_and_keep_spec self n n_b Hopt Hr Hwf)
    as (func & ind & keep & _ & _ & Hik & _ & Hkeep & Hrows).
  exists ind, keep. do 2 (split; [done|]). split; [|split].
  - destruct (Hrows 0) as (_ & krow & _ & Hkrow & _ & _ & _ & ->); [lia|done].
  - intros k b Hk Hb.
    destruct (keep_mask_entry self func n n_b ind keep k b Hwf Hk Hb)
      as (p & j & x & Hp & Hj & Hx & Hv); [apply Hrows; lia|apply Hrows; lia|].
    exists p, j, x. do 3 (split; [done|]). eexists. split; [done|].
    rewrite Qgtb_true. by rewrite Hz.
  - intros Hpos k Hk.
    destruct (Hrows k Hk) as (row & krow & Hrow & Hkrow & Hperm & _ & Hstep).
    rewrite Hkrow. f_equal. destruct k as [|k]; [by destruct Hstep|].
    destruct Hstep as (prev & m & Hprev & Htake & Hwfm & _ & ->).
    apply keep_of_all_true; [done|done|done|].
    destruct (Hrows k) as (prev' & _ & Hprev' & _ & Hpperm & _); [lia|].
    assert (prev' = prev) as -> by congruence.
    eapply take_rows_entries; [done| |by apply Permutation_range_lt|done|done]. lia.
Qed.

Lemma zero_threshold_keeps_positive_overlaps_witness :
  ∃ ind keep,
    index_and_keep (solver := exhaustive_lsa) (scenario 0 0) = Ok (ind, keep) ∧
    length keep = 2 + 1 ∧
    keep !! 0 = Some (replicate 2 true) ∧
    (∀ k b, k < 2 → b < 2 →
       ∃ p j x,
         lookup2 ind k b = Some p ∧ lookup2 ind (S k) b = Some j ∧
         lookup3 (data (overlap_matrix (scenario 0 0))) k p j = Some x ∧
         ∃ v, lookup2 keep (S k) b = Some v ∧ (v = true ↔ (0 < x)%Q)) ∧
    (all_entries (λ x, 0 < x)%Q (overlap_matrix (scenario 0 0)) →
     ∀ k, k ≤ 2 → keep !! k = Some (replicate 2 true)).
Proof.
  apply (zero_threshold_keeps_positive_overlaps (solver := exhaustive_lsa) (scenario 0 0) 2 2).
  - apply exhaustive_lsa_optimal.
  - left. reflexivity.
  - solve_wf.
  - reflexivity.
Defined.

(** C4 as stated fails when a matched overlap is exactly 0: the band that
    overlaps with nothing is matched with weight 0, and 0 > 0 is False,
    under either routine. *)
Lemma zero_threshold_drops_zero_overlap :
  wf3 (overlap_matrix (vanishing_band 0)) 1 2 2 ∧
  index_and_keep (solver := exhaustive_lsa) (vanishing_band 0) =
    Ok ([[0; 1]; [0; 1]], [[true; true]; [true; false]]) ∧
  index_and_keep (solver := exhaustive_lsa) (vanishing_band 1) =
    Ok ([[0; 1]; [0; 1]], [[true; true]; [true; false]]).
Proof. split; [solve_wf|]. split; reflexivity. Qed.

(** ** The two-band scenario *)

Lemma Permutation_range_2 perm : perm ≡ₚ range 2 → perm = [0; 1] ∨ perm = [1; 0].
Proof.
  intros Hp. symmetry in Hp. apply permutations_Permutation in Hp.
  vm_compute in Hp.
  apply elem_of_cons in Hp as [-> | Hp]; [by left|].
  apply elem_of_cons in Hp as [-> | Hp]; [by right|].
  by apply elem_of_nil in Hp.
Qed.

Lemma scenario_scipy_step_1 `{solver : Scipy} self :
  lsa_optimal solver → (threshold self == 0)%Q →
  _linear_sum_scipy self (mk_ndarray [2; 2] [[9 # 10; 1 # 10]; [1 # 10; 9 # 10]]%Q) =
    Ok ([0; 1], [true; true]).
Proof.
  intros Hopt Hz.
  destruct (linear_sum_scipy_spec Hopt self
              (mk_ndarray [2; 2] [[9 # 10; 1 # 10]; [1 # 10; 9 # 10]]%Q) 2)
    as (perm & -> & Hperm & Hbest); [solve_wf|].
  destruct (Permutation_range_2 perm Hperm) as [-> | ->].
  - do 2 f_equal. unfold keep_of. simpl. f_equal; [|f_equal]; apply Qgtb_true; by rewrite Hz.
  - exfalso. specialize (Hbest [0; 1] (reflexivity _)). revert Hbest. vm_compute.
    intros H. by apply H.
Qed.

Lemma scenario_scipy_step_2 `{solver : Scipy} self :
  lsa_optimal solver → (threshold self == 0)%Q →
  _linear_sum_scipy self (mk_ndarray [2; 2] [[5 # 100; 95 # 100]; [95 # 100; 5 # 100]]%Q) =
    Ok ([1; 0], [true; true]).
Proof.
  intros Hopt Hz.
  destruct (linear_sum_scipy_spec Hopt self
              (mk_ndarray [2; 2] [[5 # 100; 95 # 100]; [95 # 100; 5 # 100]]%Q) 2)
    as (perm & -> & Hperm & Hbest); [solve_wf|].
  destruct (Permutation_range_2 perm Hperm) as [-> | ->].
  - exfalso. specialize (Hbest [1; 0] (perm_swap 0 1 [])). revert Hbest. vm_compute.
    intros H. by apply H.
  - do 2 f_equal. unfold keep_of. simpl. f_equal; [|f_equal]; apply Qgtb_true; by rewrite Hz.
Qed.

Lemma scenario_index_loop self func :
  overlap_matrix self = scenario_overlap →
  func (mk_ndarray [2; 2] [[9 # 10; 1 # 10]; [1 # 10; 9 # 10]]%Q) = Ok ([0; 1], [true; true]) →
  func (mk_ndarray [2; 2] [[5 # 100; 95 # 100]; [95 # 100; 5 # 100]]%Q) =
    Ok ([1; 0], [true; true]) →
  index_loop self func 3 2 =
    Ok ([[0; 1]; [0; 1]; [1; 0]], [[true; true]; [true; true]; [true; true]]).
Proof.
  intros Hov H1 H2. unfold index_loop, range. simpl.
  rewrite Hov. unfold take_rows. simpl. rewrite H1. simpl.
  rewrite Hov. unfold take_rows. simpl. by rewrite H2.
Qed.

Lemma scenario_select_routine `{solver : Scipy} routine :
  lsa_optimal solver → (routine = 0 ∨ routine = 1)%Z →
  ∃ func,
    select_routine (scenario 0 routine) = Ok func ∧
    index_loop (scenario 0 routine) func 3 2 =
      Ok ([[0; 1]; [0; 1]; [1; 0]], [[true; true]; [true; true]; [true; true]]).
Proof.
  intros Hopt [-> | ->].
  - eexists. split; [done|]. by apply scenario_index_loop.
  - eexists. split; [done|].
    apply scenario_index_loop; [done| |].
    + by apply scenario_scipy_step_1.
    + by apply scenario_scipy_step_2.
Qed.

(** C8, as the code has it.  For the overlap tensor
    [[[0.9,0.1],[0.1,0.9]], [[0.05,0.95],[0.95,0.05]]] (B = 2, K = 3) with the
    threshold 0, under either routine, IndexMap is [[0,1],[0,1],[1,0]], every
    entry of KeepMask is True, and WorkingIndexMap is [[0,1],[0,1],[0,1]]:
    every row is the identity and the maximum stays 1. *)
Theorem scenario_maps `{solver : Scipy} (routine : Z) :
  lsa_optimal solver → (routine = 0 ∨ routine = 1)%Z →
  index_and_keep (scenario 0 routine) =
    Ok ([[0; 1]; [0; 1]; [1; 0]], [[true; true]; [true; true]; [true; true]]) ∧
  _calc_disentangle_matrix (scenario 0 routine) =
    Ok (mk_ndarray [3; 2] [[0; 1]; [0; 1]; [1; 0]],
        mk_ndarray [3; 2] [[0; 1]; [0; 1]; [0; 1]]) ∧
  np_max (concat [[0; 1]; [0; 1]; [0; 1]]) = Ok 1.
Proof.
  intros Hopt Hr.
  destruct (scenario_select_routine routine Hopt Hr) as (func & Hsel & Hloop).
  split; [|split; [|done]].
  - unfold index_and_keep. simpl. rewrite Hsel. simpl. apply Hloop.
  - unfold _calc_disentangle_matrix. simpl. rewrite Hsel. simpl.
    rewrite Hloop. reflexivity.
Qed.

Lemma scenario_maps_witness :
  index_and_keep (solver := exhaustive_lsa) (scenario 0 1) =
    Ok ([[0; 1]; [0; 1]; [1; 0]], [[true; true]; [true; true]; [true; true]]) ∧
  _calc_disentangle_matrix (solver := exhaustive_lsa) (scenario 0 1) =
    Ok (mk_ndarray [3; 2] [[0; 1]; [0; 1]; [1; 0]],
        mk_ndarray [3; 2] [[0; 1]; [0; 1]; [0; 1]]) ∧
  np_max (concat [[0; 1]; [0; 1]; [0; 1]]) = Ok 1.
Proof.
  apply (scenario_maps (solver := exhaustive_lsa) 1).
  - apply exhaustive_lsa_optimal.
  - right. reflexivity.
Defined.

(** C8 as stated fails in its last part: the working-index map the code
    computes is not the index map.  At the third k-point the index map has
    the swapped row [1, 0] while the working-index row is still [0, 1]. *)
Lemma scenario_working_map_is_not_index_map :
  ∃ ind working_indices,
    _calc_disentangle_matrix (solver := exhaustive_lsa) (scenario 0 1) =
      Ok (ind, working_indices) ∧
    _calc_disentangle_matrix (solver := exhaustive_lsa) (scenario 0 0) =
      Ok (ind, working_indices) ∧
    data ind !! 2 = Some [1; 0] ∧ data working_indices !! 2 = Some [0; 1] ∧
    working_indices ≠ ind.
Proof.
  do 2 eexists. split; [reflexivity|]. split; [reflexivity|].
  split; [reflexivity|]. split; [reflexivity|]. discriminate.
Qed.

(** ** Applying the maps *)

Lemma apply_body_spec {D} {dtype : Dtype D} (nan : cell np_float)
    (matrix : list (list (cell D))) ind working_indices i out n_b m ind_k w_k row :
  ind !! i = Some ind_k → working_indices !! i = Some w_k → matrix !! i = Some row →
  length row = n_b → Forall (λ j, j < n_b) ind_k →
  length ind_k = n_b → length w_k = n_b → NoDup w_k → Forall (λ s, s ≤ m) w_k →
  out !! i = Some (replicate (m + 1) nan) →
  ∃ out_row, apply_body matrix ind working_indices i out = Ok (<[i := out_row]> out) ∧
             scattered nan m (cell_map astype_float64 <$> row) ind_k w_k out_row.
Proof.
  intros Hind HW Hrow Hrlen Hlt Hilen Hwlen Hnd Hle Hout.
  destruct (traverse_getitem row ind_k) as (vals & Hvals & Hall); [by rewrite Hrlen|].
  pose proof (Forall2_length _ _ _ Hall) as Hvlen.
  destruct (scatter_spec (replicate (m + 1) nan) w_k (map (cell_map astype_float64) vals))
    as (out_row & Hsc & Holen & Hread & Hother); [rewrite length_map; lia| |done|].
  { rewrite length_replicate. eapply Forall_impl; [done|]. simpl. lia. }
  rewrite length_replicate in Holen.
  exists out_row. split.
  - unfold apply_body. apply getitem_Ok in Hind, HW, Hrow, Hout.
    rewrite Hind. simpl. rewrite Hrow. simpl. rewrite Hvals. simpl.
    rewrite HW. simpl. rewrite Hout. simpl. by rewrite Hsc.
  - split; [done|]. split.
    + intros b j s Hj Hs.
      destruct (Forall2_lookup_l _ _ _ _ _ Hall Hj) as (v & Hv & Hrv).
      rewrite list_lookup_fmap, Hrv. simpl. split; [by eexists|].
      apply (Hread b); [done|].
      change (map ?f ?l) with (f <$> l). by rewrite list_lookup_fmap, Hv.
    + intros s Hs Hnotin. rewrite Hother by done. apply lookup_replicate_2. lia.
Qed.

Lemma apply_loop_spec {D} {dtype : Dtype D} (nan : cell np_float)
    (matrix : list (list (cell D))) ind working_indices n_k n_b m :
  length matrix = n_k → Forall (λ row, length row = n_b) matrix →
  length ind = n_k → Forall (λ ind_k, ind_k ≡ₚ range n_b) ind →
  length working_indices = n_k →
  Forall (λ w_k, length w_k = n_b ∧ NoDup w_k ∧ Forall (λ s, s ≤ m) w_k) working_indices →
  ∃ out,
    for_each (range n_k) (apply_body matrix ind working_indices)
      (replicate n_k (replicate (m + 1) nan)) = Ok out ∧
    length out = n_k ∧
    ∀ k, k < n_k →
      ∃ row ind_k w_k out_row,
        matrix !! k = Some row ∧ ind !! k = Some ind_k ∧
        working_indices !! k = Some w_k ∧ out !! k = Some out_row ∧
        scattered nan m (cell_map astype_float64 <$> row) ind_k w_k out_row.
Proof.
  intros Hmlen Hmrows Hilen Hirows Hwlen Hwrows.
  destruct (for_each_range
    (λ i (out : list (list (cell np_float))),
       length out = n_k ∧
       (∀ k, i ≤ k → k < n_k → out !! k = Some (replicate (m + 1) nan)) ∧
       ∀ k, k < i →
         ∃ row ind_k w_k out_row,
           matrix !! k = Some row ∧ ind !! k = Some ind_k ∧
           working_indices !! k = Some w_k ∧ out !! k = Some out_row ∧
           scattered nan m (cell_map astype_float64 <$> row) ind_k w_k out_row)
    n_k (apply_body matrix ind working_indices)
    (replicate n_k (replicate (m + 1) nan))) as (out & Hrun & Holen & _ & Hrows).
  - rewrite length_replicate. split; [done|]. split.
    + intros k _ Hk. by apply lookup_replicate_2.
    + intros k Hk. lia.
  - intros i out Hi (Holen & Hrest & Hdone).
    destruct (lookup_lt_is_Some_2 matrix i) as [row Hrow]; [lia|].
    destruct (lookup_lt_is_Some_2 ind i) as [ind_k Hind]; [lia|].
    destruct (lookup_lt_is_Some_2 working_indices i) as [w_k Hw]; [lia|].
    pose proof (Forall_lookup_1 _ _ _ _ Hmrows Hrow) as Hrlen.
    pose proof (Forall_lookup_1 _ _ _ _ Hirows Hind) as Hperm.
    destruct (Forall_lookup_1 _ _ _ _ Hwrows Hw) as (Hwl & Hnd & Hle).
    destruct (apply_body_spec nan matrix ind working_indices i out n_b m ind_k w_k row)
      as (out_row & Hbody & Hsc); auto using Permutation_range_lt, Permutation_range_length.
    exists (<[i := out_row]> out). split; [done|]. rewrite length_insert.
    split; [done|]. split.
    + intros k Hk1 Hk2. rewrite list_lookup_insert_ne by lia. apply Hrest; lia.
    + intros k Hk. destruct (decide (k = i)) as [->|Hne].
      * exists row, ind_k, w_k, out_row. by rewrite list_lookup_insert_eq by lia.
      * destruct (Hdone k) as (r & ik & wk & o & ? & ? & ? & ? & ?); [lia|].
        exists r, ik, wk, o. by rewrite list_lookup_insert_ne by lia.
  - exists out. split; [done|]. split; [done|]. intros k Hk. by apply Hrows.
Qed.

Lemma concat_rows_nonempty {A} (rows : list (list A)) n_k n_b :
  length rows = n_k → 0 < n_k → 0 < n_b → Forall (λ row, length row = n_b) rows →
  concat rows ≠ [].
Proof.
  intros Hlen Hk Hb Hrows. destruct rows as [|row rows]; [simpl in Hlen; lia|].
  inversion Hrows as [|? ? Hrow _]; subst. destruct row; [simpl in Hb; lia|]. done.
Qed.

Lemma elem_of_row_le_max (rows : list (list nat)) k row s :
  rows !! k = Some row → s ∈ row → s ≤ max_list (concat rows).
Proof.
  intros Hrow Hs. apply max_list_elem_of_le, list_elem_of_In, in_concat.
  exists row. split; apply list_elem_of_In; [by eapply list_elem_of_lookup_2|done].
Qed.

Lemma disentangle_matrix_Ok `{solver : Scipy} self c :
  (∀ c', _disentangle_matrix self = Some c' → _calc_disentangle_matrix self = Ok c') →
  _calc_disentangle_matrix self = Ok c →
  ∃ self', disentangle_matrix self = Ok (c, self') ∧
           _disentangle_matrix self' = Some c ∧
           overlap_matrix self' = overlap_matrix self ∧
           threshold self' = threshold self ∧ _routine self' = _routine self.
Proof.
  intros Hcache Hcalc. unfold disentangle_matrix.
  destruct (_disentangle_matrix self) as [c'|] eqn:Hc.
  - specialize (Hcache c' eq_refl). assert (c' = c) as -> by congruence.
    by exists self.
  - rewrite Hcalc. simpl. by eexists.
Qed.

(** float64 data goes through the store unchanged. *)
Lemma cell_map_float64 (c : cell np_float) : cell_map astype_float64 c = c.
Proof.
  revert c. fix IH 1. intros [v|cs]; simpl; [done|]. f_equal.
  induction cs as [|c cs IHcs]; simpl; [done|]. by rewrite IH, IHcs.
Qed.

(** What one call of [_apply_disentanglement] does, row by row. *)
Lemma apply_disentanglement_spec `{solver : Scipy} {D} {dtype : Dtype D} self
    (matrix : array2 (cell D)) n n_b ind working_indices :
  _calc_disentangle_matrix self =
    Ok (mk_ndarray [n + 1; n_b] ind, mk_ndarray [n + 1; n_b] working_indices) →
  (∀ c, _disentangle_matrix self = Some c → _calc_disentangle_matrix self = Ok c) →
  0 < n_b →
  length ind = n + 1 → Forall (λ ind_k, ind_k ≡ₚ range n_b) ind →
  length working_indices = n + 1 →
  Forall (λ w_k, length w_k = n_b ∧ NoDup w_k) working_indices →
  wf_leading matrix (n + 1) n_b →
  ∃ out self',
    _apply_disentanglement self matrix =
      Ok (mk_ndarray (<[1 := max_list (concat working_indices) + 1]> (shape matrix)) out,
          self') ∧
    _disentangle_matrix self' =
      Some (mk_ndarray [n + 1; n_b] ind, mk_ndarray [n + 1; n_b] working_indices) ∧
    overlap_matrix self' = overlap_matrix self ∧
    threshold self' = threshold self ∧ _routine self' = _routine self ∧
    (is_Some (_disentangle_matrix self) → self' = self) ∧
    length out = n + 1 ∧
    ∀ k, k ≤ n →
      ∃ row ind_k w_k out_row,
        data matrix !! k = Some row ∧ ind !! k = Some ind_k ∧
        working_indices !! k = Some w_k ∧ out !! k = Some out_row ∧
        length row = n_b ∧ ind_k ≡ₚ range n_b ∧ length w_k = n_b ∧ NoDup w_k ∧
        Forall (λ s, s ≤ max_list (concat working_indices)) w_k ∧
        scattered (np_full_nan (drop 2 (shape matrix))) (max_list (concat working_indices))
          (cell_map astype_float64 <$> row) ind_k w_k out_row.
Proof.
  intros Hcalc Hcache Hb Hind Hirows HWl HWrows (Hshape & Hmlen & Hmrows).
  destruct (disentangle_matrix_Ok self _ Hcache Hcalc) as (self' & Hdm & Hc' & Ho & Ht & Hro).
  assert (Hhit : is_Some (_disentangle_matrix self) → self' = self).
  { intros [c0 Hc0]. unfold disentangle_matrix in Hdm. rewrite Hc0 in Hdm. congruence. }
  assert (Hne : concat working_indices ≠ []).
  { apply (concat_rows_nonempty working_indices (n + 1) n_b); [done|lia|done|].
    eapply Forall_impl; [done|]. by intros ? [? _]. }
  assert (HWle : Forall (λ w_k, length w_k = n_b ∧ NoDup w_k ∧
                   Forall (λ s, s ≤ max_list (concat working_indices)) w_k) working_indices).
  { apply Forall_lookup_2. intros k row Hrow.
    destruct (Forall_lookup_1 _ _ _ _ HWrows Hrow) as (? & ?).
    split; [done|]. split; [done|]. apply Forall_forall. intros s Hs.
    by eapply elem_of_row_le_max. }
  destruct (apply_loop_spec (np_full_nan (drop 2 (shape matrix))) (data matrix) ind
              working_indices (n + 1) n_b (max_list (concat working_indices)))
    as (out & Hrun & Holen & Hout); [done..|].
  exists out, self'. split; [|do 6 (split; [done|])].
  - unfold _apply_disentanglement.
    destruct (shape matrix) as [|a [|b l]] eqn:Hsh; try done.
    simpl in Hshape. injection Hshape as -> ->.
    simpl. rewrite Hdm. simpl.
    rewrite take_0, bool_decide_eq_true_2 by done. simpl.
    rewrite np_max_Ok by done. simpl. simpl in Hrun. by rewrite Hrun.
  - intros k Hk.
    destruct (Hout k) as (row & ind_k & w_k & out_row & Hrow & Hik & Hwk & Hor & Hsc); [lia|].
    exists row, ind_k, w_k, out_row. do 4 (split; [done|]).
    pose proof (Forall_lookup_1 _ _ _ _ Hmrows Hrow) as Hrl.
    pose proof (Forall_lookup_1 _ _ _ _ Hirows Hik) as Hperm.
    destruct (Forall_lookup_1 _ _ _ _ HWle Hwk) as (? & ? & ?).
    done.
Qed.

(** C2, as the code has it.  With at least one band, for a data array whose
    leading two axes are (K, B), the apply operation returns a float64 array
    whose band axis has max(WorkingIndexMap) + 1 slots, with
    out[k, WorkingIndexMap[k, b]] = data[k, IndexMap[k, b]] converted to
    float64 for every (k, b), and NaN in every other slot.  For an energy
    array (two axes of finite float64 numbers) every position where KeepMask
    is True reads back the original value, which is not NaN. *)
Theorem apply_scatters_by_working_index `{solver : Scipy} {D} {dtype : Dtype D}
    (self : Disentangle) (matrix : array2 (cell D)) (energy : array2 (cell np_float))
    (n n_b : nat) :
  lsa_optimal solver → (_routine self = 0 ∨ _routine self = 1)%Z →
  wf3 (overlap_matrix self) n n_b n_b → 0 < n_b →
  (∀ c, _disentangle_matrix self = Some c → _calc_disentangle_matrix self = Ok c) →
  wf_leading matrix (n + 1) n_b →
  energy_array energy (n + 1) n_b →
  ∃ ind keep working_indices m out self' out_e self_e,
    index_and_keep self = Ok (ind, keep) ∧
    _calc_disentangle_matrix self =
      Ok (mk_ndarray [n + 1; n_b] ind, mk_ndarray [n + 1; n_b] working_indices) ∧
    np_max (concat working_indices) = Ok m ∧
    _apply_disentanglement self matrix = Ok (out, self') ∧
    shape out = <[1 := m + 1]> (shape matrix) ∧
    length (data out) = n + 1 ∧
    (∀ k out_row, data out !! k = Some out_row → length out_row = m + 1) ∧
    (∀ k b, k ≤ n → b < n_b →
       ∃ j s v, lookup2 ind k b = Some j ∧ lookup2 working_indices k b = Some s ∧
                lookup2 (data matrix) k j = Some v ∧
                lookup2 (data out) k s = Some (cell_map astype_float64 v)) ∧
    (∀ k s, k ≤ n → s ≤ m → (∀ b, lookup2 working_indices k b ≠ Some s) →
       lookup2 (data out) k s = Some (np_full_nan (drop 2 (shape matrix)))) ∧
    _apply_disentanglement self energy = Ok (out_e, self_e) ∧
    (∀ k b, lookup2 keep k b = Some true →
       ∃ j s v, lookup2 ind k b = Some j ∧ lookup2 working_indices k b = Some s ∧
                lookup2 (data energy) k j = Some v ∧
                lookup2 (data out_e) k s = Some v ∧ v ≠ Scalar NaN).
Proof.
  intros Hopt Hr Hwf Hb Hcache Hm (Hewf & Hfin).
  destruct (calc_disentangle_matrix_spec self n n_b Hopt Hr Hwf)
    as (func & ind & keep & W & _ & Hik & _ & Hind & Hkeep & HW & Hrows & HWrows &
        Hcalc & Hcheck).
  rewrite Hcheck in Hcalc by auto. simpl in Hcalc.
  assert (Hne : concat W ≠ []).
  { apply (concat_rows_nonempty W (n + 1) n_b); [done|lia|done|].
    eapply Forall_impl; [done|]. tauto. }
  assert (Hirows : Forall (λ ind_k, ind_k ≡ₚ range n_b) ind).
  { apply Forall_lookup_2. intros k row Hrow.
    destruct (Hrows k) as (row' & _ & Hrow' & _ & Hperm & _).
    - apply lookup_lt_Some in Hrow. lia.
    - congruence. }
  assert (Hread : ∀ {E} {dt : Dtype E} (a : array2 (cell E)) out,
    (∀ k, k ≤ n →
      ∃ row ind_k w_k out_row,
        data a !! k = Some row ∧ ind !! k = Some ind_k ∧
        W !! k = Some w_k ∧ out !! k = Some out_row ∧
        length row = n_b ∧ ind_k ≡ₚ range n_b ∧ length w_k = n_b ∧ NoDup w_k ∧
        Forall (λ s, s ≤ max_list (concat W)) w_k ∧
        scattered (np_full_nan (drop 2 (shape a))) (max_list (concat W))
          (cell_map astype_float64 <$> row) ind_k w_k out_row) →
    ∀ k b, k ≤ n → b < n_b →
      ∃ j s v, lookup2 ind k b = Some j ∧ lookup2 W k b = Some s ∧
               lookup2 (data a) k j = Some v ∧
               lookup2 out k s = Some (cell_map astype_float64 v)).
  { intros E dt a out Hout k b Hk Hbn.
    destruct (Hout k Hk)
      as (row & ind_k & w_k & out_row & Hrow & Hik' & Hwk & Hor & _ & Hperm & Hwl & _ & _ & Hsc).
    destruct Hsc as (_ & Hrd & _).
    destruct (lookup_lt_is_Some_2 ind_k b) as [j Hj];
      [by rewrite (Permutation_range_length _ _ Hperm)|].
    destruct (lookup_lt_is_Some_2 w_k b) as [s Hs]; [lia|].
    destruct (Hrd b j s Hj Hs) as ([v Hv] & Hos).
    rewrite list_lookup_fmap in Hv, Hos.
    destruct (row !! j) as [v0|] eqn:Hv0; [|done]. simpl in Hos.
    exists j, s, v0. unfold lookup2. rewrite Hik', Hwk, Hrow, Hor. simpl.
    by rewrite Hos. }
  assert (HWnd : Forall (λ w_k, length w_k = n_b ∧ NoDup w_k) W).
  { eapply Forall_impl; [done|]. by intros ? (? & ? & _). }
  assert (Hewl : wf_leading energy (n + 1) n_b).
  { destruct Hewf as (Hs & ? & ?). split; [by rewrite Hs|done]. }
  destruct (apply_disentanglement_spec self matrix n n_b ind W)
    as (out & self' & Happly & _ & _ & _ & _ & _ & Holen & Hout); [done..|].
  destruct (apply_disentanglement_spec self energy n n_b ind W)
    as (out_e & self_e & Happly_e & _ & _ & _ & _ & _ & _ & Hout_e); [done..|].
  eexists ind, keep, W, (max_list (concat W)), _, self', _, self_e.
  split; [done|]. split; [done|]. split; [by apply np_max_Ok|].
  split; [done|]. split; [done|]. split; [done|].
  split; [|split; [by apply Hread|split; [|split; [done|]]]].
  - intros k out_row Hor. simpl in Hor.
    destruct (Hout k) as (_ & _ & _ & out_row' & _ & _ & _ & Hor' & _ & _ & _ & _ & _ & Hlen & _).
    + apply lookup_lt_Some in Hor. lia.
    + by assert (out_row' = out_row) as -> by congruence.
  - intros k s Hk Hs Hfree. simpl.
    destruct (Hout k) as (row & ind_k & w_k & out_row & _ & _ & Hwk & Hor & _ & _ & _ & _ & _ &
                          _ & _ & Hnan); [lia|].
    unfold lookup2. rewrite Hor. simpl. apply Hnan; [done|].
    intros [b Hbs]%list_elem_of_lookup_1. apply (Hfree b).
    unfold lookup2. by rewrite Hwk.
  - intros k b Hkb. unfold lookup2 in Hkb.
    destruct (keep !! k) as [krow|] eqn:Hkrow; [|done]. simpl in Hkb.
    assert (Hk : k ≤ n) by (apply lookup_lt_Some in Hkrow; lia).
    destruct (Hrows k Hk) as (_ & krow' & _ & Hkrow' & _ & Hklen & _).
    assert (krow' = krow) as -> by congruence.
    assert (Hbn : b < n_b) by (apply lookup_lt_Some in Hkb; lia).
    destruct (Hread _ _ energy out_e Hout_e k b Hk Hbn) as (j & s & v & ? & ? & Hv & Hov).
    exists j, s, v. simpl. do 3 (split; [done|]).
    rewrite cell_map_float64 in Hov. split; [done|].
    unfold lookup2 in Hv. destruct (data energy !! k) as [row|] eqn:Hrow; [|done].
    simpl in Hv.
    pose proof (Forall_lookup_1 _ _ _ _ (Forall_lookup_1 _ _ _ _ Hfin Hrow) Hv) as [q ->].
    done.
Qed.

Lemma apply_scatters_by_working_index_witness :
  ∃ ind keep working_indices m out self' out_e self_e,
    index_and_keep (solver := exhaustive_lsa) (retiring 1) = Ok (ind, keep) ∧
    _calc_disentangle_matrix (solver := exhaustive_lsa) (retiring 1) =
      Ok (mk_ndarray [2 + 1; 2] ind, mk_ndarray [2 + 1; 2] working_indices) ∧
    np_max (concat working_indices) = Ok m ∧
    _apply_disentanglement (solver := exhaustive_lsa) (retiring 1) scenario_amplitude =
      Ok (out, self') ∧
    shape out = <[1 := m + 1]> (shape scenario_amplitude) ∧
    length (data out) = 2 + 1 ∧
    (∀ k out_row, data out !! k = Some out_row → length out_row = m + 1) ∧
    (∀ k b, k ≤ 2 → b < 2 →
       ∃ j s v, lookup2 ind k b = Some j ∧ lookup2 working_indices k b = Some s ∧
                lookup2 (data scenario_amplitude) k j = Some v ∧
                lookup2 (data out) k s = Some (cell_map astype_float64 v)) ∧
    (∀ k s, k ≤ 2 → s ≤ m → (∀ b, lookup2 working_indices k b ≠ Some s) →
       lookup2 (data out) k s = Some (np_full_nan (drop 2 (shape scenario_amplitude)))) ∧
    _apply_disentanglement (solver := exhaustive_lsa) (retiring 1) scenario_energy =
      Ok (out_e, self_e) ∧
    (∀ k b, lookup2 keep k b = Some true →
       ∃ j s v, lookup2 ind k b = Some j ∧ lookup2 working_indices k b = Some s ∧
                lookup2 (data scenario_energy) k j = Some v ∧
                lookup2 (data out_e) k s = Some v ∧ v ≠ Scalar NaN).
Proof.
  apply (apply_scatters_by_working_index (solver := exhaustive_lsa)
           (retiring 1) scenario_amplitude scenario_energy 2 2).
  - apply exhaustive_lsa_optimal.
  - right. reflexivity.
  - solve_wf.
  - lia.
  - intros c Hc. discriminate Hc.
  - solve_wf.
  - split; [solve_wf|]. repeat constructor; by eexists.
Defined.

(** C2 as stated fails in three ways.  On a system without bands the
    working-index map is computed (the threshold is not 0) but it is empty,
    [np.max] has nothing to reduce, and the apply operation raises instead of
    returning an array.  On complex data the output does not hold the data
    values: the store into the float64 array keeps the real parts only, so
    two arrays that differ in an imaginary part give the same output.  And a
    kept position of a float64 array reads back NaN where the array holds
    NaN. *)
Lemma apply_raises_without_bands_and_drops_imaginary_parts :
  (wf3 (overlap_matrix (no_bands (1 # 2) 1)) 1 0 0 ∧
   wf_leading (mk_ndarray [2; 0] [[]; []] : array2 (cell np_float)) 2 0 ∧
   _calc_disentangle_matrix (solver := exhaustive_lsa) (no_bands (1 # 2) 1) =
     Ok (mk_ndarray [2; 0] [[]; []], mk_ndarray [2; 0] [[]; []]) ∧
   _apply_disentanglement (solver := exhaustive_lsa) (no_bands (1 # 2) 1)
     (mk_ndarray [2; 0] [[]; []] : array2 (cell np_float)) = Raise ValueError) ∧
  (wf3 (overlap_matrix (retiring 1)) 2 2 2 ∧
   wf_leading scenario_amplitude 3 2 ∧
   lookup2 (data scenario_amplitude) 0 0 = Some (Scalar (Finite 1, Finite 2)) ∧
   ∃ self',
     _apply_disentanglement (solver := exhaustive_lsa) (retiring 1) scenario_amplitude =
       Ok (mk_ndarray [3; 4]
             [[Scalar (Finite 1); Scalar (Finite 0); Scalar NaN; Scalar NaN];
              [Scalar (Finite 1); Scalar (Finite 0); Scalar NaN; Scalar NaN];
              [Scalar NaN; Scalar NaN; Scalar (Finite 0); Scalar (Finite 1)]]%Q, self') ∧
     _apply_disentanglement (solver := exhaustive_lsa) (retiring 1)
       (mk_ndarray [3; 2]
          [[Scalar (Finite 1, Finite 0); Scalar (Finite 0, Finite 0)];
           [Scalar (Finite 1, Finite 0); Scalar (Finite 0, Finite 0)];
           [Scalar (Finite 0, Finite 0); Scalar (Finite 1, Finite 0)]]%Q) =
       Ok (mk_ndarray [3; 4]
             [[Scalar (Finite 1); Scalar (Finite 0); Scalar NaN; Scalar NaN];
              [Scalar (Finite 1); Scalar (Finite 0); Scalar NaN; Scalar NaN];
              [Scalar NaN; Scalar NaN; Scalar (Finite 0); Scalar (Finite 1)]]%Q, self')) ∧
  (∃ ind keep out self',
     index_and_keep (solver := exhaustive_lsa) (retiring 1) = Ok (ind, keep) ∧
     lookup2 keep 0 0 = Some true ∧
     _apply_disentanglement (solver := exhaustive_lsa) (retiring 1)
       (mk_ndarray [3; 2]
          [[Scalar NaN; Scalar (Finite 1)];
           [Scalar (Finite (-1)); Scalar (Finite 1)];
           [Scalar (Finite (-1)); Scalar (Finite 1)]]%Q) = Ok (out, self') ∧
     lookup2 (data out) 0 0 = Some (Scalar NaN)).
Proof.
  split; [|split].
  - split; [solve_wf|]. split; [solve_wf|]. split; reflexivity.
  - split; [solve_wf|]. split; [solve_wf|]. split; [reflexivity|].
    eexists. split; reflexivity.
  - do 4 eexists. split; [reflexivity|]. split; [reflexivity|].
    split; reflexivity.
Qed.

(** ** The overlap of consecutive k-points *)

Lemma traverse_total {A B} (f : A → result B) xs :
  Forall (λ x, ∃ y, f x = Ok y) xs →
  ∃ ys, traverse f xs = Ok ys ∧ Forall2 (λ x y, f x = Ok y) xs ys.
Proof.
  induction 1 as [|x xs [y Hy] _ (ys & Hys & IH)].
  - exists []. by split; [|constructor].
  - exists (y :: ys). split; [|by constructor]. simpl. rewrite Hy. simpl. by rewrite Hys.
Qed.

Lemma traverse_range {B} (f : nat → result B) n :
  (∀ i, i < n → ∃ y, f i = Ok y) →
  ∃ ys, traverse f (range n) = Ok ys ∧ length ys = n ∧
        ∀ i, i < n → ∃ y, ys !! i = Some y ∧ f i = Ok y.
Proof.
  intros Hf. destruct (traverse_total f (range n)) as (ys & Hys & Hall).
  { apply Forall_forall. intros i Hi. apply elem_of_seq in Hi. apply Hf. lia. }
  exists ys. split; [done|].
  pose proof (Forall2_length _ _ _ Hall) as Hlen.
  unfold range in Hlen. rewrite length_seq in Hlen. split; [done|].
  intros i Hi.
  destruct (Forall2_lookup_l _ _ _ i i Hall) as (y & Hy & Hfy); [by apply lookup_seq_lt|].
  eauto.
Qed.

Lemma rows_ext {A} (x y : list (list A)) r c :
  length x = r → length y = r →
  Forall (λ row, length row = c) x → Forall (λ row, length row = c) y →
  (∀ i j, i < r → j < c → lookup2 x i j = lookup2 y i j) → x = y.
Proof.
  intros Hx Hy Hxr Hyr Heq. apply list_eq. intros i.
  destruct (decide (i < r)) as [Hi|Hi].
  - destruct (lookup_lt_is_Some_2 x i) as [rx Hrx]; [lia|].
    destruct (lookup_lt_is_Some_2 y i) as [ry Hry]; [lia|].
    rewrite Hrx, Hry. f_equal. apply list_eq. intros j.
    pose proof (Forall_lookup_1 _ _ _ _ Hxr Hrx) as Hlx.
    pose proof (Forall_lookup_1 _ _ _ _ Hyr Hry) as Hly.
    simpl in Hlx, Hly.
    destruct (decide (j < c)) as [Hj|Hj].
    + specialize (Heq i j Hi Hj). unfold lookup2 in Heq. by rewrite Hrx, Hry in Heq.
    + by rewrite !lookup_ge_None_2 by lia.
  - by rewrite !lookup_ge_None_2 by lia.
Qed.

Lemma np_transpose_spec {A} (m : array2 A) r c :
  wf2 m r c →
  ∃ mt, np_transpose m = Ok mt ∧ wf2 mt c r ∧
        ∀ i j, i < r → j < c → lookup2 (data mt) j i = lookup2 (data m) i j.
Proof.
  intros (Hs & Hlen & Hrows).
  destruct (traverse_range (λ j, traverse (λ row, getitem row j) (data m)) c)
    as (cols & Hcols & Hclen & Hcol).
  { intros j Hj.
    destruct (traverse_total (λ row : list A, getitem row j) (data m)) as (col & Hc & _); [|eauto].
    eapply Forall_impl; [done|]. intros row Hrow. simpl in Hrow.
    destruct (lookup_lt_is_Some_2 row j) as [y Hy]; [lia|].
    exists y. by apply getitem_Ok. }
  exists (mk_ndarray [c; r] cols). split; [|split; [split; [done|split; [done|]]|]].
  - unfold np_transpose. rewrite Hs, Hcols. done.
  - simpl. apply Forall_lookup_2. intros j col Hj.
    destruct (Hcol j) as (col' & Hj' & Htr); [by apply lookup_lt_Some in Hj; lia|].
    assert (col' = col) as -> by congruence.
    apply traverse_Ok, Forall2_length in Htr. lia.
  - intros i j Hi Hj. simpl.
    destruct (Hcol j Hj) as (col & Hcj & Htr). apply traverse_Ok in Htr.
    destruct (lookup_lt_is_Some_2 (data m) i) as [row Hrow]; [lia|].
    destruct (Forall2_lookup_l _ _ _ _ _ Htr Hrow) as (y & Hy & Hget).
    apply getitem_Ok in Hget. unfold lookup2. rewrite Hcj, Hrow. simpl. congruence.
Qed.

Lemma lookup2_fmap {A B} (f : A → B) rows i j :
  lookup2 (map (map f) rows) i j = f <$> lookup2 rows i j.
Proof.
  unfold lookup2. change (map (map f) rows) with (map f <$> rows).
  rewrite list_lookup_fmap. destruct (rows !! i) as [row|]; simpl; [|done].
  change (map f row) with (f <$> row). apply list_lookup_fmap.
Qed.

Lemma wf2_fmap {A B} (f : A → B) (m : array2 A) r c :
  wf2 m r c → wf2 (mk_ndarray (shape m) (map (map f) (data m))) r c.
Proof.
  intros (Hs & Hlen & Hrows). split; [done|]. simpl. split.
  - by rewrite length_map.
  - apply Forall_fmap. eapply Forall_impl; [done|].
    intros row Hrow. simpl. by rewrite length_map.
Qed.

Section overlap.
Context {Cx Re : Type} {ops : ComplexOps Cx Re}.

Lemma transpose_conj_transpose (b : array2 Cx) r c :
  wf2 b r c →
  ∃ bt btt, np_transpose b = Ok bt ∧ wf2 (np_conj bt) c r ∧
            np_transpose (np_conj bt) = Ok btt ∧
            data btt = map (map cconj) (data b).
Proof.
  intros Hwf.
  destruct (np_transpose_spec b r c Hwf) as (bt & Hbt & Hwfbt & Hlk).
  pose proof (wf2_fmap cconj bt c r Hwfbt) as Hwfc.
  destruct (np_transpose_spec (np_conj bt) c r Hwfc) as (btt & Hbtt & Hwfbtt & Hlk').
  exists bt, btt. do 3 (split; [done|]).
  destruct Hwfbtt as (_ & Hl1 & Hr1).
  destruct (wf2_fmap cconj b r c Hwf) as (_ & Hl2 & Hr2). simpl in Hl2, Hr2.
  apply (rows_ext _ _ r c); try done.
  intros i j Hi Hj. rewrite Hlk' by done. simpl.
  rewrite !lookup2_fmap. by rewrite Hlk.
Qed.

Lemma slice_spec {A} (a : array3 A) n r c i :
  wf3 a n r c → i < n →
  ∃ sl, data a !! i = Some sl ∧ slice a i = Ok (mk_ndarray [r; c] sl) ∧
        wf2 (mk_ndarray [r; c] sl) r c.
Proof.
  intros (Hs & Hlen & Hsl) Hi.
  destruct (lookup_lt_is_Some_2 (data a) i) as [sl Hsli]; [lia|].
  destruct (Forall_lookup_1 _ _ _ _ Hsl Hsli) as (Hslen & Hrows).
  exists sl. split; [done|]. split; [|by split].
  unfold slice. rewrite Hs. apply getitem_Ok in Hsli. by rewrite Hsli.
Qed.

Lemma overlap_at_spec (self : Wavefunction Cx) n_k n_b n_c i :
  wf3 (wavefunction self) n_k n_b n_c → i + 1 < n_k →
  ∃ x y, data (wavefunction self) !! i = Some x ∧
         data (wavefunction self) !! (i + 1) = Some y ∧
         length x = n_b ∧ length y = n_b ∧
         overlap_at self i =
           Ok (mk_ndarray [n_b; n_b]
                 (map (λ ra, map (λ rb, cabs (dot ra (map cconj rb))) y) x)).
Proof.
  intros Hwf Hi.
  destruct (slice_spec (wavefunction self) n_k n_b n_c i Hwf) as (x & Hx & Hsx & Hwx); [lia|].
  destruct (slice_spec (wavefunction self) n_k n_b n_c (i + 1) Hwf)
    as (y & Hy & Hsy & Hwy); [lia|].
  destruct (transpose_conj_transpose _ n_b n_c Hwy) as (bt & btt & Hbt & Hwfc & Hbtt & Hdata).
  exists x, y. do 2 (split; [done|]).
  split; [by destruct Hwx as (_ & ? & _)|]. split; [by destruct Hwy as (_ & ? & _)|].
  unfold overlap_at. rewrite Hsx. simpl. rewrite Hsy. simpl. rewrite Hbt. simpl.
  unfold matmul. simpl. destruct Hwfc as (Hsc & _). simpl in Hsc. rewrite Hsc.
  rewrite Nat.eqb_refl. simpl. rewrite Hbtt. simpl. rewrite Hdata. simpl in *.
  unfold np_abs. simpl. do 2 f_equal.
  rewrite map_map. apply map_ext. intros ra. rewrite !map_map. done.
Qed.
End overlap.

(** What [_calc_overlap_matrix] returns and when it raises, with the entries
    written with the product [dot] of the code. *)
Lemma overlap_matrix_entries {Cx Re : Type} {ops : ComplexOps Cx Re}
    (self : Wavefunction Cx) :
  (∀ n_k n_b n_c,
     wf3 (wavefunction self) n_k n_b n_c → 2 ≤ n_k →
     ∃ o, _calc_overlap_matrix self = Ok o ∧ wf3 o (n_k - 1) n_b n_b ∧
          ∀ i a b, i < n_k - 1 → a < n_b → b < n_b →
            ∃ x y, lookup2 (data (wavefunction self)) i a = Some x ∧
                   lookup2 (data (wavefunction self)) (i + 1) b = Some y ∧
                   lookup3 (data o) i a b = Some (cabs (dot x (map cconj y)))) ∧
  (length (shape (wavefunction self)) ≠ 3 →
   _calc_overlap_matrix self = Raise AssertionError) ∧
  (∀ n_k, shape (wavefunction self) !! 0 = Some n_k → n_k < 2 →
   _calc_overlap_matrix self = Raise AssertionError).
Proof.
  split; [|split].
  - intros n_k n_b n_c Hwf Hk.
    destruct (traverse_range (overlap_at self) (n_k - 1)) as (steps & Hsteps & Hlen & Hstep).
    { intros i Hi.
      destruct (overlap_at_spec self n_k n_b n_c i Hwf) as (x & y & _ & _ & _ & _ & Hat); [lia|].
      eauto. }
    assert (Hst : ∀ i, i < n_k - 1 →
      ∃ x y, data (wavefunction self) !! i = Some x ∧
             data (wavefunction self) !! (i + 1) = Some y ∧
             length x = n_b ∧ length y = n_b ∧
             steps !! i = Some (mk_ndarray [n_b; n_b]
               (map (λ ra, map (λ rb, cabs (dot ra (map cconj rb))) y) x))).
    { intros i Hi. destruct (Hstep i Hi) as (st & Hsti & Hat).
      destruct (overlap_at_spec self n_k n_b n_c i Hwf)
        as (x & y & Hx & Hy & Hlx & Hly & Hat'); [lia|].
      exists x, y. do 4 (split; [done|]). congruence. }
    destruct steps as [|st steps']; [simpl in Hlen; lia|].
    exists (mk_ndarray (length (st :: steps') :: shape st) (map data (st :: steps'))).
    split; [|split].
    + unfold _calc_overlap_matrix. destruct Hwf as (-> & _). simpl.
      assert ((1 <? n_k) = true) as -> by (apply Nat.ltb_lt; lia). simpl.
      by rewrite Hsteps.
    + destruct (Hst 0) as (x & y & _ & _ & _ & _ & H0); [lia|].
      injection H0 as ->. split; [by rewrite Hlen|]. cbn [data].
      split; [by rewrite length_map|].
      apply Forall_lookup_2. intros i sl Hsl.
      change (map data ?l) with (data <$> l) in Hsl.
      rewrite list_lookup_fmap in Hsl. apply fmap_Some in Hsl as (st' & Hst' & ->).
      assert (Hi : i < n_k - 1) by (apply lookup_lt_Some in Hst'; lia).
      destruct (Hst i Hi) as (x' & y' & _ & _ & Hlx & Hly & Hsti).
      rewrite Hsti in Hst'. injection Hst' as <-. simpl.
      split; [by rewrite length_map|].
      apply Forall_forall. intros row [ra [-> _]]%list_elem_of_fmap.
      by rewrite length_map.
    + intros i a b Hi Ha Hb.
      destruct (Hst i Hi) as (x & y & Hx & Hy & Hlx & Hly & Hsti).
      destruct (lookup_lt_is_Some_2 x a) as [ra Hra]; [lia|].
      destruct (lookup_lt_is_Some_2 y b) as [rb Hrb]; [lia|].
      exists ra, rb. unfold lookup3, lookup2. rewrite Hx, Hy. cbn [data].
      change (map data ?l) with (data <$> l).
      rewrite list_lookup_fmap, Hsti. simpl.
      split; [done|]. split; [done|].
      change (map ?f x) with (f <$> x). rewrite list_lookup_fmap, Hra. simpl.
      change (map ?f y) with (f <$> y). by rewrite list_lookup_fmap, Hrb.
  - intros Hne. unfold _calc_overlap_matrix.
    by rewrite bool_decide_eq_false_2.
  - intros n_k Hs Hk. unfold _calc_overlap_matrix.
    destruct (bool_decide (length (shape (wavefunction self)) = 3)); [|done]. simpl.
    rewrite (list_lookup_total_correct _ _ _ Hs).
    by assert ((1 <? n_k) = false) as -> by (apply Nat.ltb_ge; lia).
Qed.

Section inner_product.
Context {Cx Re : Type} {ops : ComplexOps Cx Re}.

Lemma sum_over_components_ext (f g : nat → Cx) n :
  (∀ c, c < n → f c = g c) → sum_over_components f n = sum_over_components g n.
Proof.
  induction n as [|n IH]; intros Heq; simpl; [done|].
  rewrite IH by (intros c Hc; apply Heq; lia). by rewrite Heq by lia.
Qed.

(** The product of the code, a left fold over the zipped rows, is the sum
    over the components in index order. *)
Lemma dot_sum_over_components (x y : list Cx) n :
  length x = n → length y = n →
  dot x (map cconj y) =
    sum_over_components (λ c, cmul (default c0 (x !! c)) (cconj (default c0 (y !! c)))) n.
Proof.
  revert y n. induction x as [|a x IH] using rev_ind; intros y n Hx Hy.
  - simpl in Hx. subst n. by destruct y.
  - rewrite length_app in Hx. simpl in Hx.
    destruct y as [|b y _] using rev_ind; [simpl in Hy; lia|].
    rewrite length_app in Hy. simpl in Hy.
    assert (Hlen : length x = length y) by lia.
    destruct n as [|n]; [lia|]. simpl.
    unfold dot. rewrite map_app.
    rewrite zip_with_app by (by rewrite length_map).
    rewrite foldl_app. simpl. f_equal.
    + fold (zip x (map cconj y)). fold (dot x (map cconj y)).
      rewrite (IH y n) by lia. apply sum_over_components_ext.
      intros c Hc. by rewrite !lookup_app_l by lia.
    + assert (n = length x) as -> by lia.
      rewrite list_lookup_middle by done. rewrite Hlen.
      by rewrite list_lookup_middle by done.
Qed.
End inner_product.

(** C9. For a wavefunction array with exactly three axes (k, band,
    component) and K >= 2 k-points, [_calc_overlap_matrix] returns the
    (K-1, B, B) tensor whose entry [i, a, b] is the modulus of the inner
    product of wavefunction[i, a, :] with the conjugate of
    wavefunction[i+1, b, :], that is of the sum over the components c of
    wavefunction[i, a, c] * conj(wavefunction[i+1, b, c]); it raises,
    returning nothing, when the array does not have exactly three axes or
    when K < 2. *)
Theorem overlap_matrix_is_modulus_of_inner_product {Cx Re : Type} {ops : ComplexOps Cx Re}
    (self : Wavefunction Cx) :
  (∀ n_k n_b n_c,
     wf3 (wavefunction self) n_k n_b n_c → 2 ≤ n_k →
     ∃ o, _calc_overlap_matrix self = Ok o ∧ wf3 o (n_k - 1) n_b n_b ∧
          ∀ i a b, i < n_k - 1 → a < n_b → b < n_b →
            lookup3 (data o) i a b =
              Some (cabs (sum_over_components
                            (λ c, cmul (component self i a c)
                                       (cconj (component self (i + 1) b c))) n_c))) ∧
  (length (shape (wavefunction self)) ≠ 3 →
   _calc_overlap_matrix self = Raise AssertionError) ∧
  (∀ n_k, shape (wavefunction self) !! 0 = Some n_k → n_k < 2 →
   _calc_overlap_matrix self = Raise AssertionError).
Proof.
  destruct (overlap_matrix_entries self) as (Hentries & Haxes & Hk).
  split; [|by split].
  intros n_k n_b n_c Hwf Hnk.
  destruct (Hentries n_k n_b n_c Hwf Hnk) as (o & Hrun & Hwfo & Hent).
  exists o. do 2 (split; [done|]). intros i a b Hi Ha Hb.
  destruct (Hent i a b Hi Ha Hb) as (x & y & Hx & Hy & ->). do 2 f_equal.
  assert (Hrow : ∀ k j row, lookup2 (data (wavefunction self)) k j = Some row →
    length row = n_c ∧ ∀ c, component self k j c = default c0 (row !! c)).
  { intros k j row Hlk. unfold lookup2 in Hlk.
    destruct (data (wavefunction self) !! k) as [sl|] eqn:Hsl; [|done]. simpl in Hlk.
    destruct Hwf as (_ & _ & Hall).
    destruct (Forall_lookup_1 _ _ _ _ Hall Hsl) as (_ & Hrows).
    split; [by apply (Forall_lookup_1 _ _ _ _ Hrows Hlk)|].
    intros c. unfold component, lookup3, lookup2. by rewrite Hsl; simpl; rewrite Hlk. }
  destruct (Hrow _ _ _ Hx) as (Hlx & Hcx). destruct (Hrow _ _ _ Hy) as (Hly & Hcy).
  rewrite (dot_sum_over_components x y n_c) by done.
  apply sum_over_components_ext. intros c _. by rewrite Hcx, Hcy.
Qed.

Lemma overlap_matrix_is_modulus_of_inner_product_witness :
  ∃ o, _calc_overlap_matrix (ops := real_complex) two_band_wavefunction = Ok o ∧
       wf3 o (2 - 1) 2 2 ∧
       ∀ i a b, i < 2 - 1 → a < 2 → b < 2 →
         lookup3 (data o) i a b =
           Some (cabs (ComplexOps := real_complex)
                   (sum_over_components (ops := real_complex)
                      (λ c, cmul (ComplexOps := real_complex)
                              (component (ops := real_complex) two_band_wavefunction i a c)
                              (cconj (ComplexOps := real_complex)
                                 (component (ops := real_complex) two_band_wavefunction (i + 1) b c)))
                      2)).
Proof.
  apply (proj1 (overlap_matrix_is_modulus_of_inner_product (ops := real_complex)
                  two_band_wavefunction) 2 2 2).
  - solve_wf.
  - lia.
Defined.

(** * Further properties of the engine *)

(** ** How the working-index map grows *)

Lemma max_list_unique v (l : list nat) :
  v ∈ l → (∀ x, x ∈ l → x ≤ v) → max_list l = v.
Proof.
  intros Hv Hle. pose proof (max_list_elem_of_le _ _ Hv).
  assert (l ≠ []) as Hne by (intros ->; by apply elem_of_nil in Hv).
  pose proof (Hle _ (max_list_elem_of _ Hne)). lia.
Qed.

Lemma max_list_insert_above (l : list nat) i :
  i < length l → max_list (<[i := max_list l + 1]> l) = max_list l + 1.
Proof.
  intros Hi. apply max_list_unique; [by apply list_elem_of_insert|].
  intros x [j Hj]%list_elem_of_lookup_1.
  apply list_lookup_insert_Some in Hj as [(_ & -> & _) | (_ & Hj)]; [lia|].
  apply list_elem_of_lookup_2, max_list_elem_of_le in Hj. lia.
Qed.

Lemma retirements_snoc self krow kept :
  retirements self (krow ++ [kept]) =
    retirements self krow + (if retires self kept then 1 else 0).
Proof. unfold retirements. rewrite sum_list_with_app. simpl. lia. Qed.

Lemma working_inner_slots self keep i_k krow tmp0 :
  keep !! i_k = Some krow → length krow = length tmp0 →
  ∃ tmp', for_each (range (length tmp0)) (working_inner_body self keep i_k) tmp0 = Ok tmp' ∧
          slot_step self tmp0 krow tmp'.
Proof.
  intros Hk Hklen.
  destruct (for_each_range
    (λ i tmp, length tmp = length tmp0 ∧
       (∀ b, i ≤ b → tmp !! b = tmp0 !! b) ∧
       (∀ b kept, b < i → krow !! b = Some kept →
          if retires self kept then ∃ s, tmp !! b = Some s ∧ max_list tmp0 < s
          else tmp !! b = tmp0 !! b) ∧
       max_list tmp = max_list tmp0 + retirements self (take i krow))
    (length tmp0) (working_inner_body self keep i_k) tmp0)
    as (tmp' & Hrun & Hlen & _ & Hslots & Hmax).
  - split; [done|]. split; [done|]. split; [intros; lia|].
    rewrite take_0. unfold retirements. simpl. lia.
  - intros i tmp Hi (Hlen & Hrest & Hdone & Hmax).
    destruct (lookup_lt_is_Some_2 krow i) as [kept Hkept]; [lia|].
    unfold working_inner_body, getitem2.
    apply getitem_Ok in Hk as Hk'. rewrite Hk'. simpl.
    apply getitem_Ok in Hkept as Hkept'. rewrite Hkept'. simpl.
    rewrite (take_S_r _ _ _ Hkept), retirements_snoc.
    fold (retires self kept). destruct (retires self kept) eqn:Hret.
    + rewrite np_max_Ok by (intros ->; simpl in Hlen; lia). simpl.
      eexists. split; [done|]. rewrite length_insert. split; [done|]. split; [|split].
      * intros b Hb. rewrite list_lookup_insert_ne by lia. apply Hrest. lia.
      * intros b kept' Hb Hkept''. destruct (decide (b = i)) as [->|Hne].
        -- assert (kept' = kept) as -> by congruence. rewrite Hret.
           eexists. split; [apply list_lookup_insert_eq; lia|]. lia.
        -- rewrite list_lookup_insert_ne by lia. apply Hdone; [lia|done].
      * rewrite max_list_insert_above by lia. lia.
    + eexists. split; [done|]. split; [done|]. split; [|split].
      * intros b Hb. apply Hrest. lia.
      * intros b kept' Hb Hkept''. destruct (decide (b = i)) as [->|Hne].
        -- assert (kept' = kept) as -> by congruence. rewrite Hret. by apply Hrest.
        -- apply Hdone; [lia|done].
      * lia.
  - exists tmp'. split; [done|]. split; [done|]. split.
    + intros b kept Hb. apply Hslots; [|done]. apply lookup_lt_Some in Hb. lia.
    + by rewrite Hmax, take_ge by lia.
Qed.

Lemma previous_slots_insert n_b working_indices i row k :
  k ≤ i →
  previous_slots n_b (<[i := row]> working_indices) k = previous_slots n_b working_indices k.
Proof.
  intros Hk. destruct k as [|k']; [done|]. simpl.
  by rewrite list_lookup_insert_ne by lia.
Qed.

(** Every row of the working-index map comes from the row before it by one
    [slot_step]. *)
Lemma working_loop_linked self keep n_k n_b :
  length keep = n_k → Forall (λ krow, length krow = n_b) keep →
  ∃ working_indices,
    working_loop self keep n_k n_b = Ok working_indices ∧
    length working_indices = n_k ∧
    ∀ k, k < n_k →
      ∃ krow row, keep !! k = Some krow ∧ working_indices !! k = Some row ∧
                  length row = n_b ∧
                  slot_step self (previous_slots n_b working_indices k) krow row.
Proof.
  intros Hklen Hkrows.
  destruct (for_each_range
    (λ i (st : list (list nat) * list nat),
       length st.1 = n_k ∧ length st.2 = n_b ∧
       st.2 = previous_slots n_b st.1 i ∧
       ∀ k, k < i →
         ∃ krow row, keep !! k = Some krow ∧ st.1 !! k = Some row ∧
                     length row = n_b ∧
                     slot_step self (previous_slots n_b st.1 k) krow row)
    n_k (working_body self keep n_b)
    (replicate n_k (replicate n_b 0), range n_b))
    as ([W tmp] & Hrun & HW & _ & _ & Hrows).
  - simpl. rewrite length_replicate. unfold range. rewrite length_seq.
    do 3 (split; [done|]). intros k Hk. lia.
  - intros i [W tmp]. simpl. intros Hi (HW & Htl & Hprev & Hrows).
    destruct (lookup_lt_is_Some_2 keep i) as [krow Hkrow]; [lia|].
    pose proof (Forall_lookup_1 _ _ _ _ Hkrows Hkrow) as Hkl. simpl in Hkl.
    destruct (working_inner_slots self keep i krow tmp Hkrow) as (tmp' & Hinner & Hstep);
      [lia|].
    rewrite Htl in Hinner. unfold working_body. rewrite Hinner. simpl.
    eexists. split; [done|]. simpl. rewrite length_insert.
    pose proof Hstep as (Hl' & _).
    split; [done|]. split; [lia|]. split.
    + by rewrite list_lookup_insert_eq by lia.
    + intros k Hk. destruct (decide (k = i)) as [->|Hne].
      * exists krow, tmp'. rewrite list_lookup_insert_eq by lia.
        rewrite previous_slots_insert by lia. rewrite <- Hprev.
        split; [done|]. split; [done|]. split; [lia|done].
      * destruct (Hrows k) as (kr & row & ? & ? & ? & ?); [lia|].
        exists kr, row. rewrite list_lookup_insert_ne by lia.
        by rewrite previous_slots_insert by lia.
  - exists W. simpl in *. unfold working_loop. rewrite Hrun. by simpl.
Qed.

(** Everything the two loops establish, in one place. *)
Lemma engine_spec `{solver : Scipy} self n n_b :
  lsa_optimal solver → (_routine self = 0 ∨ _routine self = 1)%Z →
  wf3 (overlap_matrix self) n n_b n_b →
  ∃ func ind keep working_indices,
    select_routine self = Ok func ∧
    index_and_keep self = Ok (ind, keep) ∧
    working_loop self keep (n + 1) n_b = Ok working_indices ∧
    length ind = n + 1 ∧ length keep = n + 1 ∧ length working_indices = n + 1 ∧
    (∀ k, k ≤ n → row_resolved self func n_b ind keep k) ∧
    (∀ k, k ≤ n →
       ∃ krow row, keep !! k = Some krow ∧ working_indices !! k = Some row ∧
                   length krow = n_b ∧ length row = n_b ∧ NoDup row ∧
                   slot_step self (previous_slots n_b working_indices k) krow row) ∧
    _calc_disentangle_matrix self =
      (let* _ := check_no_growth self working_indices n_b in
       Ok (mk_ndarray [n + 1; n_b] ind, mk_ndarray [n + 1; n_b] working_indices)) ∧
    ((0 < n_b ∨ Qeq_bool (threshold self) 0 = false) →
     check_no_growth self working_indices n_b = Ok ()).
Proof.
  intros Hopt Hr Hwf.
  destruct (calc_disentangle_matrix_spec self n n_b Hopt Hr Hwf)
    as (func & ind & keep & W & Hsel & Hik & HW & Hind & Hkeep & HWl & Hrows & HWrows &
        Hcalc & Hcheck).
  assert (Hkrows : Forall (λ krow, length krow = n_b) keep).
  { apply Forall_lookup_2. intros k krow Hk.
    destruct (Hrows k) as (? & krow' & _ & Hk' & _ & Hlen & _).
    - apply lookup_lt_Some in Hk. lia.
    - congruence. }
  destruct (working_loop_linked self keep (n + 1) n_b Hkeep Hkrows)
    as (W' & HW' & _ & Hlinked).
  assert (W' = W) as -> by congruence.
  exists func, ind, keep, W. do 7 (split; [done|]). split; [|by split].
  intros k Hk. destruct (Hlinked k) as (krow & row & Hkrow & Hrow & Hlen & Hstep); [lia|].
  exists krow, row.
  pose proof (Forall_lookup_1 _ _ _ _ Hkrows Hkrow) as Hkl. simpl in Hkl.
  destruct (Forall_lookup_1 _ _ _ _ HWrows Hrow) as (_ & Hnd & _).
  done.
Qed.

Lemma max_list_range n : 0 < n → max_list (range n) + 1 = n.
Proof.
  intros Hn. rewrite (max_list_unique (n - 1)); [lia| |].
  - apply elem_of_seq. lia.
  - intros x Hx%elem_of_seq. lia.
Qed.

Section linked.
Context (self : Disentangle) (n n_b : nat).
Context (keep : list (list bool)) (W : list (list nat)).
Hypothesis Hlinked : ∀ k, k ≤ n →
  ∃ krow row, keep !! k = Some krow ∧ W !! k = Some row ∧
              length krow = n_b ∧ length row = n_b ∧ NoDup row ∧
              slot_step self (previous_slots n_b W k) krow row.

Lemma linked_row k :
  k ≤ n → ∃ row, W !! k = Some row ∧ length row = n_b ∧ NoDup row.
Proof using Hlinked.
  intros Hk. destruct (Hlinked k Hk) as (_ & row & _ & ? & _ & ? & ? & _). eauto.
Qed.

Lemma linked_max_step k row0 row1 :
  S k ≤ n → W !! k = Some row0 → W !! S k = Some row1 →
  max_list row0 ≤ max_list row1.
Proof using Hlinked.
  intros Hk H0 H1.
  destruct (Hlinked (S k) Hk) as (krow & row & _ & Hrow & _ & _ & _ & _ & _ & Hmax).
  simpl in Hmax. rewrite H0 in Hmax. simpl in Hmax.
  assert (row = row1) as -> by congruence. lia.
Qed.

Lemma linked_max_mono k' k row' row :
  k' ≤ k → k ≤ n → W !! k' = Some row' → W !! k = Some row →
  max_list row' ≤ max_list row.
Proof using Hlinked.
  intros Hle. revert row. induction Hle as [|k Hle IH]; intros row Hk H' H.
  - assert (row' = row) as -> by congruence. done.
  - destruct (linked_row k) as (row0 & H0 & _); [lia|].
    etrans; [apply (IH row0); [lia|done|done]|].
    by eapply linked_max_step.
Qed.

Lemma linked_max_count k row :
  0 < n_b → k ≤ n → W !! k = Some row →
  max_list row + 1 = n_b + sum_list_with (retirements self) (take (S k) keep).
Proof using Hlinked.
  intros Hb. revert row. induction k as [|k IH]; intros row Hk Hrow.
  - destruct (Hlinked 0 Hk) as (krow & row' & Hkrow & Hrow' & _ & _ & _ & _ & _ & Hmax).
    assert (row' = row) as -> by congruence. simpl in Hmax.
    rewrite (take_S_r _ _ _ Hkrow), take_0. simpl.
    pose proof (max_list_range n_b Hb). lia.
  - destruct (Hlinked (S k) Hk) as (krow & row' & Hkrow & Hrow' & _ & _ & _ & _ & _ & Hmax).
    assert (row' = row) as -> by congruence.
    destruct (linked_row k) as (row0 & H0 & _); [lia|].
    simpl in Hmax. rewrite H0 in Hmax. simpl in Hmax.
    rewrite (take_S_r _ _ _ Hkrow), sum_list_with_app. simpl.
    specialize (IH row0 ltac:(lia) H0). lia.
Qed.

Lemma linked_entry k b kept :
  S k ≤ n → lookup2 keep (S k) b = Some kept →
  ∃ row0 row1 s0 s1,
    W !! k = Some row0 ∧ W !! S k = Some row1 ∧
    row0 !! b = Some s0 ∧ row1 !! b = Some s1 ∧
    (retires self kept = false → s1 = s0) ∧
    (retires self kept = true → max_list row0 < s1).
Proof using Hlinked.
  intros Hk Hkept. unfold lookup2 in Hkept.
  destruct (Hlinked (S k) Hk) as (krow & row1 & Hkrow & Hrow1 & Hkl & Hl1 & _ & _ & Hslots & _).
  rewrite Hkrow in Hkept. simpl in Hkept.
  destruct (linked_row k) as (row0 & H0 & Hl0 & _); [lia|].
  simpl in Hslots. rewrite H0 in Hslots. simpl in Hslots.
  assert (Hb : b < n_b) by (apply lookup_lt_Some in Hkept; lia).
  destruct (lookup_lt_is_Some_2 row0 b) as [s0 Hs0]; [lia|].
  destruct (lookup_lt_is_Some_2 row1 b) as [s1 Hs1]; [lia|].
  exists row0, row1, s0, s1. do 4 (split; [done|]).
  specialize (Hslots b kept Hkept). destruct (retires self kept).
  - split; [done|]. intros _. destruct Hslots as (s & Hs & Hlt). congruence.
  - split; [|done]. intros _. congruence.
Qed.
End linked.

Section linked_reuse.
Context (self : Disentangle) (n n_b : nat).
Context (keep : list (list bool)) (W : list (list nat)).
Hypothesis Hlinked : ∀ k, k ≤ n →
  ∃ krow row, keep !! k = Some krow ∧ W !! k = Some row ∧
              length krow = n_b ∧ length row = n_b ∧ NoDup row ∧
              slot_step self (previous_slots n_b W k) krow row.

Lemma linked_not_in_next j row0 row1 s0 :
  S j ≤ n → W !! j = Some row0 → W !! S j = Some row1 →
  s0 ≤ max_list row0 →
  (∀ b kept, row0 !! b = Some s0 → lookup2 keep (S j) b = Some kept →
             retires self kept = true) →
  s0 ∉ row1.
Proof using Hlinked.
  intros Hj H0 H1 Hle Hret [b Hb]%list_elem_of_lookup_1.
  destruct (Hlinked (S j) Hj) as (krow & row1' & Hkrow & Hrow1 & Hkl & Hl1 & _).
  assert (row1' = row1) as -> by congruence.
  destruct (lookup_lt_is_Some_2 krow b) as [kept Hkept];
    [apply lookup_lt_Some in Hb; lia|].
  assert (Hk2 : lookup2 keep (S j) b = Some kept)
    by (unfold lookup2; rewrite Hkrow; done).
  destruct (linked_entry self n n_b keep W Hlinked j b kept Hj Hk2)
    as (r0 & r1 & s & s1 & Hr0 & Hr1 & Hs & Hs1 & Hsame & Hup).
  assert (r0 = row0) as -> by congruence.
  assert (r1 = row1) as -> by congruence.
  assert (s1 = s0) as -> by congruence.
  destruct (retires self kept) eqn:E.
  - specialize (Hup eq_refl). lia.
  - specialize (Hsame eq_refl). subst s.
    specialize (Hret b kept Hs Hk2). congruence.
Qed.

Lemma linked_no_reuse k b kept s0 d row :
  S k + d ≤ n → lookup2 keep (S k) b = Some kept → retires self kept = true →
  lookup2 W k b = Some s0 → W !! (S k + d) = Some row → s0 ∉ row.
Proof using Hlinked.
  intros Hd Hkept Hret Hs0. unfold lookup2 in Hs0.
  destruct (linked_row self n n_b keep W Hlinked k) as (row0 & H0 & _ & Hnd0); [lia|].
  rewrite H0 in Hs0. simpl in Hs0.
  assert (Hle0 : s0 ≤ max_list row0)
    by (eapply max_list_elem_of_le, list_elem_of_lookup_2, Hs0).
  revert row. induction d as [|d IH]; intros row Hrow.
  - rewrite Nat.add_0_r in Hrow.
    eapply (linked_not_in_next k row0 row); [lia|done|done|done|].
    intros b' kept' Hb' Hkept'.
    assert (b' = b) as -> by (by eapply NoDup_lookup).
    congruence.
  - replace (S k + S d) with (S (S k + d)) in Hrow by lia.
    destruct (linked_row self n n_b keep W Hlinked (S k + d)) as (rowj & Hj & _); [lia|].
    eapply (linked_not_in_next (S k + d) rowj row); [lia|done|done| |].
    + etrans; [done|].
      eapply (linked_max_mono self n n_b keep W Hlinked k (S k + d)); [lia|lia|done|done].
    + intros b' kept' Hb' _. exfalso. apply (IH ltac:(lia) rowj Hj).
      by eapply list_elem_of_lookup_2.
Qed.
End linked_reuse.

Lemma calc_returns_the_maps `{solver : Scipy} self n_k n_b ind working_indices r :
  _calc_disentangle_matrix self =
    (let* _ := check_no_growth self working_indices n_b in
     Ok (mk_ndarray [n_k; n_b] ind, mk_ndarray [n_k; n_b] working_indices)) →
  _calc_disentangle_matrix self = Ok r →
  data r.1 = ind ∧ data r.2 = working_indices.
Proof. intros -> H. inv_bind H. by injection H as <-. Qed.

(** X1.  At the first k-point nothing has moved: the rows 0 of the index
    map and of the working-index map are both [0, ..., B-1] and row 0 of
    [keep] is all True, for every overlap tensor, threshold and routine. *)
Theorem first_k_point_is_identity `{solver : Scipy} (self : Disentangle) (n n_b : nat) :
  lsa_optimal solver → (_routine self = 0 ∨ _routine self = 1)%Z →
  wf3 (overlap_matrix self) n n_b n_b →
  ∃ ind keep working_indices,
    index_and_keep self = Ok (ind, keep) ∧
    working_loop self keep (n + 1) n_b = Ok working_indices ∧
    (∀ r, _calc_disentangle_matrix self = Ok r →
          data r.1 = ind ∧ data r.2 = working_indices) ∧
    ind !! 0 = Some (range n_b) ∧
    keep !! 0 = Some (replicate n_b true) ∧
    working_indices !! 0 = Some (range n_b).
Proof.
  intros Hopt Hr Hwf.
  destruct (engine_spec self n n_b Hopt Hr Hwf)
    as (func & ind & keep & W & _ & Hik & HW & _ & _ & _ & Hrows & Hlinked & Hcalc & _).
  exists ind, keep, W. do 2 (split; [done|]).
  split; [intros r Hret; by eapply calc_returns_the_maps|].
  destruct (Hrows 0) as (row & krow & Hrow & Hkrow & _ & _ & -> & ->); [lia|].
  do 2 (split; [done|]).
  destruct (Hlinked 0) as (krow' & wrow & Hkrow' & Hwrow & _ & Hwl & _ & _ & Hslots & _); [lia|].
  assert (krow' = replicate n_b true) as -> by congruence.
  rewrite Hwrow. f_equal. apply list_eq. intros b. simpl in Hslots.
  destruct (decide (b < n_b)) as [Hb|Hb].
  - by apply (Hslots b true), lookup_replicate_2.
  - rewrite !lookup_ge_None_2; [done| |lia].
    unfold range. rewrite length_seq. lia.
Qed.

Lemma first_k_point_is_identity_witness :
  ∃ ind keep working_indices,
    index_and_keep (solver := exhaustive_lsa) (retiring 0) = Ok (ind, keep) ∧
    working_loop (retiring 0) keep (2 + 1) 2 = Ok working_indices ∧
    (∀ r, _calc_disentangle_matrix (solver := exhaustive_lsa) (retiring 0) = Ok r →
          data r.1 = ind ∧ data r.2 = working_indices) ∧
    ind !! 0 = Some (range 2) ∧
    keep !! 0 = Some (replicate 2 true) ∧
    working_indices !! 0 = Some (range 2).
Proof.
  apply (first_k_point_is_identity (solver := exhaustive_lsa) (retiring 0) 2 2).
  - apply exhaustive_lsa_optimal.
  - left. reflexivity.
  - solve_wf.
Defined.

(** X2.  From one k-point to the next a track that is kept (or any track
    when the threshold is 0) stays in its working slot, and a retired track
    moves to a slot above every slot used at this or any earlier
    k-point. *)
Theorem kept_track_stays_retired_moves_up `{solver : Scipy}
    (self : Disentangle) (n n_b : nat) :
  lsa_optimal solver → (_routine self = 0 ∨ _routine self = 1)%Z →
  wf3 (overlap_matrix self) n n_b n_b →
  ∃ ind keep working_indices,
    index_and_keep self = Ok (ind, keep) ∧
    working_loop self keep (n + 1) n_b = Ok working_indices ∧
    (∀ r, _calc_disentangle_matrix self = Ok r → data r.2 = working_indices) ∧
    ∀ k b kept, k < n → lookup2 keep (S k) b = Some kept →
      ∃ s0 s1,
        lookup2 working_indices k b = Some s0 ∧
        lookup2 working_indices (S k) b = Some s1 ∧
        (retires self kept = false → s1 = s0) ∧
        (retires self kept = true →
         ∀ k' b' s, k' ≤ k → lookup2 working_indices k' b' = Some s → s < s1).
Proof.
  intros Hopt Hr Hwf.
  destruct (engine_spec self n n_b Hopt Hr Hwf)
    as (func & ind & keep & W & _ & Hik & HW & _ & _ & _ & _ & Hlinked & Hcalc & _).
  exists ind, keep, W. do 2 (split; [done|]).
  split; [intros r Hret; by eapply (calc_returns_the_maps self _ _ ind W)|].
  intros k b kept Hk Hkept.
  destruct (linked_entry self n n_b keep W Hlinked k b kept ltac:(lia) Hkept)
    as (row0 & row1 & s0 & s1 & H0 & H1 & Hs0 & Hs1 & Hsame & Hup).
  exists s0, s1. unfold lookup2. rewrite H0, H1. simpl.
  do 3 (split; [done|]). intros Hret k' b' s Hk' Hs.
  destruct (W !! k') as [row'|] eqn:Hrow'; [|done]. simpl in Hs.
  pose proof (linked_max_mono self n n_b keep W Hlinked k' k row' row0 Hk'
                ltac:(lia) Hrow' H0).
  pose proof (max_list_elem_of_le _ _ (list_elem_of_lookup_2 _ _ _ Hs)).
  specialize (Hup Hret). lia.
Qed.

Lemma kept_track_stays_retired_moves_up_witness :
  ∃ ind keep working_indices,
    index_and_keep (solver := exhaustive_lsa) (retiring 1) = Ok (ind, keep) ∧
    working_loop (retiring 1) keep (2 + 1) 2 = Ok working_indices ∧
    (∀ r, _calc_disentangle_matrix (solver := exhaustive_lsa) (retiring 1) = Ok r →
          data r.2 = working_indices) ∧
    ∀ k b kept, k < 2 → lookup2 keep (S k) b = Some kept →
      ∃ s0 s1,
        lookup2 working_indices k b = Some s0 ∧
        lookup2 working_indices (S k) b = Some s1 ∧
        (retires (retiring 1) kept = false → s1 = s0) ∧
        (retires (retiring 1) kept = true →
         ∀ k' b' s, k' ≤ k → lookup2 working_indices k' b' = Some s → s < s1).
Proof.
  apply (kept_track_stays_retired_moves_up (solver := exhaustive_lsa) (retiring 1) 2 2).
  - apply exhaustive_lsa_optimal.
  - right. reflexivity.
  - solve_wf.
Defined.

(** X3.  A working slot is never used for two tracks: once the track in
    slot [s0] is retired, [s0] does not occur in the working-index map at
    that or any later k-point. *)
Theorem retired_slot_is_never_reused `{solver : Scipy} (self : Disentangle) (n n_b : nat) :
  lsa_optimal solver → (_routine self = 0 ∨ _routine self = 1)%Z →
  wf3 (overlap_matrix self) n n_b n_b →
  ∃ ind keep working_indices,
    index_and_keep self = Ok (ind, keep) ∧
    working_loop self keep (n + 1) n_b = Ok working_indices ∧
    (∀ r, _calc_disentangle_matrix self = Ok r → data r.2 = working_indices) ∧
    ∀ k b kept s0, k < n →
      lookup2 keep (S k) b = Some kept → retires self kept = true →
      lookup2 working_indices k b = Some s0 →
      ∀ k' b', k < k' → lookup2 working_indices k' b' ≠ Some s0.
Proof.
  intros Hopt Hr Hwf.
  destruct (engine_spec self n n_b Hopt Hr Hwf)
    as (func & ind & keep & W & _ & Hik & HW & _ & _ & HWl & _ & Hlinked & Hcalc & _).
  exists ind, keep, W. do 2 (split; [done|]).
  split; [intros r Hret; by eapply (calc_returns_the_maps self _ _ ind W)|].
  intros k b kept s0 Hk Hkept Hret Hs0 k' b' Hk' Hs.
  unfold lookup2 in Hs. destruct (W !! k') as [row|] eqn:Hrow; [|done]. simpl in Hs.
  assert (Hk'n : k' ≤ n) by (apply lookup_lt_Some in Hrow; lia).
  replace k' with (S k + (k' - S k)) in Hrow by lia.
  eapply (linked_no_reuse self n n_b keep W Hlinked k b kept s0 (k' - S k) row);
    [lia|done|done|done|done|].
  by eapply list_elem_of_lookup_2.
Qed.

Lemma retired_slot_is_never_reused_witness :
  ∃ ind keep working_indices,
    index_and_keep (solver := exhaustive_lsa) (retiring 1) = Ok (ind, keep) ∧
    working_loop (retiring 1) keep (2 + 1) 2 = Ok working_indices ∧
    (∀ r, _calc_disentangle_matrix (solver := exhaustive_lsa) (retiring 1) = Ok r →
          data r.2 = working_indices) ∧
    ∀ k b kept s0, k < 2 →
      lookup2 keep (S k) b = Some kept → retires (retiring 1) kept = true →
      lookup2 working_indices k b = Some s0 →
      ∀ k' b', k < k' → lookup2 working_indices k' b' ≠ Some s0.
Proof.
  apply (retired_slot_is_never_reused (solver := exhaustive_lsa) (retiring 1) 2 2).
  - apply exhaustive_lsa_optimal.
  - right. reflexivity.
  - solve_wf.
Defined.

(** ** The apply operation and the cache *)

(** The maps depend on the tensor, the threshold and the routine only. *)
Lemma calc_disentangle_matrix_ext `{solver : Scipy} self self' :
  overlap_matrix self' = overlap_matrix self → threshold self' = threshold self →
  _routine self' = _routine self →
  _calc_disentangle_matrix self' = _calc_disentangle_matrix self.
Proof.
  destruct self as [ov t c r], self' as [ov' t' c' r']. simpl.
  intros -> -> ->. reflexivity.
Qed.

Lemma linked_max_concat self n n_b (keep : list (list bool)) (W : list (list nat)) row :
  (∀ k, k ≤ n →
     ∃ krow row, keep !! k = Some krow ∧ W !! k = Some row ∧
                 length krow = n_b ∧ length row = n_b ∧ NoDup row ∧
                 slot_step self (previous_slots n_b W k) krow row) →
  0 < n_b → length W = n + 1 → W !! n = Some row →
  max_list (concat W) = max_list row.
Proof.
  intros Hlinked Hb HWl Hrow.
  destruct (linked_row self n n_b keep W Hlinked n) as (row' & Hrow' & Hlen & _); [lia|].
  assert (row' = row) as -> by congruence.
  apply max_list_unique.
  - apply list_elem_of_In, in_concat. exists row.
    split; apply list_elem_of_In; [by eapply list_elem_of_lookup_2|].
    apply max_list_elem_of. intros ->. simpl in Hlen. lia.
  - intros x Hx. apply list_elem_of_In, in_concat in Hx as (r & Hr & Hx).
    apply list_elem_of_In in Hr, Hx. apply list_elem_of_lookup_1 in Hr as [k Hk].
    etrans; [by apply max_list_elem_of_le|].
    eapply (linked_max_mono self n n_b keep W Hlinked k n); [|lia|done|done].
    apply lookup_lt_Some in Hk. lia.
Qed.

(** The engine facts in the form [apply_disentanglement_spec] takes them. *)
Lemma engine_maps `{solver : Scipy} self n n_b :
  lsa_optimal solver → (_routine self = 0 ∨ _routine self = 1)%Z →
  wf3 (overlap_matrix self) n n_b n_b → 0 < n_b →
  ∃ ind keep working_indices,
    index_and_keep self = Ok (ind, keep) ∧
    _calc_disentangle_matrix self =
      Ok (mk_ndarray [n + 1; n_b] ind, mk_ndarray [n + 1; n_b] working_indices) ∧
    length ind = n + 1 ∧ Forall (λ ind_k, ind_k ≡ₚ range n_b) ind ∧
    length keep = n + 1 ∧
    length working_indices = n + 1 ∧
    Forall (λ w_k, length w_k = n_b ∧ NoDup w_k) working_indices ∧
    (∀ k, k ≤ n →
       ∃ krow row, keep !! k = Some krow ∧ working_indices !! k = Some row ∧
                   length krow = n_b ∧ length row = n_b ∧ NoDup row ∧
                   slot_step self (previous_slots n_b working_indices k) krow row).
Proof.
  intros Hopt Hr Hwf Hb.
  destruct (engine_spec self n n_b Hopt Hr Hwf)
    as (func & ind & keep & W & _ & Hik & _ & Hind & Hkeep & HWl & Hrows & Hlinked &
        Hcalc & Hcheck).
  exists ind, keep, W. split; [done|]. split.
  { by rewrite Hcalc, Hcheck by auto. }
  split; [done|]. split.
  { apply Forall_lookup_2. intros k row Hrow.
    destruct (Hrows k) as (row' & _ & Hrow' & _ & Hperm & _).
    - apply lookup_lt_Some in Hrow. lia.
    - congruence. }
  do 2 (split; [done|]). split; [|done].
  apply Forall_lookup_2. intros k row Hrow.
  destruct (Hlinked k) as (_ & row' & _ & Hrow' & _ & ? & ? & _).
  - apply lookup_lt_Some in Hrow. lia.
  - by assert (row' = row) as -> by congruence.
Qed.

(** X4.  The band axis of the output grows by one slot per retired track:
    with at least one band, max(WorkingIndexMap) + 1 is B plus the number of
    (k, band) entries that the second loop retires, row by row and in total,
    and that is the band-axis size of what the apply operation returns. *)
Theorem band_axis_counts_retirements `{solver : Scipy} {D} {dtype : Dtype D}
    (self : Disentangle) (matrix : array2 (cell D)) (n n_b : nat) :
  lsa_optimal solver → (_routine self = 0 ∨ _routine self = 1)%Z →
  wf3 (overlap_matrix self) n n_b n_b → 0 < n_b →
  (∀ c, _disentangle_matrix self = Some c → _calc_disentangle_matrix self = Ok c) →
  wf_leading matrix (n + 1) n_b →
  ∃ ind keep working_indices out self',
    index_and_keep self = Ok (ind, keep) ∧
    _calc_disentangle_matrix self =
      Ok (mk_ndarray [n + 1; n_b] ind, mk_ndarray [n + 1; n_b] working_indices) ∧
    (∀ k row, working_indices !! k = Some row →
       max_list row + 1 = n_b + sum_list_with (retirements self) (take (S k) keep)) ∧
    np_max (concat working_indices) =
      Ok (n_b + sum_list_with (retirements self) keep - 1) ∧
    _apply_disentanglement self matrix = Ok (out, self') ∧
    shape out = <[1 := n_b + sum_list_with (retirements self) keep]> (shape matrix).
Proof.
  intros Hopt Hr Hwf Hb Hcache Hm.
  destruct (engine_maps self n n_b Hopt Hr Hwf Hb)
    as (ind & keep & W & Hik & Hcalc & Hind & Hirows & Hkeep & HWl & HWrows & Hlinked).
  destruct (apply_disentanglement_spec self matrix n n_b ind W)
    as (out & self' & Happly & _); [done..|].
  assert (Hrowmax : ∀ k row, W !! k = Some row →
    max_list row + 1 = n_b + sum_list_with (retirements self) (take (S k) keep)).
  { intros k row Hrow.
    eapply (linked_max_count self n n_b keep W Hlinked); [done| |done].
    apply lookup_lt_Some in Hrow. lia. }
  destruct (lookup_lt_is_Some_2 W n) as [last Hlast]; [lia|].
  pose proof (linked_max_concat self n n_b keep W last Hlinked Hb HWl Hlast) as Hmax.
  pose proof (Hrowmax n last Hlast) as Hcount.
  rewrite take_ge in Hcount by lia.
  assert (Hsize : max_list (concat W) + 1 = n_b + sum_list_with (retirements self) keep)
    by lia.
  eexists ind, keep, W, _, self'. do 3 (split; [done|]). split; [|split].
  - rewrite np_max_Ok; [f_equal; lia|].
    apply (concat_rows_nonempty W (n + 1) n_b); [done|lia|done|].
    eapply Forall_impl; [done|]. by intros ? [? _].
  - done.
  - simpl. by rewrite Hsize.
Qed.

Lemma band_axis_counts_retirements_witness :
  ∃ ind keep working_indices out self',
    index_and_keep (solver := exhaustive_lsa) (retiring 1) = Ok (ind, keep) ∧
    _calc_disentangle_matrix (solver := exhaustive_lsa) (retiring 1) =
      Ok (mk_ndarray [2 + 1; 2] ind, mk_ndarray [2 + 1; 2] working_indices) ∧
    (∀ k row, working_indices !! k = Some row →
       max_list row + 1 = 2 + sum_list_with (retirements (retiring 1)) (take (S k) keep)) ∧
    np_max (concat working_indices) =
      Ok (2 + sum_list_with (retirements (retiring 1)) keep - 1) ∧
    _apply_disentanglement (solver := exhaustive_lsa) (retiring 1) scenario_energy =
      Ok (out, self') ∧
    shape out =
      <[1 := 2 + sum_list_with (retirements (retiring 1)) keep]> (shape scenario_energy).
Proof.
  apply (band_axis_counts_retirements (solver := exhaustive_lsa)
           (retiring 1) scenario_energy 2 2).
  - apply exhaustive_lsa_optimal.
  - right. reflexivity.
  - solve_wf.
  - lia.
  - intros c Hc. discriminate Hc.
  - solve_wf.
Defined.

Lemma scattered_slot {T} (nan : T) m row ind_k w_k out_row n_b s :
  length w_k = n_b → ind_k ≡ₚ range n_b →
  scattered nan m row ind_k w_k out_row → s ≤ m →
  (∃ b j, w_k !! b = Some s ∧ ind_k !! b = Some j ∧ j < n_b ∧
          is_Some (row !! j) ∧ out_row !! s = row !! j) ∨
  ((s ∉ w_k) ∧ out_row !! s = Some nan).
Proof.
  intros Hwl Hperm (_ & Hread & Hnan) Hs.
  destruct (decide (s ∈ w_k)) as [Hin|Hnotin]; [left|right; by auto].
  apply list_elem_of_lookup_1 in Hin as [b Hb].
  destruct (lookup_lt_is_Some_2 ind_k b) as [j Hj].
  { rewrite (Permutation_range_length _ _ Hperm). apply lookup_lt_Some in Hb. lia. }
  exists b, j. do 2 (split; [done|]). split.
  - apply list_elem_of_lookup_2 in Hj. rewrite Hperm in Hj. apply elem_of_seq in Hj. lia.
  - by apply (Hread b).
Qed.

(** X5.  Energies and projected densities stay aligned.  Applying the
    engine to one data array and then, with the engine as the first call left
    it, to another one reuses the cached maps and leaves the engine as it
    is; the two outputs have the same band axis, and every output position
    either holds in both the float64 conversion of the values of one and the
    same input position, or is NaN in both. *)
Theorem two_applications_are_aligned `{solver : Scipy} {D1 D2}
    {dtype1 : Dtype D1} {dtype2 : Dtype D2}
    (self : Disentangle) (energy : array2 (cell D1)) (density : array2 (cell D2))
    (n n_b : nat) :
  lsa_optimal solver → (_routine self = 0 ∨ _routine self = 1)%Z →
  wf3 (overlap_matrix self) n n_b n_b → 0 < n_b →
  (∀ c, _disentangle_matrix self = Some c → _calc_disentangle_matrix self = Ok c) →
  wf_leading energy (n + 1) n_b → wf_leading density (n + 1) n_b →
  ∃ out1 out2 self' m,
    _apply_disentanglement self energy = Ok (out1, self') ∧
    _apply_disentanglement self' density = Ok (out2, self') ∧
    shape out1 !! 1 = Some (m + 1) ∧ shape out2 !! 1 = Some (m + 1) ∧
    ∀ k s, k ≤ n → s ≤ m →
      (∃ j v1 v2,
         lookup2 (data energy) k j = Some v1 ∧ lookup2 (data density) k j = Some v2 ∧
         lookup2 (data out1) k s = Some (cell_map astype_float64 v1) ∧
         lookup2 (data out2) k s = Some (cell_map astype_float64 v2)) ∨
      (lookup2 (data out1) k s = Some (np_full_nan (drop 2 (shape energy))) ∧
       lookup2 (data out2) k s = Some (np_full_nan (drop 2 (shape density)))).
Proof.
  intros Hopt Hr Hwf Hb Hcache He Hd.
  destruct (engine_maps self n n_b Hopt Hr Hwf Hb)
    as (ind & keep & W & _ & Hcalc & Hind & Hirows & _ & HWl & HWrows & _).
  destruct (apply_disentanglement_spec self energy n n_b ind W)
    as (o1 & self' & Happly1 & Hc' & Hov & Ht & Hro & _ & Hol1 & Hrows1); [done..|].
  assert (Hcalc' : _calc_disentangle_matrix self' =
            Ok (mk_ndarray [n + 1; n_b] ind, mk_ndarray [n + 1; n_b] W))
    by (by rewrite (calc_disentangle_matrix_ext self self')).
  destruct (apply_disentanglement_spec self' density n n_b ind W)
    as (o2 & self'' & Happly2 & _ & _ & _ & _ & Hhit & Hol2 & Hrows2); [done| |done..|].
  { intros c Hc. rewrite Hc' in Hc. injection Hc as <-. done. }
  rewrite Hhit in Happly2 by (by rewrite Hc').
  eexists _, _, self', (max_list (concat W)).
  split; [done|]. split; [done|].
  destruct He as (Hse & _), Hd as (Hsd & _).
  split; [|split].
  { simpl. destruct (shape energy) as [|? [|? ?]]; try done. }
  { simpl. destruct (shape density) as [|? [|? ?]]; try done. }
  intros k s Hk Hs. simpl.
  destruct (Hrows1 k Hk)
    as (row1 & ind_k & w_k & or1 & Hr1 & Hik & Hwk & Hor1 & _ & Hperm & Hwl & _ & _ & Hsc1).
  destruct (Hrows2 k Hk)
    as (row2 & ind_k' & w_k' & or2 & Hr2 & Hik' & Hwk' & Hor2 & _ & _ & _ & _ & _ & Hsc2).
  assert (ind_k' = ind_k) as -> by congruence.
  assert (w_k' = w_k) as -> by congruence.
  unfold lookup2. rewrite Hr1, Hr2, Hor1, Hor2. simpl.
  destruct (scattered_slot _ _ _ ind_k w_k or1 n_b s Hwl Hperm Hsc1 Hs)
    as [(b & j & Hbs & Hbj & _ & _ & Ho1) | (Hnotin & Ho1)].
  - left. destruct Hsc2 as (_ & Hread2 & _).
    destruct (Hread2 b j s Hbj Hbs) as (_ & Ho2).
    rewrite list_lookup_fmap in Ho1. rewrite list_lookup_fmap in Ho2.
    destruct (row1 !! j) as [v1|] eqn:Hv1.
    2:{ simpl in Ho1. destruct Hsc1 as (_ & Hread1 & _).
        destruct (Hread1 b j s Hbj Hbs) as ([? Hsome] & _).
        by rewrite list_lookup_fmap, Hv1 in Hsome. }
    destruct (row2 !! j) as [v2|] eqn:Hv2.
    2:{ destruct (Hread2 b j s Hbj Hbs) as ([? Hsome] & _).
        by rewrite list_lookup_fmap, Hv2 in Hsome. }
    exists j, v1, v2. by rewrite Ho1, Ho2.
  - right. destruct Hsc2 as (_ & _ & Hnan2). split; [done|]. by apply Hnan2.
Qed.

Lemma two_applications_are_aligned_witness :
  ∃ out1 out2 self' m,
    _apply_disentanglement (solver := exhaustive_lsa) (retiring 1) scenario_energy =
      Ok (out1, self') ∧
    _apply_disentanglement (solver := exhaustive_lsa) self' scenario_density =
      Ok (out2, self') ∧
    shape out1 !! 1 = Some (m + 1) ∧ shape out2 !! 1 = Some (m + 1) ∧
    ∀ k s, k ≤ 2 → s ≤ m →
      (∃ j v1 v2,
         lookup2 (data scenario_energy) k j = Some v1 ∧
         lookup2 (data scenario_density) k j = Some v2 ∧
         lookup2 (data out1) k s = Some (cell_map astype_float64 v1) ∧
         lookup2 (data out2) k s = Some (cell_map astype_float64 v2)) ∨
      (lookup2 (data out1) k s = Some (np_full_nan (drop 2 (shape scenario_energy))) ∧
       lookup2 (data out2) k s = Some (np_full_nan (drop 2 (shape scenario_density)))).
Proof.
  apply (two_applications_are_aligned (solver := exhaustive_lsa)
           (retiring 1) scenario_energy scenario_density 2 2).
  - apply exhaustive_lsa_optimal.
  - right. reflexivity.
  - solve_wf.
  - lia.
  - intros c Hc. discriminate Hc.
  - solve_wf.
  - solve_wf.
Defined.

Lemma Permutation_of_eq {A} (l k : list A) : l = k → l ≡ₚ k.
Proof. by intros ->. Qed.

Lemma omap_id_Some {A} (l : list A) : omap (λ o : option A, o) (Some <$> l) = l.
Proof. induction l as [|x l IH]; [done|]. csimpl. by rewrite IH. Qed.

Lemma lookup_range_fmap {A} (l : list A) : (l !!.) <$> range (length l) = Some <$> l.
Proof.
  apply list_eq. intros i. rewrite !list_lookup_fmap.
  destruct (decide (i < length l)) as [Hi|Hi].
  - unfold range. rewrite lookup_seq_lt by done. simpl.
    destruct (lookup_lt_is_Some_2 l i Hi) as [x Hx]. by rewrite Hx.
  - unfold range. rewrite lookup_seq_ge by lia. by rewrite lookup_ge_None_2 by lia.
Qed.

Lemma fmap_constant {A B} (f : A → B) c l :
  Forall (λ x, f x = c) l → f <$> l = replicate (length l) c.
Proof. induction 1 as [|x l Hx _ IH]; [done|]. csimpl. by rewrite Hx, IH. Qed.

Lemma range_split_by_slots (w_k : list nat) n_slots :
  NoDup w_k → Forall (λ s, s < n_slots) w_k →
  range n_slots ≡ₚ w_k ++ filter (λ s, s ∉ w_k) (range n_slots).
Proof.
  intros Hnd Hlt.
  rewrite <- (filter_app_complement (λ s, s ∈ w_k) (range n_slots)) at 1.
  apply Permutation_app_tail. apply NoDup_Permutation; [|done|].
  - apply NoDup_filter, NoDup_seq.
  - intros s. rewrite list_elem_of_filter. unfold range. rewrite elem_of_seq.
    split; [tauto|]. intros Hs. split; [done|].
    pose proof (proj1 (Forall_forall _ _) Hlt s Hs). simpl in *. lia.
Qed.

Lemma scattered_Permutation {T} (nan : T) m row ind_k w_k out_row n_b :
  length row = n_b → ind_k ≡ₚ range n_b → length w_k = n_b → NoDup w_k →
  Forall (λ s, s ≤ m) w_k →
  scattered nan m row ind_k w_k out_row →
  out_row ≡ₚ row ++ replicate (m + 1 - n_b) nan.
Proof.
  intros Hrl Hperm Hwl Hnd Hle (Hol & Hread & Hnan).
  rewrite <- (omap_id_Some out_row), <- (omap_id_Some (row ++ _)).
  apply omap_Permutation.
  rewrite <- lookup_range_fmap, Hol.
  assert (Hlt : Forall (λ s, s < m + 1) w_k).
  { eapply Forall_impl; [done|]. simpl. lia. }
  pose proof (range_split_by_slots w_k (m + 1) Hnd Hlt) as Hsplit.
  rewrite Hsplit, !fmap_app, fmap_replicate.
  assert (Hrest : length (filter (λ s, s ∉ w_k) (range (m + 1))) = m + 1 - n_b).
  { apply Permutation_length in Hsplit. rewrite length_app in Hsplit.
    unfold range in Hsplit at 1. rewrite length_seq in Hsplit. lia. }
  apply Permutation_app.
  - rewrite <- (lookup_range_fmap row), Hrl, <- Hperm.
    apply Permutation_of_eq, list_eq. intros b. rewrite !list_lookup_fmap.
    pose proof (Permutation_range_length _ _ Hperm) as Hil.
    destruct (decide (b < n_b)) as [Hb|Hb].
    + destruct (lookup_lt_is_Some_2 w_k b) as [s Hs]; [lia|].
      destruct (lookup_lt_is_Some_2 ind_k b) as [j Hj]; [lia|].
      rewrite Hs, Hj. simpl. f_equal. by apply (Hread b).
    + by rewrite !lookup_ge_None_2 by lia.
  - rewrite <- Hrest. apply Permutation_of_eq, fmap_constant.
    apply Forall_forall. intros s [Hnotin Hs%elem_of_seq]%list_elem_of_filter.
    apply Hnan; [lia|done].
Qed.

(** X6.  The apply operation drops no cell and copies none twice: with at
    least one band, every row of the output is a rearrangement of the
    corresponding row of the data, converted to float64, followed by
    max(WorkingIndexMap) + 1 - B NaN cells. *)
Theorem apply_rearranges_each_row `{solver : Scipy} {D} {dtype : Dtype D}
    (self : Disentangle) (matrix : array2 (cell D)) (n n_b : nat) :
  lsa_optimal solver → (_routine self = 0 ∨ _routine self = 1)%Z →
  wf3 (overlap_matrix self) n n_b n_b → 0 < n_b →
  (∀ c, _disentangle_matrix self = Some c → _calc_disentangle_matrix self = Ok c) →
  wf_leading matrix (n + 1) n_b →
  ∃ out self' m,
    _apply_disentanglement self matrix = Ok (out, self') ∧
    shape out !! 1 = Some (m + 1) ∧
    length (data out) = n + 1 ∧
    ∀ k row, data matrix !! k = Some row →
      ∃ out_row, data out !! k = Some out_row ∧
                 out_row ≡ₚ (cell_map astype_float64 <$> row) ++
                            replicate (m + 1 - n_b) (np_full_nan (drop 2 (shape matrix))).
Proof.
  intros Hopt Hr Hwf Hb Hcache Hm.
  destruct (engine_maps self n n_b Hopt Hr Hwf Hb)
    as (ind & keep & W & _ & Hcalc & Hind & Hirows & _ & HWl & HWrows & _).
  destruct (apply_disentanglement_spec self matrix n n_b ind W)
    as (out & self' & Happly & _ & _ & _ & _ & _ & Hol & Hrows); [done..|].
  eexists _, self', (max_list (concat W)). split; [done|].
  destruct Hm as (Hsh & Hml & _). split; [|split; [done|]].
  { simpl. destruct (shape matrix) as [|? [|? ?]]; try done. }
  intros k row Hrow. simpl.
  destruct (Hrows k) as (row' & ind_k & w_k & out_row & Hrow' & _ & _ & Hor & ? & ? & ? & ? & ? & ?).
  { apply lookup_lt_Some in Hrow. lia. }
  assert (row' = row) as -> by congruence.
  exists out_row. split; [done|].
  eapply scattered_Permutation; [|done..]. by rewrite length_fmap.
Qed.

Lemma apply_rearranges_each_row_witness :
  ∃ out self' m,
    _apply_disentanglement (solver := exhaustive_lsa) (retiring 1) scenario_amplitude =
      Ok (out, self') ∧
    shape out !! 1 = Some (m + 1) ∧
    length (data out) = 2 + 1 ∧
    ∀ k row, data scenario_amplitude !! k = Some row →
      ∃ out_row, data out !! k = Some out_row ∧
                 out_row ≡ₚ (cell_map astype_float64 <$> row) ++
                            replicate (m + 1 - 2)
                              (np_full_nan (drop 2 (shape scenario_amplitude))).
Proof.
  apply (apply_rearranges_each_row (solver := exhaustive_lsa)
           (retiring 1) scenario_amplitude 2 2).
  - apply exhaustive_lsa_optimal.
  - right. reflexivity.
  - solve_wf.
  - lia.
  - intros c Hc. discriminate Hc.
  - solve_wf.
Defined.

(** X7.  The cache outlives a change of the threshold but not of the
    routine.  Once [disentangle_matrix] has returned a pair, it returns the
    same pair again without touching the engine, also after the threshold
    attribute is overwritten, so the apply operation keeps producing the
    same output; setting the routine clears the cache and leaves the engine
    as if it had never been used. *)
Theorem cache_ignores_threshold_until_routine_is_set `{solver : Scipy}
    (self self' : Disentangle) (c : array2 nat * array2 nat) :
  disentangle_matrix self = Ok (c, self') →
  disentangle_matrix self' = Ok (c, self') ∧
  (∀ t, disentangle_matrix (set_threshold self' t) = Ok (c, set_threshold self' t)) ∧
  (∀ t (D : Type) (dtype : Dtype D) (matrix : array2 (cell D)) out s,
     _apply_disentanglement self' matrix = Ok (out, s) →
     _apply_disentanglement (set_threshold self' t) matrix =
       Ok (out, set_threshold self' t)) ∧
  (∀ use, set_routine self' use = set_routine self use ∧
          _disentangle_matrix (set_routine self' use) = None).
Proof.
  intros Hdm.
  assert (Hc : _disentangle_matrix self' = Some c ∧
               overlap_matrix self' = overlap_matrix self ∧
               threshold self' = threshold self).
  { unfold disentangle_matrix in Hdm.
    destruct (_disentangle_matrix self) as [c0|] eqn:E.
    - injection Hdm as -> ->. done.
    - inv_bind Hdm. injection Hdm as <- <-. done. }
  destruct Hc as (Hc & Hov & Ht).
  assert (Hhit : ∀ s, _disentangle_matrix s = Some c → disentangle_matrix s = Ok (c, s)).
  { intros s Hs. unfold disentangle_matrix. by rewrite Hs. }
  split; [by apply Hhit|]. split; [intros t; by apply Hhit|]. split.
  - intros t D dtype matrix out s. unfold _apply_disentanglement.
    rewrite !Hhit by done. destruct c as [ind W]. simpl.
    repeat (match goal with |- context [if ?b then _ else _] => destruct b end;
            [done|]).
    destruct (shape W) as [|? [|? [|]]]; try done.
    intros H. inv_bind H. injection H as <- _. rewrite Hb. simpl. by rewrite Hb0.
  - intros use. split; [|done]. unfold set_routine. by rewrite Hov, Ht.
Qed.

Lemma cache_ignores_threshold_until_routine_is_set_witness :
  ∃ c self',
    disentangle_matrix (solver := exhaustive_lsa) (retiring 1) = Ok (c, self') ∧
    disentangle_matrix (solver := exhaustive_lsa) self' = Ok (c, self') ∧
    (∀ t, disentangle_matrix (solver := exhaustive_lsa) (set_threshold self' t) =
            Ok (c, set_threshold self' t)) ∧
    (∀ t (D : Type) (dtype : Dtype D) (matrix : array2 (cell D)) out s,
       _apply_disentanglement (solver := exhaustive_lsa) self' matrix = Ok (out, s) →
       _apply_disentanglement (solver := exhaustive_lsa) (set_threshold self' t) matrix =
         Ok (out, set_threshold self' t)) ∧
    (∀ use, set_routine self' use = set_routine (retiring 1) use ∧
            _disentangle_matrix (set_routine self' use) = None).
Proof.
  do 2 eexists. split; [reflexivity|].
  apply (cache_ignores_threshold_until_routine_is_set (solver := exhaustive_lsa) (retiring 1)).
  reflexivity.
Defined.

Lemma concat_empty_rows {A} (rows : list (list A)) :
  Forall (λ row, length row = 0) rows → concat rows = [].
Proof.
  induction 1 as [|row rows Hrow _ IH]; [done|].
  simpl. rewrite IH. by destruct row.
Qed.

(** X8.  When [_calc_disentangle_matrix] returns and when it raises.  A
    tensor that has not three axes, a tensor with slices that are not
    square and a routine other than 0 and 1 fail an assertion.  Otherwise
    the call returns two maps of shape (K, B), except for a system without
    bands at threshold 0, where the closing assertion takes the maximum of an
    empty map and raises ValueError. *)
Theorem calc_returns_or_raises `{solver : Scipy} (self : Disentangle) :
  (length (shape (overlap_matrix self)) ≠ 3 →
   _calc_disentangle_matrix self = Raise AssertionError) ∧
  (∀ n_k n_b n_b_2, shape (overlap_matrix self) = [n_k; n_b; n_b_2] → n_b ≠ n_b_2 →
   _calc_disentangle_matrix self = Raise AssertionError) ∧
  (∀ n_k n_b, shape (overlap_matrix self) = [n_k; n_b; n_b] →
   _routine self ≠ 0%Z → _routine self ≠ 1%Z →
   _calc_disentangle_matrix self = Raise AssertionError) ∧
  (∀ n n_b, lsa_optimal solver → (_routine self = 0 ∨ _routine self = 1)%Z →
   wf3 (overlap_matrix self) n n_b n_b →
   (n_b = 0 → (threshold self == 0)%Q →
    _calc_disentangle_matrix self = Raise ValueError) ∧
   (0 < n_b ∨ ¬ (threshold self == 0)%Q →
    ∃ r, _calc_disentangle_matrix self = Ok r ∧
         shape r.1 = [n + 1; n_b] ∧ shape r.2 = [n + 1; n_b] ∧
         length (data r.1) = n + 1 ∧ length (data r.2) = n + 1)).
Proof.
  split; [|split; [|split]].
  - intros Hne. unfold _calc_disentangle_matrix.
    destruct (shape (overlap_matrix self)) as [|? [|? [|? [|]]]]; done.
  - intros n_k n_b n_b_2 Hs Hne. unfold _calc_disentangle_matrix.
    by rewrite Hs, (proj2 (Nat.eqb_neq _ _) Hne).
  - intros n_k n_b Hs H0 H1. unfold _calc_disentangle_matrix, select_routine.
    rewrite Hs, Nat.eqb_refl. simpl.
    by rewrite (proj2 (Z.eqb_neq _ _) H0), (proj2 (Z.eqb_neq _ _) H1).
  - intros n n_b Hopt Hr Hwf.
    destruct (engine_spec self n n_b Hopt Hr Hwf)
      as (func & ind & keep & W & _ & _ & _ & Hind & _ & HWl & _ & Hlinked & Hcalc & Hcheck).
    split.
    + intros -> Hz. rewrite Hcalc. unfold check_no_growth.
      apply Qeq_bool_iff in Hz. rewrite Hz.
      rewrite concat_empty_rows; [done|].
      apply Forall_lookup_2. intros k row Hrow.
      destruct (Hlinked k) as (_ & row' & _ & Hrow' & _ & ? & _).
      * apply lookup_lt_Some in Hrow. lia.
      * by assert (row' = row) as -> by congruence.
    + intros Hor. rewrite Hcalc, Hcheck.
      * simpl. eexists. by split.
      * destruct Hor as [?|Hnz]; [by left|right].
        destruct (Qeq_bool (threshold self) 0) eqn:E; [|done].
        by apply Qeq_bool_iff in E.
Qed.

Lemma calc_returns_or_raises_witness :
  (0 = 0 → (threshold (no_bands 0 1) == 0)%Q →
   _calc_disentangle_matrix (solver := exhaustive_lsa) (no_bands 0 1) = Raise ValueError) ∧
  (0 < 2 ∨ ¬ (threshold (retiring 1) == 0)%Q →
   ∃ r, _calc_disentangle_matrix (solver := exhaustive_lsa) (retiring 1) = Ok r ∧
        shape r.1 = [2 + 1; 2] ∧ shape r.2 = [2 + 1; 2] ∧
        length (data r.1) = 2 + 1 ∧ length (data r.2) = 2 + 1).
Proof.
  split.
  - apply (proj1 (proj2 (proj2 (proj2
             (calc_returns_or_raises (solver := exhaustive_lsa) (no_bands 0 1))))
             1 0 exhaustive_lsa_optimal (or_intror eq_refl)
             ltac:(solve_wf))).
  - apply (proj2 (proj2 (proj2 (proj2
             (calc_returns_or_raises (solver := exhaustive_lsa) (retiring 1))))
             2 2 exhaustive_lsa_optimal (or_intror eq_refl)
             ltac:(solve_wf))).
Defined.

(** ** What the greedy routine picks *)

Lemma argmax_from_spec pre l best_i best i :
  i = length pre → best_i < i → pre !! best_i = Some best →
  (∀ j x, pre !! j = Some x → (x <= best)%Q) →
  (∀ j x, j < best_i → pre !! j = Some x → (x < best)%Q) →
  ∃ v, (pre ++ l) !! argmax_from best_i best i l = Some v ∧
       (∀ j x, (pre ++ l) !! j = Some x → (x <= v)%Q) ∧
       (∀ j x, j < argmax_from best_i best i l →
               (pre ++ l) !! j = Some x → (x < v)%Q).
Proof.
  revert pre best_i best i.
  induction l as [|x l IH]; intros pre best_i best i Hi Hbi Hbest Hle Hlt.
  - simpl. rewrite app_nil_r. eauto.
  - simpl. rewrite (cons_middle x pre l), app_assoc.
    assert (Hi' : S i = length (pre ++ [x])) by (rewrite length_app; simpl; lia).
    destruct (Qgtb x best) eqn:E.
    + apply Qgtb_true in E. apply IH; [done|lia| | |].
      * subst i. by apply list_lookup_middle.
      * intros j y [(_ & Hy) | (_ & ->)]%lookup_snoc_Some; [|apply Qle_refl].
        apply Qlt_le_weak. eapply Qle_lt_trans; [by eapply Hle|done].
      * intros j y Hj [(_ & Hy) | (Hj' & _)]%lookup_snoc_Some; [|lia].
        eapply Qle_lt_trans; [by eapply Hle|done].
    + apply Qgtb_false in E. apply IH; [done|lia| | |].
      * by rewrite lookup_app_l by lia.
      * intros j y [(_ & Hy) | (_ & ->)]%lookup_snoc_Some; [by eapply Hle|done].
      * intros j y Hj [(_ & Hy) | (Hj' & _)]%lookup_snoc_Some; [by eapply Hlt|lia].
Qed.

Lemma np_argmax_spec l k :
  np_argmax l = Ok k →
  ∃ v, l !! k = Some v ∧
       (∀ j x, l !! j = Some x → (x <= v)%Q) ∧
       (∀ j x, j < k → l !! j = Some x → (x < v)%Q).
Proof.
  destruct l as [|x l]; [done|]. intros [= <-].
  apply (argmax_from_spec [x] l 0 x 1); simpl; [done|lia|done| |].
  - intros [|j] y; [intros [= <-]; apply Qle_refl|done].
  - intros j y Hj. lia.
Qed.

Lemma ascending_range n : ascending (range n).
Proof.
  intros p q a b Hpq Hp Hq. unfold range in *.
  apply lookup_seq in Hp as [-> _]. apply lookup_seq in Hq as [-> _]. lia.
Qed.

Lemma ascending_delete l k : ascending l → ascending (delete k l).
Proof.
  intros Hasc p q a b Hpq Hp Hq.
  rewrite list_lookup_delete in Hp, Hq.
  destruct (decide (p < k)), (decide (q < k));
    (eapply (Hasc _ _ a b); [|done|done]; lia).
Qed.

Lemma entry_lookup (m : list (list Q)) i j row y :
  m !! i = Some row → row !! j = Some y → entry m i j = y.
Proof. intros Hrow Hy. unfold entry. rewrite Hrow. simpl. by rewrite Hy. Qed.

Lemma linear_sum_approx_choice self matrix n i index_all ind keep index_all' ind' keep' :
  i < n → take i ind ++ index_all ≡ₚ range n → ascending index_all →
  linear_sum_approx_body self matrix i (index_all, ind, keep) =
    Ok (index_all', ind', keep') →
  ascending index_all' ∧
  ∃ c, ind' = <[i := c]> ind ∧ first_maximum (data matrix) n i (take i ind) c.
Proof.
  intros Hi Hperm Hasc Hb. unfold linear_sum_approx_body in Hb.
  inv_bind Hb. rename a into row, a0 into cands, a1 into i_max.
  destruct a2 as [i_new ia1]. inv_bind Hb. injection Hb as <- <- <-.
  unfold pop in Hb3. destruct (index_all !! i_max) as [c|] eqn:Hc; [|done].
  injection Hb3 as -> <-.
  apply getitem_Ok in Hb0. apply traverse_Ok in Hb1.
  assert (Hcands : ∀ p j, index_all !! p = Some j →
            ∃ y, cands !! p = Some y ∧ entry (data matrix) i j = y).
  { intros p j Hp. destruct (Forall2_lookup_l _ _ _ _ _ Hb1 Hp) as (y & Hy & Hget).
    apply getitem_Ok in Hget. exists y. split; [done|]. by eapply entry_lookup. }
  destruct (np_argmax_spec cands i_max Hb2) as (v & Hv & Hmax & Hfirst).
  destruct (Hcands i_max i_new Hc) as (v' & Hv' & Hentry).
  assert (v' = v) as -> by congruence.
  assert (Hnd : NoDup (take i ind ++ index_all)) by (rewrite Hperm; apply NoDup_seq).
  apply NoDup_app in Hnd as (_ & Hdisj & _).
  split; [rewrite <- delete_take_drop; by apply ascending_delete|].
  exists i_new. split; [done|]. split; [|split].
  - assert (Hin : i_new ∈ range n)
      by (rewrite <- Hperm; apply elem_of_app; right; by eapply list_elem_of_lookup_2).
    apply elem_of_seq in Hin. lia.
  - intros Hin. apply (Hdisj _ Hin). by eapply list_elem_of_lookup_2.
  - intros j Hj Hfree.
    assert (Hin : j ∈ take i ind ++ index_all)
      by (rewrite Hperm; apply elem_of_seq; lia).
    apply elem_of_app in Hin as [Hin|Hin]; [done|].
    apply list_elem_of_lookup_1 in Hin as [p Hp].
    destruct (Hcands p j Hp) as (y & Hy & Hey). rewrite Hey, Hentry.
    split; [by eapply Hmax|]. intros Hlt. eapply Hfirst; [|done].
    destruct (decide (p < i_max)) as [|Hge]; [done|].
    destruct (decide (p = i_max)) as [->|Hne]; [assert (j = i_new) by congruence; lia|].
    pose proof (Hasc i_max p i_new j ltac:(lia) Hc Hp). lia.
Qed.

(** X9.  The greedy routine, row by row: on a square matrix it gives row i
    the first (lowest-index) column of maximal value among the columns that
    the rows before i have not taken. *)
Theorem greedy_picks_first_free_maximum (self : Disentangle) (M : array2 Q) (n : nat) :
  wf2 M n n →
  ∃ perm keep,
    _linear_sum_approx self M = Ok (perm, keep) ∧
    perm ≡ₚ range n ∧
    ∀ i c, perm !! i = Some c → first_maximum (data M) n i (take i perm) c.
Proof.
  intros Hwf.
  destruct (for_each_range
    (λ i (st : list nat * list nat * list bool),
       let '(index_all, ind, keep) := st in
       (length ind = n ∧ length keep = n ∧
        take i ind ++ index_all ≡ₚ range n ∧
        take i keep = keep_of (threshold self) (data M) (take i ind)) ∧
       ascending index_all ∧
       ∀ i' c, i' < i → ind !! i' = Some c →
               first_maximum (data M) n i' (take i' ind) c)
    n (linear_sum_approx_body self M)
    (range n, replicate n 0, replicate n false))
    as ([[ia ind] keep] & Hrun & (Hind & Hkeep & Hperm & Hk) & _ & Hchosen).
  - rewrite !length_replicate, !take_0. split; [done|].
    split; [apply ascending_range|]. intros i' c Hi'. lia.
  - intros i [[ia ind] keep] Hi ((Hind & Hkeep & Hperm & Hk) & Hasc & Hchosen).
    destruct (linear_sum_approx_step self M n i ia ind keep)
      as (ia' & ind' & keep' & Hb & Hold); [done..|].
    destruct (linear_sum_approx_choice self M n i ia ind keep ia' ind' keep')
      as (Hasc' & c & -> & Hfirst); [done..|].
    exists (ia', <[i := c]> ind, keep'). split; [done|]. split; [done|].
    split; [done|]. intros i' c' Hi' Hc'.
    rewrite take_insert_ge by lia.
    destruct (decide (i' = i)) as [->|Hne].
    + rewrite list_lookup_insert_eq in Hc' by lia. by injection Hc' as <-.
    + rewrite list_lookup_insert_ne in Hc' by lia. apply Hchosen; [lia|done].
  - rewrite take_ge in Hperm by lia.
    assert (ia = []) as ->.
    { apply Permutation_length in Hperm.
      rewrite length_app in Hperm. unfold range in Hperm. rewrite length_seq in Hperm.
      apply length_zero_iff_nil. lia. }
    rewrite app_nil_r in Hperm.
    exists ind, keep. split; [|split; [done|]].
    + unfold _linear_sum_approx. destruct Hwf as (-> & _).
      rewrite Nat.eqb_refl. simpl. by rewrite Hrun.
    + intros i c Hc. apply Hchosen; [|done]. apply lookup_lt_Some in Hc. lia.
Qed.

Lemma greedy_picks_first_free_maximum_witness :
  ∃ perm keep,
    _linear_sum_approx (scenario 0 0) greedy_trap = Ok (perm, keep) ∧
    perm ≡ₚ range 2 ∧
    ∀ i c, perm !! i = Some c → first_maximum (data greedy_trap) 2 i (take i perm) c.
Proof.
  apply (greedy_picks_first_free_maximum (scenario 0 0) greedy_trap 2). solve_wf.
Defined.

(** * The maps, read from the overlaps *)

(** X10.  What the returned maps say about the
    overlaps.  For at least one band and either routine, with [p] and [j] the
    bands the index map gives track [b] at the k-points [k] and [k + 1], the
    working slot of [b] stays the same from [k] to [k + 1] exactly when the
    overlap [overlap[k, p, j]] is strictly above the threshold or the
    threshold is 0; otherwise the slot goes up. *)
Theorem slot_changes_where_the_overlap_is_low `{solver : Scipy}
    (self : Disentangle) (n n_b : nat) :
  lsa_optimal solver → (_routine self = 0 ∨ _routine self = 1)%Z →
  wf3 (overlap_matrix self) n n_b n_b → 0 < n_b →
  ∃ ind working_indices,
    _calc_disentangle_matrix self =
      Ok (mk_ndarray [n + 1; n_b] ind, mk_ndarray [n + 1; n_b] working_indices) ∧
    ∀ k b, k < n → b < n_b →
      ∃ p j x s0 s1,
        lookup2 ind k b = Some p ∧ lookup2 ind (S k) b = Some j ∧
        lookup3 (data (overlap_matrix self)) k p j = Some x ∧
        lookup2 working_indices k b = Some s0 ∧
        lookup2 working_indices (S k) b = Some s1 ∧
        (s1 = s0 ↔ (threshold self < x)%Q ∨ (threshold self == 0)%Q) ∧
        (s1 ≠ s0 → s0 < s1).
Proof.
  intros Hopt Hr Hwf Hnb.
  destruct (engine_spec self n n_b Hopt Hr Hwf)
    as (func & ind & keep & W & _ & _ & _ & _ & _ & _ & Hrows & Hlinked & Hcalc & Hcheck).
  rewrite Hcheck in Hcalc by (by left). simpl in Hcalc.
  exists ind, W. split; [done|]. intros k b Hk Hb.
  destruct (keep_mask_entry self func n n_b ind keep k b Hwf Hk Hb)
    as (p & j & x & Hp & Hj & Hx & Hkept); [apply Hrows; lia..|].
  destruct (linked_entry self n n_b keep W Hlinked k b _ ltac:(lia) Hkept)
    as (row0 & row1 & s0 & s1 & H0 & H1 & Hs0 & Hs1 & Hsame & Hup).
  exists p, j, x, s0, s1. do 3 (split; [done|]).
  unfold lookup2. rewrite H0, H1. simpl. do 2 (split; [done|]).
  assert (Hle : s0 ≤ max_list row0) by by apply max_list_elem_of_le, list_elem_of_lookup_2 with b.
  unfold retires in Hsame, Hup.
  destruct (Qgtb x (threshold self)) eqn:Hgt; simpl in *.
  - apply Qgtb_true in Hgt. split; [split; [by left|by intros; apply Hsame]|].
    intros Hne. by destruct Hne, Hsame.
  - apply Qgtb_false in Hgt.
    destruct (Qeq_bool (threshold self) 0) eqn:Hz; simpl in *.
    + apply Qeq_bool_iff in Hz. split; [split; [by right|by intros; apply Hsame]|].
      intros Hne. by destruct Hne, Hsame.
    + apply Qeq_bool_neq in Hz. specialize (Hup eq_refl). split; [|lia]. split.
      * lia.
      * intros [Hlt|Heq]; [|done]. by apply Qlt_not_le in Hlt.
Qed.

Lemma slot_changes_where_the_overlap_is_low_witness :
  ∃ ind working_indices,
    _calc_disentangle_matrix (solver := exhaustive_lsa) (retiring 0) =
      Ok (mk_ndarray [2 + 1; 2] ind, mk_ndarray [2 + 1; 2] working_indices) ∧
    ∀ k b, k < 2 → b < 2 →
      ∃ p j x s0 s1,
        lookup2 ind k b = Some p ∧ lookup2 ind (S k) b = Some j ∧
        lookup3 (data (overlap_matrix (retiring 0))) k p j = Some x ∧
        lookup2 working_indices k b = Some s0 ∧
        lookup2 working_indices (S k) b = Some s1 ∧
        (s1 = s0 ↔ (threshold (retiring 0) < x)%Q ∨ (threshold (retiring 0) == 0)%Q) ∧
        (s1 ≠ s0 → s0 < s1).
Proof.
  apply (slot_changes_where_the_overlap_is_low (solver := exhaustive_lsa) (retiring 0) 2 2).
  - apply exhaustive_lsa_optimal.
  - left. reflexivity.
  - solve_wf.
  - lia.
Defined.

(** X11.  The apply operation refuses data of another shape.  An array with
    fewer than two axes fails the first assertion.  When the maps can be
    computed, an array whose leading two axes are not (K, B) fails the
    comparison with the shape of the index map: the call raises
    AssertionError and returns no array. *)
Theorem apply_refuses_other_leading_axes `{solver : Scipy} {D} {dtype : Dtype D}
    (self : Disentangle) (matrix : array2 (cell D)) :
  (length (shape matrix) < 2 →
   _apply_disentanglement self matrix = Raise AssertionError) ∧
  (∀ n n_b,
     lsa_optimal solver → (_routine self = 0 ∨ _routine self = 1)%Z →
     wf3 (overlap_matrix self) n n_b n_b →
     (0 < n_b ∨ ¬ (threshold self == 0)%Q) →
     (∀ c, _disentangle_matrix self = Some c → _calc_disentangle_matrix self = Ok c) →
     2 ≤ length (shape matrix) → take 2 (shape matrix) ≠ [n + 1; n_b] →
     _apply_disentanglement self matrix = Raise AssertionError).
Proof.
  split.
  - intros Hlen. unfold _apply_disentanglement.
    destruct (2 <=? length (shape matrix)) eqn:Hle; [|done].
    apply Nat.leb_le in Hle. lia.
  - intros n n_b Hopt Hr Hwf Hb Hcache Hlen Hne.
    destruct (engine_spec self n n_b Hopt Hr Hwf)
      as (func & ind & keep & W & _ & _ & _ & _ & _ & _ & _ & _ & Hcalc & Hcheck).
    rewrite Hcheck in Hcalc.
    2:{ destruct Hb as [Hb|Hb]; [by left|right].
        destruct (Qeq_bool (threshold self) 0) eqn:Hz; [|done].
        apply Qeq_bool_iff in Hz. contradiction. }
    simpl in Hcalc.
    destruct (disentangle_matrix_Ok self _ Hcache Hcalc) as (self' & Hdm & _).
    unfold _apply_disentanglement.
    apply Nat.leb_le in Hlen. rewrite Hlen. simpl. rewrite Hdm. simpl.
    by rewrite bool_decide_eq_false_2.
Qed.

Lemma apply_refuses_other_leading_axes_witness :
  _apply_disentanglement (solver := exhaustive_lsa) (retiring 1)
    (mk_ndarray [3] [[Scalar (Finite 0)]; [Scalar (Finite 0)]; [Scalar (Finite 0)]]%Q) =
    Raise AssertionError ∧
  _apply_disentanglement (solver := exhaustive_lsa) (retiring 1)
    (mk_ndarray [3; 1] [[Scalar (Finite 0)]; [Scalar (Finite 0)]; [Scalar (Finite 0)]]%Q) =
    Raise AssertionError.
Proof.
  split.
  - apply (proj1 (apply_refuses_other_leading_axes (solver := exhaustive_lsa) (retiring 1)
                    (mk_ndarray [3]
                       [[Scalar (Finite 0)]; [Scalar (Finite 0)]; [Scalar (Finite 0)]]%Q))).
    simpl. lia.
  - apply (proj2 (apply_refuses_other_leading_axes (solver := exhaustive_lsa) (retiring 1)
                    (mk_ndarray [3; 1]
                       [[Scalar (Finite 0)]; [Scalar (Finite 0)]; [Scalar (Finite 0)]]%Q))
             2 2).
    + apply exhaustive_lsa_optimal.
    + right. reflexivity.
    + solve_wf.
    + left. lia.
    + intros c Hc. discriminate Hc.
    + simpl. lia.
    + simpl. intros Heq. discriminate Heq.
Defined.

(** * Sweep: cropping and mirroring *)

Lemma nonzero_from_spec s m :
  ascending (nonzero_from s m) ∧
  ∀ i, i ∈ nonzero_from s m ↔ s ≤ i ∧ m !! (i - s) = Some true.
Proof.
  revert s. induction m as [|b m IH]; intros s.
  - split; [by intros p q a b' _ Hp|]. intros i. simpl. split; [by intros ?%elem_of_nil|].
    by intros [_ ?].
  - destruct (IH (S s)) as [Hasc Hin].
    assert (Htail : ∀ i, i ∈ nonzero_from (S s) m ↔ s < i ∧ (b :: m) !! (i - s) = Some true).
    { intros i. rewrite Hin. split.
      - intros [Hi Hm]. split; [lia|]. by replace (i - s) with (S (i - S s)) by lia.
      - intros [Hi Hm]. split; [lia|]. by replace (i - s) with (S (i - S s)) in Hm by lia. }
    destruct b; simpl.
    + split.
      * intros p q a b' Hpq Hp Hq. destruct q as [|q]; [lia|]. simpl in Hq.
        destruct p as [|p]; simpl in Hp.
        -- injection Hp as <-. apply list_elem_of_lookup_2, Htail in Hq. lia.
        -- eapply (Hasc p q); [lia|done..].
      * intros i. rewrite elem_of_cons, Htail. split.
        -- intros [->|[? ?]]; [|split; [lia|done]]. split; [lia|]. by rewrite Nat.sub_diag.
        -- intros [Hi Hm]. destruct (decide (i = s)) as [->|]; [by left|right].
           split; [lia|done].
    + split; [done|]. intros i. rewrite Htail. split.
      * intros [? ?]. split; [lia|done].
      * intros [Hi Hm]. split; [|done]. destruct (decide (i = s)) as [->|]; [|lia].
        by rewrite Nat.sub_diag in Hm.
Qed.

Lemma mask_select_lookup {A} (m : list bool) (a : list A) s p :
  length m = length a →
  mask_select m a !! p = (nonzero_from s m !! p) ≫= (λ i, a !! (i - s)).
Proof.
  revert a s p. induction m as [|b m IH]; intros [|v a] s p Hlen; try done.
  simpl in Hlen.
  assert (Hshift : ∀ p',
    (nonzero_from (S s) m !! p') ≫= (λ i, a !! (i - S s)) =
    (nonzero_from (S s) m !! p') ≫= (λ i, (v :: a) !! (i - s))).
  { intros p'. destruct (nonzero_from (S s) m !! p') as [i|] eqn:Hi; [|done]. simpl.
    apply list_elem_of_lookup_2, nonzero_from_spec in Hi as [Hi _].
    by replace (i - s) with (S (i - S s)) by lia. }
  destruct b; simpl.
  - destruct p as [|p]; simpl; [by rewrite Nat.sub_diag|].
    rewrite <- Hshift. apply IH. lia.
  - rewrite <- Hshift. apply IH. lia.
Qed.

Lemma length_mask_select {A} (m : list bool) (a : list A) s :
  length m = length a → length (mask_select m a) = length (nonzero_from s m).
Proof.
  revert a s. induction m as [|b m IH]; intros [|v a] s Hlen; try done.
  simpl in Hlen. destruct b; simpl; [f_equal|]; apply IH; lia.
Qed.

Lemma traverse_getitem_range {A} (l : list A) :
  traverse (getitem l) (range (length l)) = Ok l.
Proof.
  destruct (traverse_getitem l (range (length l))) as (ys & -> & Hall).
  { apply Forall_forall. intros i Hi. apply elem_of_seq in Hi. lia. }
  f_equal. apply list_eq. intros i.
  destruct (decide (i < length l)) as [Hi|Hi].
  - destruct (Forall2_lookup_l _ _ _ i i Hall) as (y & Hy & Hl).
    { unfold range. by rewrite lookup_seq_lt. }
    by rewrite Hy, Hl.
  - apply Forall2_length in Hall. unfold range in Hall. rewrite length_seq in Hall.
    rewrite !lookup_ge_None_2; [done|lia..].
Qed.

(** The index that [cropped] makes of a limit selects the positions inside
    the limit, in ascending order. *)
Lemma crop_index_spec lim v :
  let ix := ix_positions (Sweep.crop_index lim v) in
  Sweep.kept_positions lim v ix ∧
  Forall (λ i, i < length v) ix ∧
  ∃ v', getitem_index v (Sweep.crop_index lim v) = Ok v' ∧
        length v' = length ix ∧
        ∀ p, v' !! p = (ix !! p) ≫= (λ i, v !! i).
Proof.
  destruct lim as [[lo hi]|]; simpl.
  - unfold np_nonzero.
    destruct (nonzero_from_spec 0 (Sweep.within (lo, hi) v)) as [Hasc Hin].
    assert (Hlen : length (Sweep.within (lo, hi) v) = length v)
      by (unfold Sweep.within; by rewrite length_map).
    assert (Hmem : ∀ i, i ∈ nonzero_from 0 (Sweep.within (lo, hi) v) ↔
                    ∃ a, v !! i = Some a ∧ (lo <= a)%Q ∧ (a <= hi)%Q).
    { intros i. rewrite Hin, Nat.sub_0_r. unfold Sweep.within.
      change (map ?f ?l) with (f <$> l). rewrite list_lookup_fmap. simpl.
      destruct (v !! i) as [a|]; simpl.
      - split.
        + intros [_ [= Hb]]. apply andb_true_iff in Hb as [H1 H2].
          apply Qle_bool_iff in H1, H2. by exists a.
        + intros (a' & [= <-] & H1 & H2). split; [lia|]. f_equal.
          apply andb_true_iff. by split; apply Qle_bool_iff.
      - split; [by intros [_ ?]|by intros (? & ? & _)]. }
    split; [by split|]. split.
    + apply Forall_forall. intros i Hi. apply Hmem in Hi as (a & Ha & _).
      by apply lookup_lt_Some in Ha.
    + rewrite Hlen, Nat.eqb_refl. eexists. split; [done|]. split.
      * by apply length_mask_select.
      * intros p. rewrite (mask_select_lookup _ _ 0) by done.
        destruct (nonzero_from 0 _ !! p); [|done]. simpl. by rewrite Nat.sub_0_r.
  - split; [split|split].
    + apply ascending_range.
    + intros i. unfold range. rewrite elem_of_seq. split.
      * intros [_ Hi]. apply lookup_lt_is_Some_2 in Hi as [a Ha]. by exists a.
      * intros (a & Ha & _). apply lookup_lt_Some in Ha. lia.
    + apply Forall_forall. intros i Hi. apply elem_of_seq in Hi. lia.
    + exists v. split; [apply traverse_getitem_range|]. split.
      * unfold range. by rewrite length_seq.
      * intros p. unfold range. destruct (decide (p < length v)) as [Hp|Hp].
        -- by rewrite lookup_seq_lt.
        -- rewrite lookup_seq_ge by lia. simpl. apply lookup_ge_None_2. lia.
Qed.

Lemma wf2_lookup2 (d : array2 Q) r c i j :
  wf2 d r c → i < r → j < c → lookup2 (data d) i j = Some (entry (data d) i j).
Proof.
  intros (_ & Hlen & Hrows) Hi Hj. unfold lookup2, entry.
  destruct (lookup_lt_is_Some_2 (data d) i) as [row Hrow]; [lia|].
  rewrite Hrow. simpl.
  pose proof (Forall_lookup_1 _ _ _ _ Hrows Hrow) as Hc. simpl in Hc.
  destruct (lookup_lt_is_Some_2 row j) as [a Ha]; [lia|]. by rewrite Ha.
Qed.

(** [d[np.ix_(idx_x, idx_y)]] holds, at [(p, q)], the entry of [d] at the
    [p]-th position of [idx_x] and the [q]-th position of [idx_y]. *)
Lemma getitem_ix_spec (d : array2 Q) r c idx_x idx_y :
  wf2 d r c →
  Forall (λ i, i < r) (ix_positions idx_x) →
  Forall (λ j, j < c) (ix_positions idx_y) →
  ∃ d', getitem_ix d idx_x idx_y = Ok d' ∧
        wf2 d' (length (ix_positions idx_x)) (length (ix_positions idx_y)) ∧
        ∀ p q, lookup2 (data d') p q =
               (ix_positions idx_x !! p) ≫= (λ i,
               (ix_positions idx_y !! q) ≫= (λ j, lookup2 (data d) i j)).
Proof.
  intros Hwf Hx Hy. unfold getitem_ix. rewrite (proj1 Hwf).
  assert (forallb (λ i, i <? r) (ix_positions idx_x) = true) as ->.
  { apply forallb_forall. intros i Hi%list_elem_of_In.
    apply Nat.ltb_lt. by apply (proj1 (Forall_forall _ _) Hx). }
  assert (forallb (λ j, j <? c) (ix_positions idx_y) = true) as ->.
  { apply forallb_forall. intros j Hj%list_elem_of_In.
    apply Nat.ltb_lt. by apply (proj1 (Forall_forall _ _) Hy). }
  simpl. eexists. split; [done|]. split.
  - split; [done|]. simpl. split; [by rewrite length_map|].
    apply Forall_forall. intros row Hrow.
    change (map ?f ?l) with (f <$> l) in Hrow.
    apply list_elem_of_fmap in Hrow as (i & -> & _). by rewrite length_fmap.
  - intros p q. simpl. unfold lookup2 at 1.
    change (map ?f ?l) with (f <$> l). rewrite list_lookup_fmap.
    destruct (ix_positions idx_x !! p) as [i|] eqn:Hi; [|done]. simpl.
    rewrite list_lookup_fmap.
    destruct (ix_positions idx_y !! q) as [j|] eqn:Hj; [|done]. simpl.
    symmetry. apply (wf2_lookup2 d r c); [done|..].
    + by apply (Forall_lookup_1 _ _ _ _ Hx Hi).
    + by apply (Forall_lookup_1 _ _ _ _ Hy Hj).
Qed.

(** What [cropped] returns, in terms of the positions its two indices select. *)
Lemma cropped_spec {L G} (with_defaults : L → L) (self : Sweep.t L G)
    (x_lim y_lim : option (Q * Q)) :
  Sweep.wf self →
  ∃ s',
    Sweep.cropped with_defaults self x_lim y_lim = Ok s' ∧
    Sweep.wf s' ∧
    length (Sweep.x s') = length (ix_positions (Sweep.crop_index x_lim (Sweep.x self))) ∧
    length (Sweep.y s') = length (ix_positions (Sweep.crop_index y_lim (Sweep.y self))) ∧
    (∀ p, Sweep.x s' !! p =
          (ix_positions (Sweep.crop_index x_lim (Sweep.x self)) !! p) ≫=
            (λ i, Sweep.x self !! i)) ∧
    (∀ q, Sweep.y s' !! q =
          (ix_positions (Sweep.crop_index y_lim (Sweep.y self)) !! q) ≫=
            (λ j, Sweep.y self !! j)) ∧
    (∀ p q, lookup2 (data (Sweep.data s')) p q =
            (ix_positions (Sweep.crop_index x_lim (Sweep.x self)) !! p) ≫= (λ i,
            (ix_positions (Sweep.crop_index y_lim (Sweep.y self)) !! q) ≫= (λ j,
             lookup2 (data (Sweep.data self)) i j))) ∧
    Sweep.labels s' = with_defaults (Sweep.labels self) ∧
    Sweep.tags s' = Sweep.tags self.
Proof.
  intros Hwf.
  destruct (crop_index_spec x_lim (Sweep.x self)) as (_ & Hbx & x' & Hx' & Hlx & Hxs).
  destruct (crop_index_spec y_lim (Sweep.y self)) as (_ & Hby & y' & Hy' & Hly & Hys).
  destruct (getitem_ix_spec (Sweep.data self) _ _ _ _ Hwf Hbx Hby) as (d' & Hd' & Hwf' & Hds).
  eexists. split.
  { unfold Sweep.cropped. rewrite Hx'. simpl. rewrite Hy'. simpl. rewrite Hd'. by simpl. }
  simpl. split; [|done].
  unfold Sweep.wf. simpl. by rewrite Hlx, Hly.
Qed.

(** X12.  [Sweep.cropped]: on a sweep whose data has the shape
    [(x.size, y.size)], cropping returns a sweep of that kind again.  Its axes
    hold, in their order, the values inside the limits (both ends included; all
    of them on an axis without limit), and its data holds at [(p, q)] the entry
    that belonged to the [p]-th kept x-value and the [q]-th kept y-value.
    The tags are passed on and the labels go through the constructor again. *)
Theorem cropped_keeps_the_points_inside_the_limits {L G} (with_defaults : L → L)
    (self : Sweep.t L G) (x_lim y_lim : option (Q * Q)) :
  Sweep.wf self →
  ∃ s' ix iy,
    Sweep.cropped with_defaults self x_lim y_lim = Ok s' ∧
    Sweep.kept_positions x_lim (Sweep.x self) ix ∧
    Sweep.kept_positions y_lim (Sweep.y self) iy ∧
    Sweep.wf s' ∧
    length (Sweep.x s') = length ix ∧ length (Sweep.y s') = length iy ∧
    (∀ p, Sweep.x s' !! p = (ix !! p) ≫= (λ i, Sweep.x self !! i)) ∧
    (∀ q, Sweep.y s' !! q = (iy !! q) ≫= (λ j, Sweep.y self !! j)) ∧
    (∀ p q, lookup2 (data (Sweep.data s')) p q =
            (ix !! p) ≫= (λ i, (iy !! q) ≫= (λ j, lookup2 (data (Sweep.data self)) i j))) ∧
    Sweep.labels s' = with_defaults (Sweep.labels self) ∧
    Sweep.tags s' = Sweep.tags self.
Proof.
  intros Hwf.
  destruct (cropped_spec with_defaults self x_lim y_lim Hwf) as (s' & Hrun & Hrest).
  exists s', (ix_positions (Sweep.crop_index x_lim (Sweep.x self))),
    (ix_positions (Sweep.crop_index y_lim (Sweep.y self))).
  split; [done|].
  split; [apply crop_index_spec|]. split; [apply crop_index_spec|]. done.
Qed.

Lemma cropped_keeps_the_points_inside_the_limits_witness :
  ∃ s' ix iy,
    Sweep.cropped (λ l, l) small_sweep (Some (1, 2)%Q) None = Ok s' ∧
    Sweep.kept_positions (Some (1, 2)%Q) (Sweep.x small_sweep) ix ∧
    Sweep.kept_positions None (Sweep.y small_sweep) iy ∧
    Sweep.wf s' ∧
    length (Sweep.x s') = length ix ∧ length (Sweep.y s') = length iy ∧
    (∀ p, Sweep.x s' !! p = (ix !! p) ≫= (λ i, Sweep.x small_sweep !! i)) ∧
    (∀ q, Sweep.y s' !! q = (iy !! q) ≫= (λ j, Sweep.y small_sweep !! j)) ∧
    (∀ p q, lookup2 (data (Sweep.data s')) p q =
            (ix !! p) ≫= (λ i, (iy !! q) ≫= (λ j, lookup2 (data (Sweep.data small_sweep)) i j))) ∧
    Sweep.labels s' = Sweep.labels small_sweep ∧
    Sweep.tags s' = Sweep.tags small_sweep.
Proof.
  apply (cropped_keeps_the_points_inside_the_limits (λ l, l) small_sweep). solve_wf.
Defined.

Lemma wf2_ext (d d' : array2 Q) r c :
  wf2 d r c → wf2 d' r c →
  (∀ p q, lookup2 (data d) p q = lookup2 (data d') p q) → d = d'.
Proof.
  destruct d as [sh rows], d' as [sh' rows']. unfold wf2. simpl.
  intros (-> & Hlen & Hrows) (-> & Hlen' & Hrows') Heq. f_equal.
  apply list_eq. intros p.
  destruct (rows !! p) as [row|] eqn:Hrow.
  - destruct (lookup_lt_is_Some_2 rows' p) as [row' Hrow'].
    { apply lookup_lt_Some in Hrow. lia. }
    rewrite Hrow'. f_equal. apply list_eq. intros q.
    specialize (Heq p q). unfold lookup2 in Heq. by rewrite Hrow, Hrow' in Heq.
  - symmetry. apply lookup_ge_None_2. apply lookup_ge_None_1 in Hrow. lia.
Qed.

Lemma lookup_range_bind {A} n p (f : nat → option A) :
  (∀ i, n ≤ i → f i = None) → (range n !! p) ≫= f = f p.
Proof.
  intros Hf. unfold range. destruct (decide (p < n)).
  - by rewrite lookup_seq_lt.
  - rewrite lookup_seq_ge by lia. simpl. symmetry. apply Hf. lia.
Qed.

(** X13.  [Sweep.cropped] composes.  Cropping in [x] and then
    cropping the result in [y] gives the axes, the data and the tags of
    cropping in both at once; the labels have gone through the constructor
    once more. *)
Theorem cropping_axis_by_axis {L G} (with_defaults : L → L)
    (self : Sweep.t L G) (x_lim y_lim : option (Q * Q)) :
  Sweep.wf self →
  ∃ s1 s2 s',
    Sweep.cropped with_defaults self x_lim None = Ok s1 ∧
    Sweep.cropped with_defaults s1 None y_lim = Ok s2 ∧
    Sweep.cropped with_defaults self x_lim y_lim = Ok s' ∧
    Sweep.x s2 = Sweep.x s' ∧ Sweep.y s2 = Sweep.y s' ∧
    Sweep.data s2 = Sweep.data s' ∧
    Sweep.tags s2 = Sweep.tags s' ∧
    Sweep.labels s2 = with_defaults (Sweep.labels s').
Proof.
  intros Hwf.
  destruct (cropped_spec with_defaults self x_lim None Hwf)
    as (s1 & Hrun1 & Hwf1 & Hlx1 & Hly1 & Hx1 & Hy1 & Hd1 & Hl1 & Ht1).
  destruct (cropped_spec with_defaults s1 None y_lim Hwf1)
    as (s2 & Hrun2 & Hwf2 & Hlx2 & Hly2 & Hx2 & Hy2 & Hd2 & Hl2 & Ht2).
  destruct (cropped_spec with_defaults self x_lim y_lim Hwf)
    as (s' & Hrun & Hwf' & Hlx & Hly & Hx & Hy & Hd & Hl & Ht).
  simpl in *.
  assert (Hy1e : Sweep.y s1 = Sweep.y self).
  { apply list_eq. intros q. rewrite Hy1.
    apply (lookup_range_bind _ q (λ j, Sweep.y self !! j)).
    intros i Hi. by apply lookup_ge_None_2. }
  rewrite Hy1e in *.
  assert (Hxe : Sweep.x s2 = Sweep.x s').
  { apply list_eq. intros p. rewrite Hx2, Hx, <- Hx1.
    apply (lookup_range_bind _ p (λ i, Sweep.x s1 !! i)).
    intros i Hi. by apply lookup_ge_None_2. }
  assert (Hye : Sweep.y s2 = Sweep.y s').
  { apply list_eq. intros q. by rewrite Hy2, Hy. }
  exists s1, s2, s'. do 3 (split; [done|]). do 2 (split; [done|]).
  split; [|split; [congruence|by rewrite Hl2, Hl1, Hl]].
  unfold Sweep.wf in Hwf2, Hwf'. rewrite Hxe, Hye in Hwf2.
  apply (wf2_ext _ _ _ _ Hwf2 Hwf'). intros p q.
  rewrite Hd2, Hd.
  rewrite (lookup_range_bind _ p (λ i,
    (ix_positions (Sweep.crop_index y_lim (Sweep.y self)) !! q) ≫= (λ j,
     lookup2 (data (Sweep.data s1)) i j))).
  - destruct (ix_positions (Sweep.crop_index x_lim (Sweep.x self)) !! p) as [i|] eqn:Hi.
    + simpl. destruct (ix_positions (Sweep.crop_index y_lim (Sweep.y self)) !! q)
        as [j|] eqn:Hj; [|done].
      simpl. rewrite Hd1, Hi. simpl.
      apply (lookup_range_bind _ j (λ j', lookup2 (data (Sweep.data self)) i j')).
      intros j' Hj'. unfold lookup2.
      destruct (data (Sweep.data self) !! i) as [row|] eqn:Hrow; [|done]. simpl.
      apply lookup_ge_None_2.
      pose proof (Forall_lookup_1 _ _ _ _ (proj2 (proj2 Hwf)) Hrow) as Hc. simpl in Hc. lia.
    + simpl. destruct (ix_positions (Sweep.crop_index y_lim (Sweep.y self)) !! q)
        as [j|]; [|done].
      simpl. by rewrite Hd1, Hi.
  - intros i Hi.
    destruct (ix_positions (Sweep.crop_index y_lim (Sweep.y self)) !! q) as [j|]; [|done].
    simpl. unfold lookup2. rewrite lookup_ge_None_2; [done|].
    rewrite (proj1 (proj2 Hwf1)). lia.
Qed.

Lemma cropping_axis_by_axis_witness :
  ∃ s1 s2 s',
    Sweep.cropped (λ l, l) small_sweep (Some (1, 2)%Q) None = Ok s1 ∧
    Sweep.cropped (λ l, l) s1 None (Some (0, 0)%Q) = Ok s2 ∧
    Sweep.cropped (λ l, l) small_sweep (Some (1, 2)%Q) (Some (0, 0)%Q) = Ok s' ∧
    Sweep.x s2 = Sweep.x s' ∧ Sweep.y s2 = Sweep.y s' ∧
    Sweep.data s2 = Sweep.data s' ∧
    Sweep.tags s2 = Sweep.tags s' ∧
    Sweep.labels s2 = Sweep.labels s'.
Proof.
  apply (cropping_axis_by_axis (λ l, l) small_sweep). solve_wf.
Defined.

Lemma mirror_image_app {A} (neg : A → A) (v : list A) :
  Sweep.mirror_image neg v ((neg <$> reverse v) ++ drop 1 v).
Proof.
  split.
  - rewrite length_app, length_fmap, length_reverse, length_drop. done.
  - intros k a Hk. pose proof (lookup_lt_Some _ _ _ Hk) as Hlt. split.
    + rewrite lookup_app_l by (rewrite length_fmap, length_reverse; lia).
      rewrite list_lookup_fmap, reverse_lookup by lia.
      replace (length v - S (length v - 1 - k)) with k by lia. by rewrite Hk.
    + intros Hk1. rewrite lookup_app_r by (rewrite length_fmap, length_reverse; lia).
      rewrite length_fmap, length_reverse, lookup_drop.
      by replace (1 + (length v - 1 + k - length v)) with k by lia.
Qed.

Lemma mirror_axis_image v : Sweep.mirror_image Qopp v (Sweep.mirror_axis v).
Proof. apply mirror_image_app. Qed.

Lemma mirror_rows_image {A} (a : list A) : Sweep.mirror_image (λ r, r) a (Sweep.mirror_rows a).
Proof.
  unfold Sweep.mirror_rows. rewrite <- (list_fmap_id (reverse a)) at 1.
  apply (mirror_image_app (λ r, r)).
Qed.

(** X14.  [Sweep.mirrored]: on a sweep whose data has the shape
    [(x.size, y.size)], mirroring in [x] gives [2 * x.size - 1] x-values and
    rows (none for an empty axis).  With [n = x.size], the rows [n - 1 - k]
    and [n - 1 + k] of the new data are both row [k] of the old data, and the
    x-values there are [-x[k]] and [x[k]]; the centre [n - 1] holds [-x[0]].
    Mirroring in [y] does the same to the columns.  For any other axis the
    function returns [None]: it raises nothing. *)
Theorem mirrored_is_symmetric {L G} (with_defaults : L → L) (self : Sweep.t L G) :
  Sweep.wf self →
  (∃ s', Sweep.mirrored with_defaults self "x" = Some s' ∧ Sweep.wf s' ∧
         Sweep.mirror_image Qopp (Sweep.x self) (Sweep.x s') ∧
         Sweep.mirror_image (λ row, row) (data (Sweep.data self)) (data (Sweep.data s')) ∧
         Sweep.y s' = Sweep.y self) ∧
  (∃ s', Sweep.mirrored with_defaults self "y" = Some s' ∧ Sweep.wf s' ∧
         Sweep.mirror_image Qopp (Sweep.y self) (Sweep.y s') ∧
         Forall2 (Sweep.mirror_image (λ a, a))
                 (data (Sweep.data self)) (data (Sweep.data s')) ∧
         Sweep.x s' = Sweep.x self) ∧
  (∀ axis, axis ≠ "x"%string → axis ≠ "y"%string →
           Sweep.mirrored with_defaults self axis = None).
Proof.
  intros (Hs & Hlen & Hrows). split; [|split].
  - eexists. split; [done|]. simpl. rewrite Hs.
    pose proof (mirror_axis_image (Sweep.x self)) as Hx.
    pose proof (mirror_rows_image (data (Sweep.data self))) as Hd.
    split; [|done]. unfold Sweep.wf, wf2. simpl.
    split; [by rewrite (proj1 Hx)|].
    split; [by rewrite (proj1 Hd), (proj1 Hx), Hlen|].
    unfold Sweep.mirror_rows. apply Forall_app. split.
    + by apply Forall_reverse.
    + by apply Forall_drop.
  - eexists. split; [done|]. simpl. rewrite Hs.
    pose proof (mirror_axis_image (Sweep.y self)) as Hy.
    split; [|split; [done|split; [|done]]].
    + unfold Sweep.wf, wf2. simpl.
      split; [by rewrite (proj1 Hy)|].
      split; [by rewrite length_map|].
      apply Forall_forall. intros row Hrow.
      change (map ?f ?l) with (f <$> l) in Hrow.
      apply list_elem_of_fmap in Hrow as (row0 & -> & Hrow0).
      rewrite (proj1 (mirror_rows_image row0)), (proj1 Hy).
      by rewrite (proj1 (Forall_forall _ _) Hrows row0 Hrow0).
    + change (map ?f ?l) with (f <$> l). apply Forall2_fmap_r.
      apply Forall_Forall2_diag, Forall_forall. intros row _. apply mirror_rows_image.
  - intros axis Hx Hy. unfold Sweep.mirrored.
    apply String.eqb_neq in Hx, Hy. by rewrite Hx, Hy.
Qed.

Lemma mirrored_is_symmetric_witness :
  (∃ s', Sweep.mirrored (λ l, l) small_sweep "x" = Some s' ∧ Sweep.wf s' ∧
         Sweep.mirror_image Qopp (Sweep.x small_sweep) (Sweep.x s') ∧
         Sweep.mirror_image (λ row, row) (data (Sweep.data small_sweep)) (data (Sweep.data s')) ∧
         Sweep.y s' = Sweep.y small_sweep) ∧
  (∃ s', Sweep.mirrored (λ l, l) small_sweep "y" = Some s' ∧ Sweep.wf s' ∧
         Sweep.mirror_image Qopp (Sweep.y small_sweep) (Sweep.y s') ∧
         Forall2 (Sweep.mirror_image (λ a, a))
                 (data (Sweep.data small_sweep)) (data (Sweep.data s')) ∧
         Sweep.x s' = Sweep.x small_sweep) ∧
  (∀ axis, axis ≠ "x"%string → axis ≠ "y"%string →
           Sweep.mirrored (λ l, l) small_sweep axis = None).
Proof.
  apply (mirrored_is_symmetric (λ l, l) small_sweep). solve_wf.
Defined.

(** * _make_crop_indices *)

Lemma np_logical_and_same a b :
  length a = length b → np_logical_and a b = Ok (zip_with andb a b).
Proof. intros Hlen. unfold np_logical_and. by rewrite Hlen, Nat.eqb_refl. Qed.

(** One item of [limits] keeps the sites whose value lies in the half-open
    interval of its limit. *)
Lemma crop_indices_body_spec obj name limit idx v :
  getattr obj name = Ok v → length v = length idx → 2 ≤ length limit →
  ∃ idx' lo hi,
    crop_indices_body obj (name, limit) idx = Ok idx' ∧
    limit !! 0 = Some lo ∧ limit !! 1 = Some hi ∧
    length idx' = length idx ∧
    ∀ i, idx' !! i = Some true ↔
         idx !! i = Some true ∧ ∃ a, v !! i = Some a ∧ (lo <= a)%Q ∧ (a < hi)%Q.
Proof.
  intros Hv Hlen Hlim.
  destruct limit as [|lo [|hi rest]]; simpl in Hlim; [lia..|].
  eexists _, lo, hi. split.
  { unfold crop_indices_body. rewrite Hv. simpl.
    rewrite np_logical_and_same by (by rewrite length_map). simpl.
    rewrite np_logical_and_same; [done|].
    rewrite length_zip_with, !length_map. lia. }
  split; [done|]. split; [done|]. split.
  { rewrite !length_zip_with, !length_map. lia. }
  intros i. rewrite !lookup_zip_with.
  change (map ?f ?l) with (f <$> l). rewrite !list_lookup_fmap.
  destruct (idx !! i) as [b|] eqn:Hb; simpl; [|split; [done|by intros [? _]]].
  destruct (v !! i) as [a|] eqn:Ha; simpl; [|split; [done|by intros (_ & ? & ? & _)]].
  split.
  - intros [= Hand]. apply andb_true_iff in Hand as [Hand Hhi].
    apply andb_true_iff in Hand as [-> Hlo].
    split; [done|]. exists a. split; [done|].
    split; [by apply Qle_bool_iff|by apply Qgtb_true].
  - intros ([= ->] & a' & [= <-] & Hlo & Hhi). f_equal.
    apply andb_true_iff. split; [|by apply Qgtb_true].
    apply andb_true_iff. split; [done|by apply Qle_bool_iff].
Qed.

Lemma crop_indices_loop obj limits idx0 :
  (∀ name limit, (name, limit) ∈ limits →
     ∃ v, getattr obj name = Ok v ∧ length v = length idx0 ∧ 2 ≤ length limit) →
  ∃ idx, for_each_item limits (crop_indices_body obj) idx0 = Ok idx ∧
         length idx = length idx0 ∧
         ∀ i, idx !! i = Some true ↔ idx0 !! i = Some true ∧ site_within obj limits i.
Proof.
  revert idx0. induction limits as [|[name limit] limits IH]; intros idx0 Hok.
  - exists idx0. split; [done|]. split; [done|]. intros i. split; [|by intros [? _]].
    intros Hi. split; [done|]. by intros name limit ?%elem_of_nil.
  - destruct (Hok name limit) as (v & Hv & Hlen & Hlim); [by left|].
    destruct (crop_indices_body_spec obj name limit idx0 v Hv Hlen Hlim)
      as (idx1 & lo & hi & Hbody & Hlo & Hhi & Hlen1 & Hidx1).
    destruct (IH idx1) as (idx & Hrun & Hleni & Hidx).
    { intros name' limit' Hin. rewrite Hlen1. apply Hok. by right. }
    exists idx. split; [cbn [for_each_item]; rewrite Hbody; by simpl|].
    split; [lia|]. intros i. rewrite Hidx, Hidx1. split.
    + intros ((Hi0 & a & Ha & Hla & Hah) & Hrest). split; [done|].
      intros name' limit' [[= -> ->]|Hin]%elem_of_cons; [|by apply Hrest].
      by exists v, a, lo, hi.
    + intros (Hi0 & Hall). split; [split; [done|]|].
      * destruct (Hall name limit) as (v' & a & lo' & hi' & Hv' & Ha & Hlo' & Hhi' & ? & ?);
          [by left|].
        exists a. rewrite Hv in Hv'. injection Hv' as <-.
        rewrite Hlo in Hlo'. injection Hlo' as <-.
        rewrite Hhi in Hhi'. injection Hhi' as <-. done.
      * intros name' limit' Hin. apply Hall. by right.
Qed.

(** X15.  [_make_crop_indices]: when every named attribute can be read and
    has one value per site, and every limit has two entries, the function
    returns one flag per site, and the flag of a site is True exactly when
    each attribute's value at that site is at least the first entry of its
    limit and strictly below the second one.  Without limits every flag is
    True. *)
Theorem crop_indices_flag_sites_within_all_limits (obj : site_data)
    (limits : list (string * list Q)) :
  (∀ name limit, (name, limit) ∈ limits →
     ∃ v, getattr obj name = Ok v ∧ length v = num_sites obj ∧ 2 ≤ length limit) →
  ∃ idx, _make_crop_indices obj limits = Ok idx ∧
         length idx = num_sites obj ∧
         ∀ i, idx !! i = Some true ↔ i < num_sites obj ∧ site_within obj limits i.
Proof.
  intros Hok.
  destruct (crop_indices_loop obj limits (replicate (num_sites obj) true))
    as (idx & Hrun & Hlen & Hidx).
  { intros name limit Hin. rewrite length_replicate. by apply Hok. }
  exists idx. split; [done|]. rewrite length_replicate in Hlen. split; [done|].
  intros i. rewrite Hidx. split.
  - intros [Hi ?]. split; [|done]. apply lookup_lt_Some in Hi.
    by rewrite length_replicate in Hi.
  - intros [Hi ?]. split; [|done]. by apply lookup_replicate_2.
Qed.

Lemma crop_indices_flag_sites_within_all_limits_witness :
  ∃ idx, _make_crop_indices chain_sites [("x"%string, [1; 2]%Q)] = Ok idx ∧
         length idx = num_sites chain_sites ∧
         ∀ i, idx !! i = Some true ↔
              i < num_sites chain_sites ∧ site_within chain_sites [("x"%string, [1; 2]%Q)] i.
Proof.
  apply (crop_indices_flag_sites_within_all_limits chain_sites [("x"%string, [1; 2]%Q)]).
  intros name limit Hin. apply list_elem_of_singleton in Hin. injection Hin as -> ->.
  eexists. split; [reflexivity|]. split; [reflexivity|]. simpl. lia.
Defined.

(** * The model at work *)

(** Row 0 takes the larger of its two entries and leaves row 1 the smaller
    of its own; the optimal assignment gives up 1 in row 0 to gain 8. *)
Example greedy_is_not_optimal :
  _linear_sum_approx (scenario 0 0) greedy_trap = Ok ([0; 1], [true; true]) ∧
  _linear_sum_scipy (solver := exhaustive_lsa) (scenario 0 1) greedy_trap =
    Ok ([1; 0], [true; true]) ∧
  (matched_weight (data greedy_trap) [0; 1]%nat == 6)%Q ∧
  (matched_weight (data greedy_trap) [1; 0]%nat == 13)%Q.
Proof. repeat split; reflexivity. Qed.

(** Both tracks are retired at the last k-point and get the slots 2 and 3. *)
Example retired_tracks_get_new_slots :
  index_and_keep (solver := exhaustive_lsa) (retiring 1) =
    Ok ([[0; 1]; [0; 1]; [0; 1]], [[true; true]; [true; true]; [false; false]]) ∧
  _calc_disentangle_matrix (solver := exhaustive_lsa) (retiring 1) =
    Ok (mk_ndarray [3; 2] [[0; 1]; [0; 1]; [0; 1]],
        mk_ndarray [3; 2] [[0; 1]; [0; 1]; [2; 3]]).
Proof. split; reflexivity. Qed.

(** The energies of the retired tracks move to the new slots; the slots
    without a track hold NaN. *)
Example retired_tracks_are_padded :
  ∃ self',
    _apply_disentanglement (solver := exhaustive_lsa) (retiring 1) scenario_energy =
      Ok (mk_ndarray [3; 4]
            [[Scalar (Finite (-1)); Scalar (Finite 1); Scalar NaN; Scalar NaN];
             [Scalar (Finite (-2 # 10)); Scalar (Finite (2 # 10)); Scalar NaN; Scalar NaN];
             [Scalar NaN; Scalar NaN; Scalar (Finite 1); Scalar (Finite (-1))]]%Q, self') ∧
    _disentangle_matrix self' =
      Some (mk_ndarray [3; 2] [[0; 1]; [0; 1]; [0; 1]],
            mk_ndarray [3; 2] [[0; 1]; [0; 1]; [2; 3]]).
Proof. eexists. split; reflexivity. Qed.

(** Projected densities keep their blocks; an empty slot holds a block of
    NaN. *)
Example retired_densities_are_padded :
  ∃ out self',
    _apply_disentanglement (solver := exhaustive_lsa) (retiring 1) scenario_density =
      Ok (out, self') ∧
    shape out = [3; 4; 2] ∧
    data out !! 2 =
      Some [Block [Scalar NaN; Scalar NaN]; Block [Scalar NaN; Scalar NaN];
            Block [Scalar (Finite 0); Scalar (Finite 1)];
            Block [Scalar (Finite 1); Scalar (Finite 0)]]%Q.
Proof. do 2 eexists. split; [reflexivity|]. split; reflexivity. Qed.

(** A data array with another number of bands is refused. *)
Example apply_checks_the_leading_axes :
  _apply_disentanglement (solver := exhaustive_lsa) (retiring 1)
    (mk_ndarray [3; 1] [[Scalar (Finite 0)]; [Scalar (Finite 0)]; [Scalar (Finite 0)]]%Q) =
    Raise AssertionError.
Proof. reflexivity. Qed.

(** An unknown routine is refused. *)
Example unknown_routine_is_refused :
  _calc_disentangle_matrix (solver := exhaustive_lsa) (retiring 2) = Raise AssertionError.
Proof. reflexivity. Qed.

(** A wavefunction array with two axes, or with one k-point, is refused. *)
Example overlap_needs_three_axes :
  _calc_overlap_matrix (ops := real_complex) (mk_Wavefunction (mk_ndarray [3; 2] [])) =
    Raise AssertionError ∧
  _calc_overlap_matrix (ops := real_complex)
    (mk_Wavefunction (mk_ndarray [1; 1; 1] [[[(1, 0)%R]]])) = Raise AssertionError.
Proof. split; reflexivity. Qed.

(** The second step goes on from the changed order: its matrix is the slice
    with the rows in the order [1, 0] of the step before.  On the slice as it
    stands the routine would have answered [0, 1]. *)
Example crossing_is_followed :
  _calc_disentangle_matrix (solver := exhaustive_lsa) (crossing 1) =
    Ok (mk_ndarray [3; 2] [[0; 1]; [1; 0]; [1; 0]],
        mk_ndarray [3; 2] [[0; 1]; [0; 1]; [0; 1]]) ∧
  take_rows crossing_overlap 1 [1; 0] =
    Ok (mk_ndarray [2; 2] [[3 # 10; 7 # 10]; [8 # 10; 2 # 10]]%Q) ∧
  _linear_sum_scipy (solver := exhaustive_lsa) (crossing 1)
    (mk_ndarray [2; 2] [[3 # 10; 7 # 10]; [8 # 10; 2 # 10]]%Q) = Ok ([1; 0], [true; true]) ∧
  _linear_sum_scipy (solver := exhaustive_lsa) (crossing 1)
    (mk_ndarray [2; 2] [[8 # 10; 2 # 10]; [3 # 10; 7 # 10]]%Q) = Ok ([0; 1], [true; true]).
Proof. repeat split; reflexivity. Qed.

(** The overlap of band 1 with band 0 of the next k-point is 1 and that of
    band 0 with band 1 is 0: the first index is the band at the earlier
    k-point. *)
Example overlap_is_not_symmetric :
  ∃ o, _calc_overlap_matrix (ops := real_complex) two_band_wavefunction = Ok o ∧
       lookup3 (data o) 0 1 0 = Some 1%R ∧
       lookup3 (data o) 0 0 1 = Some 0%R.
Proof.
  eexists. split; [reflexivity|]. unfold lookup3, lookup2. simpl. split; f_equal.
  - transitivity (sqrt 1); [f_equal; ring|apply sqrt_1].
  - transitivity (sqrt 0); [f_equal; ring|apply sqrt_0].
Qed.
